(** * A single-node proof-of-work ledger: blocks, transactions, wallets

    Shallow embedding of [blockchain.js] (classes [Block], [Transaction],
    [Blockchain], [Wallet]).  The repository holds two revisions of that
    file.  The later one (its header reads "fix signature verification")
    is the one embedded in [Transaction], [Block], [Blockchain] and
    [Wallet]; the methods of the earlier revision that differ are kept in
    [Module V1].

    Conventions of the embedding:
    - JS strings are byte strings ([string]); [hash.update(str)] hashes the
      bytes of the string.
    - JS numbers that occur here (indices, timestamps, nonces, amounts) are
      integers in the range where Number arithmetic is exact and
      Number-to-string is plain decimal; they are modelled as [Z].
    - Where rounding or [NaN] matters, amounts are IEEE-754 binary64
      values ([Module Number]) and the balance scan and the admission
      tests are embedded over them ([Module Numeric]); on ledgers of
      integer amounts whose absolute values sum to less than 2^53 the two
      embeddings of the balance scan agree.
    - [Date.now()] and [crypto.randomBytes] are inputs: every operation that
      reads the clock takes the reading as an argument.
    - [throw] is a value of [result]; [try]/[catch] is [try_catch].
    - [console.log]/[console.error] have no effect on the state and are
      left out. *)

From Stdlib Require Import ZArith List Bool Lia.
From Stdlib.Strings Require Import String Ascii Byte.
From Stdlib Require Import DecimalString Permutation SpecFloat.
Import ListNotations.
Local Open Scope string_scope.
Local Open Scope list_scope.
Local Open Scope Z_scope.

Set Implicit Arguments.

(** ** Byte buffers, hex and decimal text *)

Definition bytes := list byte.

Definition byte_to_Z (b : byte) : Z := Z.of_N (Byte.to_N b).

Definition Z_to_byte (z : Z) : byte :=
  match Byte.of_N (Z.to_N (z mod 256)) with
  | Some b => b
  | None => x00
  end.

Definition string_to_bytes (s : string) : bytes := list_byte_of_string s.

(** Lowercase hexadecimal digit of a value in [0,16). *)
Definition hex_digit (z : Z) : ascii :=
  match z with
  | 0 => "0" | 1 => "1" | 2 => "2" | 3 => "3" | 4 => "4" | 5 => "5"
  | 6 => "6" | 7 => "7" | 8 => "8" | 9 => "9" | 10 => "a" | 11 => "b"
  | 12 => "c" | 13 => "d" | 14 => "e" | _ => "f"
  end%char.

(** Value of a hexadecimal digit, either case; [None] for any other char. *)
Definition hex_value (c : ascii) : option Z :=
  let n := Z.of_N (N_of_ascii c) in
  if (48 <=? n) && (n <=? 57) then Some (n - 48)
  else if (97 <=? n) && (n <=? 102) then Some (n - 87)
  else if (65 <=? n) && (n <=? 70) then Some (n - 55)
  else None.

(** [buf.toString('hex')] *)
Fixpoint to_hex (bs : bytes) : string :=
  match bs with
  | [] => EmptyString
  | b :: rest =>
      String (hex_digit (byte_to_Z b / 16))
        (String (hex_digit (byte_to_Z b mod 16)) (to_hex rest))
  end.

(** [Buffer.from(str, 'hex')]: decodes pairs of digits and stops at the
    first pair that is not hexadecimal (or at a trailing single char). *)
Fixpoint from_hex (s : string) : bytes :=
  match s with
  | String c1 (String c2 rest) =>
      match hex_value c1, hex_value c2 with
      | Some h, Some l => Z_to_byte (16 * h + l) :: from_hex rest
      | _, _ => []
      end
  | _ => []
  end.

(** Number-to-string on the integers. *)
Definition Z_to_string (z : Z) : string :=
  NilZero.string_of_int (Z.to_int z).

(** ** SHA-256 (FIPS 180-4), as [crypto.createHash('sha256')] computes it *)

Module SHA256.

Definition w32 (x : Z) : Z := Z.land x 0xffffffff.
Definition add32 (x y : Z) : Z := w32 (x + y).
Definition rotr (n x : Z) : Z :=
  Z.lor (Z.shiftr x n) (w32 (Z.shiftl x (32 - n))).
Definition not32 (x : Z) : Z := Z.lxor x 0xffffffff.

Definition Ch (x y z : Z) := Z.lxor (Z.land x y) (Z.land (not32 x) z).
Definition Maj (x y z : Z) :=
  Z.lxor (Z.lxor (Z.land x y) (Z.land x z)) (Z.land y z).
Definition Sigma0 x := Z.lxor (Z.lxor (rotr 2 x) (rotr 13 x)) (rotr 22 x).
Definition Sigma1 x := Z.lxor (Z.lxor (rotr 6 x) (rotr 11 x)) (rotr 25 x).
Definition sigma0 x := Z.lxor (Z.lxor (rotr 7 x) (rotr 18 x)) (Z.shiftr x 3).
Definition sigma1 x :=
  Z.lxor (Z.lxor (rotr 17 x) (rotr 19 x)) (Z.shiftr x 10).

(** The first 64 primes. *)
Definition is_prime (n : Z) : bool :=
forallb (fun d => negb (n mod Z.of_nat d =? 0)) (seq 2 (Z.to_nat n - 2)).

Definition primes : list Z :=
Eval vm_compute in filter is_prime (map Z.of_nat (seq 2 310)).

(** Largest [x] below [2^bits] (added to [x0]) with [x^3 <= n]. *)
Fixpoint cube_root (bits : nat) (n x0 : Z) : Z :=
match bits with
| O => x0
| S b =>
    let y := x0 + 2 ^ Z.of_nat b in
    cube_root b n (if y * y * y <=? n then y else x0)
end.

(** Round constants: the first 32 bits of the fractional parts of the cube
    roots of the primes. *)
Definition K : list Z :=
Eval vm_compute in map (fun p => w32 (cube_root 36 (p * 2 ^ 96) 0)) primes.

(** The eight chaining words. *)
Record state := mkState
{ sa : Z; sb : Z; sc : Z; sd : Z; se : Z; sf : Z; sg : Z; sh : Z }.

(** Initial chaining value: the first 32 bits of the fractional parts of
    the square roots of the first eight primes. *)
Definition H0 : state :=
match map (fun p => w32 (Z.sqrt (p * 2 ^ 64))) (firstn 8 primes) with
| [a; b; c; d; e; f; g; h] => mkState a b c d e f g h
| _ => mkState 0 0 0 0 0 0 0 0
end.

(** Padding: 0x80, zeros up to 56 mod 64, then the bit length on 8 bytes. *)
Definition be_bytes (n : nat) (z : Z) : list Z :=
  map (fun i => Z.land (Z.shiftr z (8 * Z.of_nat i)) 255) (rev (seq 0 n)).

Definition pad (msg : list Z) : list Z :=
  let len := Z.of_nat (List.length msg) in
  msg ++ [128] ++ repeat 0 (Z.to_nat ((55 - len) mod 64))
      ++ be_bytes 8 (8 * len).

(** Big-endian 32-bit words of a byte list. *)
Fixpoint words (bs : list Z) : list Z :=
  match bs with
  | b0 :: b1 :: b2 :: b3 :: rest =>
      (((b0 * 256 + b1) * 256 + b2) * 256 + b3) :: words rest
  | _ => []
  end.

(** Message schedule; [recent] holds the words computed so far, newest
    first. *)
Fixpoint schedule (n : nat) (recent : list Z) : list Z :=
  match n with
  | O => rev recent
  | S n' =>
      let w := add32 (add32 (sigma1 (nth 1 recent 0)) (nth 6 recent 0))
                     (add32 (sigma0 (nth 14 recent 0)) (nth 15 recent 0)) in
      schedule n' (w :: recent)
  end.

Definition round (s : state) (kw : Z * Z) : state :=
  let (k, w) := kw in
  let t1 := add32 (add32 (add32 (sh s) (Sigma1 (se s)))
                         (add32 (Ch (se s) (sf s) (sg s)) k)) w in
  let t2 := add32 (Sigma0 (sa s)) (Maj (sa s) (sb s) (sc s)) in
  mkState (add32 t1 t2) (sa s) (sb s) (sc s)
          (add32 (sd s) t1) (se s) (sf s) (sg s).

Definition compress (s : state) (block : list Z) : state :=
  let s' := fold_left round (combine K (schedule 48 (rev block))) s in
  mkState (add32 (sa s) (sa s')) (add32 (sb s) (sb s'))
          (add32 (sc s) (sc s')) (add32 (sd s) (sd s'))
          (add32 (se s) (se s')) (add32 (sf s) (sf s'))
          (add32 (sg s) (sg s')) (add32 (sh s) (sh s')).

(** Consumes the word list sixteen words at a time. *)
Fixpoint blocks (fuel : nat) (ws : list Z) (s : state) : state :=
  match fuel, ws with
  | S fuel', _ :: _ => blocks fuel' (skipn 16 ws) (compress s (firstn 16 ws))
  | _, _ => s
  end.

Definition digest_words (s : state) : list Z :=
  [sa s; sb s; sc s; sd s; se s; sf s; sg s; sh s].

Definition digest (msg : bytes) : bytes :=
  let ws := words (pad (map byte_to_Z msg)) in
  map Z_to_byte
      (flat_map (be_bytes 4) (digest_words (blocks (List.length ws) ws H0))).

End SHA256.

(** [crypto.createHash('sha256').update(data).digest('hex')] on a string
    and on a buffer. *)
Definition sha256_hex_bytes (data : bytes) : string :=
  to_hex (SHA256.digest data).

Definition sha256_hex (data : string) : string :=
  sha256_hex_bytes (string_to_bytes data).

(** ** Thrown errors and the error monad

    Every [throw] site of the source has its constructor; the names follow
    the error taxonomy of the specification. *)

Inductive Error : Type :=
| MissingKey                       (* signTransaction: no signing key *)
| KeyLength                        (* private key is not 32 bytes *)
| KeyInvalid                       (* privateKeyVerify answered false *)
| SigningFailed (cause : Error)    (* catch of signTransaction (2nd rev.) *)
| ImportFailed (cause : Error)     (* catch of Wallet.fromPrivateKey *)
| GenerateFailed (cause : Error)   (* catch of Wallet.generate (2nd rev.) *)
| NoSignature                      (* isValid (1st rev.): no signature *)
| MissingAddress                   (* addTransaction: sender or recipient *)
| InvalidAmount                    (* addTransaction: amount not positive *)
| InvalidSignature                 (* addTransaction: isValid is false *)
| InsufficientBalance              (* addTransaction, createTransaction *)
| Native.                          (* raised inside Buffer, crypto, secp256k1
                                      or by the JS runtime (TypeError) *)

Inductive result (A : Type) : Type :=
| Ok (a : A)
| Throw (e : Error).
Arguments Throw {A} e.

Definition rbind {A B} (r : result A) (k : A -> result B) : result B :=
  match r with
  | Ok a => k a
  | Throw e => Throw e
  end.

(** [try { body } catch (error) { handler }] *)
Definition try_catch {A} (body : result A) (handler : Error -> result A)
  : result A :=
  match body with
  | Ok a => Ok a
  | Throw e => handler e
  end.

Declare Scope result_scope.
Delimit Scope result_scope with result.
Notation "x <- c ;; k" := (rbind c (fun x => k))
  (at level 61, c at next level, right associativity) : result_scope.
Notation "' pat <- c ;; k" :=
  (rbind c (fun x => match x with pat => k end))
  (at level 61, pat pattern, c at next level, right associativity)
  : result_scope.

(** ** The JS fragments the hashing code relies on *)

(** Operands of the [+] chains: [null], a string or a number. *)
Inductive jsval : Type :=
| JSNull
| JSStr (s : string)
| JSNum (z : Z).

Definition js_to_string (v : jsval) : string :=
  match v with
  | JSNull => "null"
  | JSStr s => s
  | JSNum z => Z_to_string z
  end.

(** [a + b]: concatenation as soon as one side is a string, otherwise
    numeric addition with [null] read as 0. *)
Definition js_plus (a b : jsval) : jsval :=
  match a, b with
  | JSStr _, _ | _, JSStr _ => JSStr (js_to_string a ++ js_to_string b)
  | JSNull, JSNull => JSNum 0
  | JSNull, JSNum z | JSNum z, JSNull => JSNum z
  | JSNum x, JSNum y => JSNum (x + y)
  end.

(** An address slot: [null] or a string. *)
Definition js_of_address (a : option string) : jsval :=
  match a with
  | None => JSNull
  | Some s => JSStr s
  end.

(** [!a] is false exactly for a non-empty string. *)
Definition truthy (a : option string) : bool :=
  match a with
  | Some (String _ _) => true
  | _ => false
  end.

(** [a === b] on address slots. *)
Definition address_eqb (a b : option string) : bool :=
  match a, b with
  | None, None => true
  | Some x, Some y => String.eqb x y
  | _, _ => false
  end.

(** A numeric property that may not have been assigned yet. *)
Inductive jsnum : Type :=
| NUndefined
| NNaN
| NNum (n : Z).

Definition jsnum_to_string (n : jsnum) : string :=
  match n with
  | NUndefined => "undefined"
  | NNaN => "NaN"
  | NNum z => Z_to_string z
  end.

(** [n++] *)
Definition jsnum_incr (n : jsnum) : jsnum :=
  match n with
  | NNum z => NNum (z + 1)
  | _ => NNaN
  end.

(** *** Numbers as they are: IEEE-754 binary64

    [S754_zero], [S754_infinity], [S754_nan] and [S754_finite s m e]
    (the value [(-1)^s * m * 2^e]), with the operations of the standard
    library's executable specification of binary floating point at
    precision 53 and maximal exponent 1024, rounding to nearest, ties to
    even. *)

Module Number.

Definition prec : Z := 53.
Definition emax : Z := 1024.

Definition t : Type := spec_float.

(** The literal [0]. *)
Definition zero : t := S754_zero false.

Definition NaN : t := S754_nan.

(** [x + y] and [x - y] on two numbers. *)
Definition add (x y : t) : t := SFadd prec emax x y.
Definition sub (x y : t) : t := SFsub prec emax x y.

(** [x < y] and [x <= y]: false as soon as one side is [NaN]. *)
Definition ltb (x y : t) : bool := SFltb x y.
Definition leb (x y : t) : bool := SFleb x y.

(** The number an integer literal denotes. *)
Definition of_Z (z : Z) : t := binary_normalize prec emax z 0 false.

(** The number a decimal literal with value [p / q] denotes, for [p] and
    [q] below 2^53: the quotient rounded once ([quotient 1 10] is 0.1). *)
Definition quotient (p q : Z) : t := SFdiv prec emax (of_Z p) (of_Z q).

End Number.

(** A mantissa with [k] zero bits appended. *)
Definition shift_left (k : nat) (p : positive) : positive := Nat.iter k xO p.

(** *** [JSON.stringify] on the shapes stored in a block *)

Definition dquote : string := String (ascii_of_nat 34) EmptyString.

Definition json_escape_char (c : ascii) : string :=
  let n := Z.of_N (N_of_ascii c) in
  if n =? 34 then String (ascii_of_nat 92) dquote
  else if n =? 92 then String (ascii_of_nat 92) (String (ascii_of_nat 92) EmptyString)
  else if n =? 8 then String (ascii_of_nat 92) "b"
  else if n =? 12 then String (ascii_of_nat 92) "f"
  else if n =? 10 then String (ascii_of_nat 92) "n"
  else if n =? 13 then String (ascii_of_nat 92) "r"
  else if n =? 9 then String (ascii_of_nat 92) "t"
  else if n <? 32 then
    String (ascii_of_nat 92)
      ("u00" ++ String (hex_digit (n / 16)) (String (hex_digit (n mod 16)) EmptyString))
  else String c EmptyString.

Fixpoint json_escape (s : string) : string :=
  match s with
  | EmptyString => EmptyString
  | String c rest => (json_escape_char c ++ json_escape rest)%string
  end.

Definition json_string (s : string) : string :=
  (dquote ++ json_escape s ++ dquote)%string.

Definition json_address (a : option string) : string :=
  match a with
  | None => "null"
  | Some s => json_string s
  end.

Definition json_member (key value : string) : string :=
  (json_string key ++ ":" ++ value)%string.

Fixpoint json_join (items : list string) : string :=
  match items with
  | [] => EmptyString
  | [x] => x
  | x :: rest => (x ++ "," ++ json_join rest)%string
  end.

Definition json_object (members : list string) : string :=
  ("{" ++ json_join members ++ "}")%string.

Definition json_array (items : list string) : string :=
  ("[" ++ json_join items ++ "]")%string.

(** ** secp256k1

    The native library is an interface of the program; a call that the
    library rejects (wrong buffer length, invalid key, invalid signature
    encoding) throws. *)

Class Secp256k1 : Type := {
  privateKeyVerify : bytes -> bool;
  publicKeyCreate : bytes -> result bytes;
  ecdsaSign : bytes -> bytes -> result (bytes * Z);
  ecdsaRecover : bytes -> Z -> bytes -> result bytes;
  ecdsaVerify : bytes -> bytes -> bytes -> result bool
}.

(** What the program expects of the library: a valid 32-byte key signs any
    32-byte message, the 64-byte signature with its recovery id recovers the
    public key of that key, and verifies against it. *)
Definition ecdsa_sound (S : Secp256k1) : Prop :=
  forall sk pk msg,
    privateKeyVerify sk = true ->
    publicKeyCreate sk = Ok pk ->
    List.length msg = 32%nat ->
    exists sig recid,
      ecdsaSign msg sk = Ok (sig, recid) /\
      List.length sig = 64%nat /\
      ecdsaRecover sig recid msg = Ok pk /\
      ecdsaVerify sig msg pk = Ok true.

(** ** class Transaction *)

Module Transaction.

(** The [signature] slot: [null] after construction; the first revision
    stores one hex string (64 signature bytes and the recovery id), the
    second an object [{ signature, recovery }]. *)
Inductive sigfield : Type :=
| SigNull
| SigHex (hex : string)
| SigObj (sig : string) (recovery : Z).

Record t : Type := mk {
  fromAddress : option string;
  toAddress : option string;
  amount : Z;
  timestamp : Z;
  signature : sigfield
}.

(** [new Transaction(fromAddress, toAddress, amount)] at clock reading
    [now]. *)
Definition new (fromAddress toAddress : option string) (amount now : Z) : t :=
  mk fromAddress toAddress amount now SigNull.

Definition set_signature (tx : t) (s : sigfield) : t :=
  mk (fromAddress tx) (toAddress tx) (amount tx) (timestamp tx) s.

(** [hash.update] accepts a string; a number makes it throw. *)
Definition calculateHash (tx : t) : result string :=
  match js_plus (js_plus (js_plus (js_of_address (fromAddress tx))
                                  (js_of_address (toAddress tx)))
                         (JSNum (amount tx)))
                (JSNum (timestamp tx)) with
  | JSStr s => Ok (sha256_hex s)
  | _ => Throw Native
  end.

Definition json_signature (s : sigfield) : string :=
  match s with
  | SigNull => "null"
  | SigHex h => json_string h
  | SigObj sg r =>
      json_object [json_member "signature" (json_string sg);
                   json_member "recovery" (Z_to_string r)]
  end.

(** [JSON.stringify(tx)]: the own properties in creation order. *)
Definition to_json (tx : t) : string :=
  json_object
    [json_member "fromAddress" (json_address (fromAddress tx));
     json_member "toAddress" (json_address (toAddress tx));
     json_member "amount" (Z_to_string (amount tx));
     json_member "timestamp" (Z_to_string (timestamp tx));
     json_member "signature" (json_signature (signature tx))].

Section WithSecp.
Context {secp : Secp256k1}.

(** [signTransaction(signingKey)], second revision.  The method
    assigns [this.signature]; the embedding returns the transaction
    after the call. *)
Definition signTransaction (signingKey : option string) (tx : t)
  : result t :=
  if negb (truthy signingKey) then Throw MissingKey
  else
    try_catch
      (let privateKeyBuffer :=
         from_hex (match signingKey with Some k => k | None => "" end) in
       if negb (Nat.eqb (List.length privateKeyBuffer) 32)
       then Throw KeyLength
       else if negb (privateKeyVerify privateKeyBuffer)
       then Throw KeyInvalid
       else
         (txHash <- calculateHash tx ;;
          let msgHash := from_hex txHash in
          sigObj <- ecdsaSign msgHash privateKeyBuffer ;;
          Ok (set_signature tx
                (SigObj (to_hex (fst sigObj)) (snd sigObj))))%result)
      (fun error => Throw (SigningFailed error)).

(** [!this.signature || !this.signature.signature] *)
Definition signature_absent (s : sigfield) : bool :=
  match s with
  | SigObj (String _ _) _ => false
  | _ => true
  end.

(** [isValid()], second revision. *)
Definition isValid (tx : t) : result bool :=
  match fromAddress tx with
  | None => Ok true
  | Some sender =>
      if signature_absent (signature tx) then Ok false
      else
        try_catch
          (txHash <- calculateHash tx ;;
           let msgHash := from_hex txHash in
           match signature tx with
           | SigObj sg recovery =>
               let signatureBuffer := from_hex sg in
               recoveredPubKey <-
                 ecdsaRecover signatureBuffer recovery msgHash ;;
               let recoveredAddress := sha256_hex_bytes recoveredPubKey in
               let isAddressMatch := String.eqb recoveredAddress sender in
               if negb isAddressMatch then Ok false
               else ecdsaVerify signatureBuffer msgHash recoveredPubKey
           | _ => Throw Native
           end)%result
          (fun _ => Ok false)
  end.

End WithSecp.

End Transaction.

(** ** class Block *)

Module Block.

Record t : Type := mk {
  index : Z;
  timestamp : Z;
  transactions : list Transaction.t;
  previousHash : string;
  hash : string;
  nonce : jsnum
}.

Definition set_hash (b : t) (h : string) : t :=
  mk (index b) (timestamp b) (transactions b) (previousHash b) h (nonce b).

Definition set_nonce (b : t) (n : jsnum) : t :=
  mk (index b) (timestamp b) (transactions b) (previousHash b) (hash b) n.

(** [index + timestamp] is a number; from the JSON text on the chain is
    string concatenation. *)
Definition hash_input (b : t) : string :=
  (Z_to_string (index b + timestamp b)
   ++ json_array (map Transaction.to_json (transactions b))
   ++ previousHash b
   ++ jsnum_to_string (nonce b))%string.

Definition calculateHash (b : t) : string := sha256_hex (hash_input b).

(** The constructor, statement by statement: the four arguments are
    stored, then [this.hash = this.calculateHash()] runs while [nonce] is
    still unassigned, then [this.nonce = 0]. *)
Definition new (index timestamp : Z) (transactions : list Transaction.t)
           (previousHash : string) : t :=
  let this := mk index timestamp transactions previousHash "" NUndefined in
  let this := set_hash this (calculateHash this) in
  let this := set_nonce this (NNum 0) in
  this.

(** [Array(difficulty + 1).join('0')] *)
Definition zeros (difficulty : nat) : string :=
  string_of_list_ascii (repeat "0"%char difficulty).

(** The loop test of [mineBlock], negated: the block is accepted. *)
Definition meets (difficulty : nat) (b : t) : bool :=
  String.eqb (substring 0 difficulty (hash b)) (zeros difficulty).

(** Loop body of [mineBlock]. *)
Definition next_nonce (b : t) : t :=
  let b := set_nonce b (jsnum_incr (nonce b)) in
  set_hash b (calculateHash b).

(** [mineBlock(difficulty)]; [fuel] bounds the number of loop iterations
    (nonce increments), [None] when more would be needed. *)
Fixpoint mineBlock (fuel : nat) (difficulty : nat) (b : t) : option t :=
  if meets difficulty b then Some b
  else
    match fuel with
    | O => None
    | S fuel' => mineBlock fuel' difficulty (next_nonce b)
    end.

End Block.

(** ** Methods run on an object: state and exceptions

    A method maps the object before the call to its outcome and the object
    after the call, also when it throws. *)

Section Methods.
Variable S : Type.

Definition M (A : Type) : Type := S -> result A * S.

Definition ret {A} (a : A) : M A := fun s => (Ok a, s).
Definition throw {A} (e : Error) : M A := fun s => (Throw e, s).
Definition bind {A B} (m : M A) (k : A -> M B) : M B :=
  fun s =>
    match m s with
    | (Ok a, s') => k a s'
    | (Throw e, s') => (Throw e, s')
    end.
Definition lift {A} (r : result A) : M A := fun s => (r, s).
Definition gets {A} (f : S -> A) : M A := fun s => (Ok (f s), s).
Definition modify (f : S -> S) : M unit := fun s => (Ok tt, f s).
Definition when (c : bool) (m : M unit) : M unit := if c then m else ret tt.
End Methods.

Arguments ret {S A} a.
Arguments throw {S A} e.
Arguments bind {S A B} m k.
Arguments lift {S A} r.
Arguments gets {S A} f.
Arguments modify {S} f.
Arguments when {S} c m.

Declare Scope method_scope.
Delimit Scope method_scope with method.
Notation "x <- c ;; k" := (bind c (fun x => k))
  (at level 61, c at next level, right associativity) : method_scope.
Notation "c ;; k" := (bind c (fun _ => k))
  (at level 61, right associativity) : method_scope.

(** ** class Blockchain *)

Module Blockchain.

Record t : Type := mk {
  chain : list Block.t;
  difficulty : nat;
  pendingTransactions : list Transaction.t;
  miningReward : Z
}.

Definition set_chain (bc : t) (c : list Block.t) : t :=
  mk c (difficulty bc) (pendingTransactions bc) (miningReward bc).

Definition set_pendingTransactions (bc : t) (p : list Transaction.t) : t :=
  mk (chain bc) (difficulty bc) p (miningReward bc).

Definition createGenesisBlock (now : Z) : Block.t := Block.new 0 now [] "0".

(** [new Blockchain()], second revision (difficulty 2). *)
Definition new (now : Z) : t := mk [createGenesisBlock now] 2 [] 100.

(** [this.chain[this.chain.length - 1]]; [undefined] on an empty chain. *)
Definition getLatestBlock (bc : t) : option Block.t :=
  nth_error (chain bc) (List.length (chain bc) - 1).

(** [minePendingTransactions(miningRewardAddress)].  [now_tx] and
    [now_block] are the two clock readings, [fuel] bounds the
    proof-of-work search ([None]: not finished within [fuel] nonce
    increments).  The array handed to the block is the queue object
    itself; the queue is rebound to a fresh array before anything is
    pushed again, so the block's list is never written afterwards. *)
Definition minePendingTransactions (fuel : nat) (now_tx now_block : Z)
           (miningRewardAddress : string) (bc : t)
  : option (result Block.t * t) :=
  let rewardTx :=
    Transaction.new None (Some miningRewardAddress) (miningReward bc) now_tx in
  let bc := set_pendingTransactions bc (pendingTransactions bc ++ [rewardTx]) in
  match getLatestBlock bc with
  | None => Some (Throw Native, bc)
  | Some latest =>
      let block :=
        Block.new (Z.of_nat (List.length (chain bc))) now_block
                  (pendingTransactions bc) (Block.hash latest) in
      match Block.mineBlock fuel (difficulty bc) block with
      | None => None
      | Some block =>
          let bc := set_chain bc (chain bc ++ [block]) in
          let bc := set_pendingTransactions bc [] in
          Some (Ok block, bc)
      end
  end.

(** The method for whatever the caller passes as reward address: nothing
    tests the argument, so [null] is taken like an address and becomes
    the recipient of the reward transaction.  [minePendingTransactions]
    above is this method called with a string. *)
Definition minePendingTransactions_any (fuel : nat) (now_tx now_block : Z)
           (miningRewardAddress : option string) (bc : t)
  : option (result Block.t * t) :=
  let rewardTx :=
    Transaction.new None miningRewardAddress (miningReward bc) now_tx in
  let bc := set_pendingTransactions bc (pendingTransactions bc ++ [rewardTx]) in
  match getLatestBlock bc with
  | None => Some (Throw Native, bc)
  | Some latest =>
      let block :=
        Block.new (Z.of_nat (List.length (chain bc))) now_block
                  (pendingTransactions bc) (Block.hash latest) in
      match Block.mineBlock fuel (difficulty bc) block with
      | None => None
      | Some block =>
          let bc := set_chain bc (chain bc ++ [block]) in
          let bc := set_pendingTransactions bc [] in
          Some (Ok block, bc)
      end
  end.

(** Body of the inner loop of [getBalanceOfAddress]. *)
Definition balance_step (address : option string) (balance : Z)
           (trans : Transaction.t) : Z :=
  let balance :=
    if address_eqb (Transaction.fromAddress trans) address
    then balance - Transaction.amount trans else balance in
  if address_eqb (Transaction.toAddress trans) address
  then balance + Transaction.amount trans else balance.

Definition getBalanceOfAddress (address : option string) (bc : t) : Z :=
  fold_left
    (fun balance block =>
       fold_left (balance_step address) (Block.transactions block) balance)
    (chain bc) 0.

Section WithValidity.
(** The validity check of the transaction class in use. *)
Variable isValid : Transaction.t -> result bool.

(** [for (const tx of currentBlock.transactions)
      if (!tx.isValid() && tx.fromAddress !== null) return false] *)
Fixpoint transactions_valid (txs : list Transaction.t) : result bool :=
  match txs with
  | [] => Ok true
  | tx :: rest =>
      (valid <- isValid tx ;;
       if negb valid && negb (address_eqb (Transaction.fromAddress tx) None)
       then Ok false
       else transactions_valid rest)%result
  end.

(** The loop of [isChainValid] from index [i] on, [previousBlock]
    being [chain[i - 1]]. *)
Fixpoint blocks_valid (previousBlock : Block.t) (rest : list Block.t)
  : result bool :=
  match rest with
  | [] => Ok true
  | currentBlock :: rest' =>
      if negb (String.eqb (Block.hash currentBlock)
                          (Block.calculateHash currentBlock))
      then Ok false
      else if negb (String.eqb (Block.previousHash currentBlock)
                               (Block.hash previousBlock))
      then Ok false
      else
        (ok <- transactions_valid (Block.transactions currentBlock) ;;
         if negb ok then Ok false else blocks_valid currentBlock rest')%result
  end.

Definition isChainValid_with (bc : t) : result bool :=
  match chain bc with
  | [] => Ok true
  | genesis :: rest => blocks_valid genesis rest
  end.
End WithValidity.

Section WithSecp.
Context {secp : Secp256k1}.

(** [addTransaction(transaction)], second revision.  [amount] is a
    number in the embedding, so the [typeof] half of the amount test
    is always false. *)
Definition addTransaction (transaction : Transaction.t) : M t bool :=
  (when (negb (truthy (Transaction.fromAddress transaction))
         || negb (truthy (Transaction.toAddress transaction)))
        (throw MissingAddress) ;;
   when (Transaction.amount transaction <=? 0) (throw InvalidAmount) ;;
   (if negb (address_eqb (Transaction.fromAddress transaction) None)
    then
      valid <- lift (Transaction.isValid transaction) ;;
      when (negb valid) (throw InvalidSignature) ;;
      senderBalance <-
        gets (getBalanceOfAddress (Transaction.fromAddress transaction)) ;;
      when (senderBalance <? Transaction.amount transaction)
           (throw InsufficientBalance)
    else ret tt) ;;
   modify (fun bc =>
             set_pendingTransactions bc
               (pendingTransactions bc ++ [transaction])) ;;
   ret true)%method.

Definition isChainValid : t -> result bool :=
  isChainValid_with Transaction.isValid.

(** Ledgers obtained from [new Blockchain()] by calls of
    [addTransaction] and [minePendingTransactions]; the index counts
    the mining calls. *)
Inductive reachable : nat -> t -> Prop :=
| reach_new now : reachable 0 (new now)
| reach_add n bc tx r bc' :
    reachable n bc ->
    addTransaction tx bc = (r, bc') ->
    reachable n bc'
| reach_mine n bc fuel now_tx now_block rewardAddress r bc' :
    reachable n bc ->
    minePendingTransactions fuel now_tx now_block rewardAddress bc
    = Some (r, bc') ->
    reachable (S n) bc'.

End WithSecp.

End Blockchain.

(** ** class Wallet *)

Module Wallet.

(** The object returned by [generate] and [fromPrivateKey] (the wallet's
    own three fields are set to the same values). *)
Record keypair : Type := mk {
  privateKey : string;
  publicKey : string;
  address : string
}.

Section WithSecp.
Context {secp : Secp256k1}.

(** [do { privateKey = crypto.randomBytes(32) }
    while (!secp256k1.privateKeyVerify(privateKey))] over the successive
    outputs of [randomBytes]; [None] when none of them is accepted. *)
Fixpoint draw_key (draws : list bytes) : option bytes :=
  match draws with
  | [] => None
  | candidate :: rest =>
      if privateKeyVerify candidate then Some candidate else draw_key rest
  end.

(** Common tail of [generate] and [fromPrivateKey]: public key, then
    address = SHA-256 of the public key bytes. *)
Definition derive (privateKeyHex : string) (privateKey : bytes)
  : result keypair :=
  (publicKey <- publicKeyCreate privateKey ;;
   let address := sha256_hex_bytes publicKey in
   Ok (mk privateKeyHex (to_hex publicKey) address))%result.

(** [generate()], second revision. *)
Definition generate (draws : list bytes) : option (result keypair) :=
  match draw_key draws with
  | None => None
  | Some privateKey =>
      Some (try_catch (derive (to_hex privateKey) privateKey)
                      (fun error => Throw (GenerateFailed error)))
  end.

(** [fromPrivateKey(privateKeyHex)], second revision. *)
Definition fromPrivateKey (privateKeyHex : string) : result keypair :=
  try_catch
    (let privateKey := from_hex privateKeyHex in
     if negb (Nat.eqb (List.length privateKey) 32) then Throw KeyLength
     else if negb (privateKeyVerify privateKey) then Throw KeyInvalid
     else derive privateKeyHex privateKey)
    (fun error => Throw (ImportFailed error)).

(** [createTransaction(toAddress, amount, blockchain)].  The wallet is the
    object [generate] or [fromPrivateKey] filled in, or [None] for a wallet
    on which neither has succeeded: its [address] and [privateKey] are
    still [null] then. *)
Definition createTransaction (wallet : option keypair)
           (toAddress : option string) (amount now : Z)
           (blockchain : Blockchain.t) : result Transaction.t :=
  let this_address := option_map address wallet in
  let this_privateKey := option_map privateKey wallet in
  let balance := Blockchain.getBalanceOfAddress this_address blockchain in
  if balance <? amount then Throw InsufficientBalance
  else
    let transaction := Transaction.new this_address toAddress amount now in
    Transaction.signTransaction this_privateKey transaction.

End WithSecp.

End Wallet.

(** ** The first revision, where it differs *)

Module V1.

Section WithSecp.
Context {secp : Secp256k1}.

(** [signTransaction(signingKey)]: no key checks, no [try]; the
    signature is stored as one hex string, recovery id last. *)
Definition signTransaction (signingKey : option string)
           (tx : Transaction.t) : result Transaction.t :=
  if negb (truthy signingKey) then Throw MissingKey
  else
    (txHash <- Transaction.calculateHash tx ;;
     let msgHash := from_hex txHash in
     let privateKey :=
       from_hex (match signingKey with Some k => k | None => "" end) in
     sigObj <- ecdsaSign msgHash privateKey ;;
     Ok (Transaction.set_signature tx
           (Transaction.SigHex
              (to_hex (fst sigObj ++ [Z_to_byte (snd sigObj)])))))%result.

(** [isValid()]: throws when the signature is missing and verifies
    against the bytes of the sender address taken as a public key. *)
Definition isValid (tx : Transaction.t) : result bool :=
  match Transaction.fromAddress tx with
  | None => Ok true
  | Some sender =>
      match Transaction.signature tx with
      | Transaction.SigNull | Transaction.SigHex EmptyString =>
          Throw NoSignature
      | Transaction.SigObj _ _ =>
          (* Buffer.from(object, 'hex') throws inside the try *)
          Ok false
      | Transaction.SigHex sg =>
          try_catch
            (let publicKey := from_hex sender in
             txHash <- Transaction.calculateHash tx ;;
             let msgHash := from_hex txHash in
             let signatureBuffer := from_hex sg in
             let signature := firstn 64 signatureBuffer in
             ecdsaVerify signature msgHash publicKey)%result
            (fun _ => Ok false)
      end
  end.

(** [addTransaction(transaction)]: no amount test; an exception of
    [isValid] propagates. *)
Definition addTransaction (transaction : Transaction.t)
  : M Blockchain.t bool :=
  (when
     (negb (truthy (Transaction.fromAddress transaction))
      || negb (truthy (Transaction.toAddress transaction)))
     (throw MissingAddress) ;;
   valid <- lift (isValid transaction) ;;
   when
     (negb valid
      && negb (address_eqb (Transaction.fromAddress transaction) None))
     (throw InvalidSignature) ;;
   (if negb (address_eqb (Transaction.fromAddress transaction) None)
    then
      senderBalance <-
        gets
          (Blockchain.getBalanceOfAddress
             (Transaction.fromAddress transaction)) ;;
      when
        (senderBalance <? Transaction.amount transaction)
        (throw InsufficientBalance)
    else ret tt) ;;
   modify
     (fun bc =>
        Blockchain.set_pendingTransactions bc
          (Blockchain.pendingTransactions bc ++ [transaction])) ;;
   ret true)%method.

Definition isChainValid : Blockchain.t -> result bool :=
  Blockchain.isChainValid_with isValid.

(** [new Blockchain()] with difficulty 3. *)
Definition new (now : Z) : Blockchain.t :=
  Blockchain.mk [Blockchain.createGenesisBlock now] 3 [] 100.

(** [Wallet.generate] without the [try]. *)
Definition generate (draws : list bytes) : option (result Wallet.keypair) :=
  match Wallet.draw_key draws with
  | None => None
  | Some privateKey =>
      Some (Wallet.derive (to_hex privateKey) privateKey)
  end.

(** [Wallet.fromPrivateKey] without the length test: the library is
    handed the decoded buffer as it is, and [privateKeyVerify] itself
    throws on a buffer that is not 32 bytes long (only on 32-byte buffers
    does it answer true or false, which is all the class method is used
    for). *)
Definition fromPrivateKey (privateKeyHex : string)
  : result Wallet.keypair :=
  try_catch
    (let privateKey := from_hex privateKeyHex in
     if negb (Nat.eqb (List.length privateKey) 32) then Throw Native
     else if negb (privateKeyVerify privateKey) then Throw KeyInvalid
     else Wallet.derive privateKeyHex privateKey)
    (fun error => Throw (ImportFailed error)).

End WithSecp.

End V1.

(** ** The ledger's arithmetic on Numbers

    [getBalanceOfAddress] and [addTransaction] (second revision) once more,
    with the amounts as the binary64 values they are.  A transaction is
    seen through what these two methods use of it: the two address slots,
    the amount (a Number: anything else is refused by the [typeof] test of
    [addTransaction]) and what a call of its [isValid] method gives.  A
    block is seen through its [transactions] array. *)

Module Numeric.

Record transaction : Type := mkTransaction {
  fromAddress : option string;
  toAddress : option string;
  amount : Number.t;
  isValid : result bool
}.

Record t : Type := mk {
  chain : list (list transaction);
  pendingTransactions : list transaction
}.

(** Body of the inner loop of [getBalanceOfAddress]:
    [balance -= trans.amount], [balance += trans.amount]. *)
Definition balance_step (address : option string) (balance : Number.t)
           (trans : transaction) : Number.t :=
  let balance :=
    if address_eqb (fromAddress trans) address
    then Number.sub balance (amount trans) else balance in
  if address_eqb (toAddress trans) address
  then Number.add balance (amount trans) else balance.

Definition getBalanceOfAddress (address : option string) (bc : t) : Number.t :=
  fold_left
    (fun balance block => fold_left (balance_step address) block balance)
    (chain bc) Number.zero.

(** [addTransaction(transaction)]: the two comparisons are those of
    Numbers, both false when the amount is [NaN]. *)
Definition addTransaction (transaction : transaction) : M t bool :=
  (when (negb (truthy (fromAddress transaction))
         || negb (truthy (toAddress transaction)))
        (throw MissingAddress) ;;
   when (Number.leb (amount transaction) Number.zero) (throw InvalidAmount) ;;
   (if negb (address_eqb (fromAddress transaction) None)
    then
      valid <- lift (isValid transaction) ;;
      when (negb valid) (throw InvalidSignature) ;;
      senderBalance <- gets (getBalanceOfAddress (fromAddress transaction)) ;;
      when (Number.ltb senderBalance (amount transaction))
           (throw InsufficientBalance)
    else ret tt) ;;
   modify (fun bc => mk (chain bc) (pendingTransactions bc ++ [transaction])) ;;
   ret true)%method.

Section WithSecp.
Context {secp : Secp256k1}.

(** A transaction and a ledger of integer amounts, as these methods see
    them. *)
Definition of_transaction (tx : Transaction.t) : transaction :=
  mkTransaction (Transaction.fromAddress tx) (Transaction.toAddress tx)
                (Number.of_Z (Transaction.amount tx)) (Transaction.isValid tx).

Definition of_ledger (bc : Blockchain.t) : t :=
  mk (map (fun block => map of_transaction (Block.transactions block))
          (Blockchain.chain bc))
     (map of_transaction (Blockchain.pendingTransactions bc)).

End WithSecp.

End Numeric.

(** ** Quantities the properties are stated with *)

(** Number of leading ['0'] characters of a string. *)
Fixpoint leading_zeros (s : string) : nat :=
  match s with
  | String c rest =>
      if Ascii.eqb c "0"%char then S (leading_zeros rest) else O
  | EmptyString => O
  end.

(** All transactions of a chain, in block order. *)
Definition history (bc : Blockchain.t) : list Transaction.t :=
  flat_map Block.transactions (Blockchain.chain bc).

(** Sum of the amounts of the transactions selected by [p]. *)
Definition total (p : Transaction.t -> bool) (txs : list Transaction.t) : Z :=
  fold_right Z.add 0 (map Transaction.amount (filter p txs)).

Definition credits (address : option string) : list Transaction.t -> Z :=
  total (fun tx => address_eqb (Transaction.toAddress tx) address).

Definition debits (address : option string) : list Transaction.t -> Z :=
  total (fun tx => address_eqb (Transaction.fromAddress tx) address).

(** Sum of the absolute values of the amounts. *)
Definition volume (txs : list Transaction.t) : Z :=
  fold_right Z.add 0 (map (fun tx => Z.abs (Transaction.amount tx)) txs).

(** A coinbase transaction: the sender is [null]. *)
Definition is_coinbase (tx : Transaction.t) : bool :=
  address_eqb (Transaction.fromAddress tx) None.

(** The block [minePendingTransactions] builds before the search. *)
Definition candidate (now_tx now_block : Z) (rewardAddress : string)
           (bc : Blockchain.t) (latest : Block.t) : Block.t :=
  Block.new (Z.of_nat (List.length (Blockchain.chain bc))) now_block
    (Blockchain.pendingTransactions bc
     ++ [Transaction.new None (Some rewardAddress)
                         (Blockchain.miningReward bc) now_tx])
    (Block.hash latest).

(** Adjacent blocks are linked: [chain[i+1].previousHash = chain[i].hash]. *)
Definition linked (c : list Block.t) : Prop :=
  forall i b p,
    nth_error c (S i) = Some b -> nth_error c i = Some p ->
    Block.previousHash b = Block.hash p.

(** The stored hash of a block is the hash of its present content. *)
Definition hash_current (b : Block.t) : bool :=
  String.eqb (Block.hash b) (Block.calculateHash b).

Section SpecWithSecp.
Context {secp : Secp256k1}.

(** A block as the constructor left it. *)
Definition unsearched (b : Block.t) : Prop :=
  b = Block.new (Block.index b) (Block.timestamp b) (Block.transactions b)
                (Block.previousHash b).

(** What holds of every ledger after [n] mining calls. *)
Record invariant (n : nat) (bc : Blockchain.t) : Prop := {
  inv_reward : Blockchain.miningReward bc = 100;
  inv_genesis : Blockchain.chain bc <> [];
  inv_length : List.length (Blockchain.chain bc) = S n;
  inv_pending :
    Forall (fun tx => truthy (Transaction.fromAddress tx) = true /\
                      truthy (Transaction.toAddress tx) = true /\
                      0 < Transaction.amount tx /\
                      Transaction.isValid tx = Ok true)
           (Blockchain.pendingTransactions bc);
  inv_history :
    Forall (fun tx => Transaction.toAddress tx <> None /\
                      0 < Transaction.amount tx /\
                      Transaction.isValid tx = Ok true)
           (history bc);
  inv_coinbase : total is_coinbase (history bc) = Z.of_nat n * 100;
  inv_linked : linked (Blockchain.chain bc);
  inv_blocks :
    Forall (fun b => hash_current b = true \/ unsearched b)
           (tl (Blockchain.chain bc))
}.

(** A key pair returned by [Wallet.generate] (over 32-byte random draws) or
    by [Wallet.fromPrivateKey]. *)
Definition wallet_keypair (kp : Wallet.keypair) : Prop :=
  (exists draws,
      Forall (fun d => List.length d = 32%nat) draws /\
      Wallet.generate draws = Some (Ok kp)) \/
  (exists privateKeyHex, Wallet.fromPrivateKey privateKeyHex = Ok kp).

End SpecWithSecp.

(** ** A stand-in for the native library

    Used to run examples and to show that [ecdsa_sound] can be met; it is
    no signature scheme worth the name: the public key is the private key
    behind a 0x02 byte, and a signature is the key followed by the
    message. *)

Fixpoint bytes_eqb (a b : bytes) : bool :=
match a, b with
| [], [] => true
| x :: a', y :: b' => Byte.eqb x y && bytes_eqb a' b'
| _, _ => false
end.

#[local] Instance demo_secp : Secp256k1 := {
  privateKeyVerify sk := Nat.eqb (List.length sk) 32;
  publicKeyCreate sk :=
    if Nat.eqb (List.length sk) 32 then Ok (x02 :: sk) else Throw Native;
  ecdsaSign msg sk :=
    if Nat.eqb (List.length sk) 32 && Nat.eqb (List.length msg) 32
    then Ok (sk ++ msg, 0) else Throw Native;
  ecdsaRecover sig recid msg :=
    if Nat.eqb (List.length sig) 64 && Nat.eqb (List.length msg) 32
       && (0 <=? recid) && (recid <=? 3)
    then Ok (x02 :: firstn 32 sig) else Throw Native;
  ecdsaVerify sig msg pk :=
    if Nat.eqb (List.length sig) 64 && Nat.eqb (List.length msg) 32
       && Nat.eqb (List.length pk) 33
    then Ok (bytes_eqb sig (tl pk ++ msg)) else Throw Native
}.

(** The 32-byte key 01 01 ... 01 in hex, and the wallet it imports. *)
Definition demo_key : string := to_hex (repeat x01 32).

Definition demo_address : string := sha256_hex_bytes (x02 :: repeat x01 32).

(** ** Sample ledgers *)

(** The reward transaction and the block of the first mining call on the
    ledger created at 1700000000000, for miner "alice" at clock reading
    [now]. *)
Definition sample_genesis_hash : string :=
  "eac192ccc45b6a27350d8c66fa3db0b0a14e98d553b3a4946f7d9247027f893c".

Definition sample_block (now : Z) : Block.t :=
  Block.new 1 now [Transaction.new None (Some "alice") 100 now]
            sample_genesis_hash.

(** The ledger after one mining call at clock reading [now] (for both
    readings) with at most [fuel] nonce increments; the ledger itself when
    the search needs more. *)
Definition mined (fuel : nat) (now : Z) (rewardAddress : string)
           (bc : Blockchain.t) : Blockchain.t :=
  match Blockchain.minePendingTransactions fuel now now rewardAddress bc with
  | Some (_, bc') => bc'
  | None => bc
  end.

Definition sample_ledger : Blockchain.t :=
  mined 3 1700000000090 "alice" (Blockchain.new 1700000000000).

(** The ledger created at 1700000000000 and mined once, for "alice", at
    1700000000029: the hash the constructor stored for the new block
    already starts with "00", so the search accepts it without a step. *)
Definition stale_ledger : Blockchain.t :=
  mined 0 1700000000029 "alice" (Blockchain.new 1700000000000).

(** Two ledgers whose second blocks hold the same three transactions
    (a coinbase payment to "alice", 30 from "alice" to "bob", 5 from "bob"
    to "alice") in different orders. *)
Definition sample_txs : list Transaction.t :=
  [Transaction.new None (Some "alice") 100 1;
   Transaction.new (Some "alice") (Some "bob") 30 2;
   Transaction.new (Some "bob") (Some "alice") 5 3].

Definition ledger_of (txs : list Transaction.t) : Blockchain.t :=
  Blockchain.mk [Blockchain.createGenesisBlock 0; Block.new 1 4 txs "0"]
                2 [] 100.

(** Payments of [n] tenths from "bob" to "alice", three of them in a
    block, and the ledger made of an empty first block and a block of the
    given transactions. *)
Definition tenths (n : Z) : Numeric.transaction :=
  Numeric.mkTransaction (Some "bob") (Some "alice") (Number.quotient n 10)
                        (Ok true).

Definition fractional_txs : list Numeric.transaction :=
  [tenths 1; tenths 2; tenths 3].

Definition numeric_ledger_of (txs : list Numeric.transaction) : Numeric.t :=
  Numeric.mk [[]; txs] [].


(** A second key for the stand-in library, 02 02 ... 02, and its address. *)
Definition demo_key2 : string := to_hex (repeat x02 32).

Definition demo_address2 : string := sha256_hex_bytes (x02 :: repeat x02 32).

(** The ledger created at 1700000000000 and mined twice for the first demo
    address (three and four nonce steps). *)
Definition funded_ledger : Blockchain.t :=
  mined 4 1700000002058 demo_address
        (mined 3 1700000001029 demo_address (Blockchain.new 1700000000000)).

(** 50 from the first demo address to the second, created at 1700000002558
    and signed with the first demo key. *)
Definition demo_transfer : Transaction.t :=
  let tx := Transaction.new (Some demo_address) (Some demo_address2) 50
                            1700000002558 in
  match Transaction.signTransaction (Some demo_key) tx with
  | Ok signed => signed
  | Throw _ => tx
  end.

(** [funded_ledger] with [demo_transfer] queued, and then mined for the
    second demo address (three nonce steps). *)
Definition transfer_queued : Blockchain.t :=
  snd (Blockchain.addTransaction demo_transfer funded_ledger).

Definition transfer_mined : Blockchain.t :=
  mined 3 1700000003195 demo_address2 transfer_queued.

(** Sum of the balances of the address slots of a list. *)
Definition balance_sum (addresses : list (option string))
           (bc : Blockchain.t) : Z :=
  fold_right Z.add 0
    (map (fun a => Blockchain.getBalanceOfAddress a bc) addresses).

Section SpecStructure.
Context {secp : Secp256k1}.

(** What [addTransaction] lets through. *)
Definition admitted (tx : Transaction.t) : Prop :=
  truthy (Transaction.fromAddress tx) = true /\
  truthy (Transaction.toAddress tx) = true /\
  0 < Transaction.amount tx /\
  Transaction.isValid tx = Ok true.

(** The tests of [addTransaction] as a queued transaction went through
    them: both addresses present, [amount <= 0] false, [isValid] true. *)
Definition passed (tx : Transaction.t) : Prop :=
  truthy (Transaction.fromAddress tx) = true /\
  truthy (Transaction.toAddress tx) = true /\
  (Transaction.amount tx <=? 0) = false /\
  Transaction.isValid tx = Ok true.

(** A mined block holds admitted transactions followed by one coinbase
    transaction of 100. *)
Definition mined_contents (b : Block.t) : Prop :=
  exists txs rewardAddress now,
    Block.transactions b
    = txs ++ [Transaction.new None (Some rewardAddress) 100 now] /\
    Forall admitted txs.

(** Shape of a ledger built by the constructor and the two operations. *)
Record structure (bc : Blockchain.t) : Prop := {
  st_difficulty : Blockchain.difficulty bc = 2%nat;
  st_genesis :
    exists now rest,
      Blockchain.chain bc = Blockchain.createGenesisBlock now :: rest;
  st_index :
    forall i b, nth_error (Blockchain.chain bc) i = Some b ->
                Block.index b = Z.of_nat i;
  st_work :
    Forall (fun b => Block.meets 2 b = true) (tl (Blockchain.chain bc));
  st_contents : Forall mined_contents (tl (Blockchain.chain bc))
}.

End SpecStructure.

(** A chain with the block at position [i] overwritten. *)
Definition replace_block (i : nat) (b : Block.t) (c : list Block.t)
  : list Block.t :=
  firstn i c ++ b :: skipn (S i) c.

Definition set_previousHash (b : Block.t) (p : string) : Block.t :=
  Block.mk (Block.index b) (Block.timestamp b) (Block.transactions b) p
           (Block.hash b) (Block.nonce b).

(** The first mined block of [funded_ledger]. *)
Definition funded_block : Block.t :=
  nth 1 (Blockchain.chain funded_ledger) (Blockchain.createGenesisBlock 0).

(** What a mining call at clock reading [now] returns, a thrown native
    error standing in when the search needs more than [fuel] steps. *)
Definition mined_result (fuel : nat) (now : Z) (rewardAddress : string)
           (bc : Blockchain.t) : result Block.t :=
  match Blockchain.minePendingTransactions fuel now now rewardAddress bc with
  | Some (r, _) => r
  | None => Throw Native
  end.

(** The wallets the two demo keys import. *)
Definition demo_wallet : Wallet.keypair :=
  Wallet.mk demo_key (to_hex (x02 :: repeat x01 32)) demo_address.

Definition demo_wallet2 : Wallet.keypair :=
  Wallet.mk demo_key2 (to_hex (x02 :: repeat x02 32)) demo_address2.

(** * Properties *)

Unset Implicit Arguments.

(** ** SHA-256 test vectors and text conversions *)

Example sha256_abc :
  sha256_hex "abc"
  = "ba7816bf8f01cfea414140de5dae2223b00361a396177a9cb410ff61f20015ad".
Proof. vm_compute. reflexivity. Qed.

Example sha256_empty :
  sha256_hex ""
  = "e3b0c44298fc1c149afbf4c8996fb92427ae41e4649b934ca495991b7852b855".
Proof. vm_compute. reflexivity. Qed.

Example sha256_three_blocks :
  sha256_hex (string_of_list_ascii (repeat "a"%char 200))
  = "c2a908d98f5df987ade41b5fce213067efbcc21ef2240212a41e54b5e7c28ae5".
Proof. vm_compute. reflexivity. Qed.

Example Z_to_string_samples :
  (Z_to_string 0, Z_to_string 1700000000001, Z_to_string (-5))
  = ("0", "1700000000001", "-5").
Proof. vm_compute. reflexivity. Qed.

Lemma byte_hex_pair (b : byte) :
  hex_value (hex_digit (byte_to_Z b / 16)) = Some (byte_to_Z b / 16) /\
  hex_value (hex_digit (byte_to_Z b mod 16)) = Some (byte_to_Z b mod 16) /\
  Z_to_byte (16 * (byte_to_Z b / 16) + byte_to_Z b mod 16) = b.
Proof. destruct b; vm_compute; auto. Qed.

(** Decoding the hex text of a buffer gives the buffer back. *)
Lemma from_hex_to_hex (bs : bytes) : from_hex (to_hex bs) = bs.
Proof.
  induction bs as [|b rest IH]; [reflexivity|].
  destruct (byte_hex_pair b) as (Hh & Hl & Hb).
  cbn [to_hex from_hex]. rewrite Hh, Hl, Hb, IH. reflexivity.
Qed.

Lemma to_hex_nonempty (bs : bytes) :
  bs <> [] -> exists c s, to_hex bs = String c s.
Proof.
  destruct bs as [|b rest]; [congruence|]. intros _. cbn [to_hex]. eauto.
Qed.

Lemma digest_length (msg : bytes) : List.length (SHA256.digest msg) = 32%nat.
Proof. unfold SHA256.digest. rewrite length_map. reflexivity. Qed.

(** A digest read back from its hex text is 32 bytes long. *)
Lemma sha256_hex_decodes (s : string) :
  List.length (from_hex (sha256_hex s)) = 32%nat.
Proof.
  unfold sha256_hex, sha256_hex_bytes.
  rewrite from_hex_to_hex. apply digest_length.
Qed.

(** ** Block: construction and proof-of-work *)

Lemma Block_new_nonce index timestamp transactions previousHash :
  Block.nonce (Block.new index timestamp transactions previousHash) = NNum 0.
Proof. reflexivity. Qed.

(** The hash stored by the constructor is taken over the text that ends in
    "undefined"; [calculateHash] on the finished block hashes the text that
    ends in "0". *)
Lemma Block_new_hash index timestamp transactions previousHash :
  Block.hash (Block.new index timestamp transactions previousHash)
  = sha256_hex
      (Z_to_string (index + timestamp)
       ++ json_array (map Transaction.to_json transactions)
       ++ previousHash ++ "undefined")%string.
Proof. reflexivity. Qed.

Lemma Block_new_calculateHash index timestamp transactions previousHash :
  Block.calculateHash (Block.new index timestamp transactions previousHash)
  = sha256_hex
      (Z_to_string (index + timestamp)
       ++ json_array (map Transaction.to_json transactions)
       ++ previousHash ++ "0")%string.
Proof. reflexivity. Qed.

(** C8, evaluated on the genesis block created at clock reading
    1700000000000: the new block has nonce 0, but the hash it stores is not
    the hash of its content at nonce 0, so [block.hash] and
    [block.calculateHash()] differ right after construction. *)
Theorem Block_new_hash_not_recomputed :
  let block := Block.new 0 1700000000000 [] "0" in
  Block.nonce block = NNum 0 /\
  Block.hash block
  = "eac192ccc45b6a27350d8c66fa3db0b0a14e98d553b3a4946f7d9247027f893c" /\
  Block.calculateHash block
  = "834ddf41285e2f4f1e43b2864f5ceabf30510f78f7f0518b6f7e23b476d8b48a" /\
  Block.hash block <> Block.calculateHash block.
Proof.
  vm_compute. repeat split. discriminate.
Qed.

Lemma substring_zeros_leading (d : nat) (s : string) :
  substring 0 d s = Block.zeros d -> (d <= leading_zeros s)%nat.
Proof.
  revert s. induction d as [|d IH]; intros s H; [lia|].
  destruct s as [|c rest]; [discriminate H|].
  cbn in H. injection H as Hc Hrest. subst c.
  cbn [leading_zeros]. rewrite Ascii.eqb_refl.
  apply IH in Hrest. lia.
Qed.

Lemma mineBlock_meets fuel d b b' :
  Block.mineBlock fuel d b = Some b' -> Block.meets d b' = true.
Proof.
  revert b. induction fuel as [|fuel IH]; intros b; cbn [Block.mineBlock];
    destruct (Block.meets d b) eqn:Hm; intros H;
    try (injection H as <-; exact Hm); try discriminate.
  eapply IH; eauto.
Qed.

(** More fuel does not change the block a search has found. *)
Lemma mineBlock_more_fuel fuel fuel' d b b' :
  Block.mineBlock fuel d b = Some b' -> (fuel <= fuel')%nat ->
  Block.mineBlock fuel' d b = Some b'.
Proof.
  revert fuel' b. induction fuel as [|fuel IH]; intros fuel' b;
    cbn [Block.mineBlock]; destruct (Block.meets d b) eqn:Hm; intros H Hle;
    try discriminate.
  - destruct fuel'; cbn [Block.mineBlock]; rewrite Hm; exact H.
  - destruct fuel'; cbn [Block.mineBlock]; rewrite Hm; exact H.
  - destruct fuel' as [|fuel']; [lia|]. cbn [Block.mineBlock]. rewrite Hm.
    apply IH; [exact H | lia].
Qed.


(** The fields a search leaves alone. *)
Lemma mineBlock_fields fuel d b b' :
  Block.mineBlock fuel d b = Some b' ->
  Block.index b' = Block.index b /\
  Block.timestamp b' = Block.timestamp b /\
  Block.transactions b' = Block.transactions b /\
  Block.previousHash b' = Block.previousHash b.
Proof.
  revert b. induction fuel as [|fuel IH]; intros b; cbn [Block.mineBlock];
    destruct (Block.meets d b); intros H;
    try (injection H as <-; auto); try discriminate.
  apply IH in H. cbn in H. exact H.
Qed.

(** C7 as the code has it: with difficulty 0 [mineBlock] returns the block
    untouched, whatever the fuel (no nonce increment); and whenever
    [mineBlock d] terminates, the first [d] characters of the stored hash
    are all ['0'], that is the hash has at least [d] leading zeros. *)
Theorem mineBlock_leading_zeros :
  (forall fuel b, Block.mineBlock fuel 0 b = Some b) /\
  (forall fuel d b b',
      Block.mineBlock fuel d b = Some b' ->
      substring 0 d (Block.hash b') = Block.zeros d /\
      (d <= leading_zeros (Block.hash b'))%nat).
Proof.
  split.
  - intros fuel b.
    assert (Hm : Block.meets 0 b = true)
      by (unfold Block.meets; destruct (Block.hash b); reflexivity).
    destruct fuel; cbn [Block.mineBlock]; rewrite Hm; reflexivity.
  - intros fuel d b b' H. apply mineBlock_meets in H.
    unfold Block.meets in H. apply String.eqb_eq in H.
    split; [exact H | apply substring_zeros_leading; exact H].
Qed.

Lemma mineBlock_leading_zeros_witness :
  (2 <= leading_zeros
          (Block.hash (Nat.iter 3 Block.next_nonce
                                (sample_block 1700000000090))))%nat.
Proof.
  apply (proj2 mineBlock_leading_zeros 3%nat 2%nat
               (sample_block 1700000000090)).
  vm_compute. reflexivity.
Defined.

(** C7 as stated fails: the block built at 1700000000069 is mined at
    difficulty 2 after six nonce increments, and its hash has three
    leading zeros, not exactly two. *)
Lemma mineBlock_not_exactly_d :
  option_map (fun b => (Block.nonce b, Block.hash b,
                        leading_zeros (Block.hash b)))
             (Block.mineBlock 10 2 (sample_block 1700000000069))
  = Some (NNum 6,
          "0006fa8fd2e6c82e76a513cb5440a68b46683e27f8a8ac681fe0927c2e191431",
          3%nat).
Proof. vm_compute. reflexivity. Qed.

(** ** Blockchain: mining *)

Lemma getLatestBlock_last (c : list Block.t) (b : Block.t) d p m :
  Blockchain.getLatestBlock (Blockchain.mk (c ++ [b]) d p m) = Some b.
Proof.
  unfold Blockchain.getLatestBlock. cbn [Blockchain.chain].
  rewrite length_app, Nat.add_sub. cbn [List.length].
  rewrite nth_error_app2 by lia. rewrite Nat.sub_diag. reflexivity.
Qed.

Lemma getLatestBlock_some (bc : Blockchain.t) :
  Blockchain.chain bc <> [] ->
  exists latest, Blockchain.getLatestBlock bc = Some latest.
Proof.
  intros H. unfold Blockchain.getLatestBlock.
  destruct (nth_error (Blockchain.chain bc)
                      (List.length (Blockchain.chain bc) - 1)) eqn:E; [eauto|].
  apply nth_error_None in E. destruct (Blockchain.chain bc); [congruence|].
  cbn [List.length] in E. lia.
Qed.

(** On a ledger without any block the call throws after the reward
    transaction was queued. *)
Lemma minePendingTransactions_empty_chain fuel now_tx now_block rewardAddress
      bc :
  Blockchain.chain bc = [] ->
  Blockchain.minePendingTransactions fuel now_tx now_block rewardAddress bc
  = Some (Throw Native,
          Blockchain.set_pendingTransactions bc
            (Blockchain.pendingTransactions bc
             ++ [Transaction.new None (Some rewardAddress)
                   (Blockchain.miningReward bc) now_tx])).
Proof.
  intros H. unfold Blockchain.minePendingTransactions,
    Blockchain.getLatestBlock. cbn. rewrite H. reflexivity.
Qed.

Lemma minePendingTransactions_unfold fuel now_tx now_block rewardAddress bc
      latest :
  Blockchain.getLatestBlock bc = Some latest ->
  Blockchain.minePendingTransactions fuel now_tx now_block rewardAddress bc
  = match Block.mineBlock fuel (Blockchain.difficulty bc)
                          (candidate now_tx now_block rewardAddress bc latest)
    with
    | None => None
    | Some block =>
        Some (Ok block,
              Blockchain.mk (Blockchain.chain bc ++ [block])
                            (Blockchain.difficulty bc) []
                            (Blockchain.miningReward bc))
    end.
Proof.
  intros H. unfold Blockchain.minePendingTransactions.
  unfold Blockchain.getLatestBlock in *. cbn. rewrite H. reflexivity.
Qed.




(** ** Numbers: integers below 2^53 are exact *)

(** The literals 0.1, 0.2, 0.3 and 100, and the sum 0.1 + 0.2. *)
Example Number_literals :
  Number.quotient 1 10 = S754_finite false 7205759403792794 (-56) /\
  Number.quotient 2 10 = S754_finite false 7205759403792794 (-55) /\
  Number.quotient 3 10 = S754_finite false 5404319552844595 (-54) /\
  Number.of_Z 100 = S754_finite false 7036874417766400 (-46) /\
  Number.add (Number.quotient 1 10) (Number.quotient 2 10)
  = S754_finite false 5404319552844596 (-54).
Proof. repeat split; vm_compute; reflexivity. Qed.

(** 2^53 + 1 is not a Number: the literal denotes 2^53. *)
Example Number_of_Z_rounds : Number.of_Z (2 ^ 53 + 1) = Number.of_Z (2 ^ 53).
Proof. vm_compute. reflexivity. Qed.

(** Comparisons with [NaN] are false. *)
Example Number_NaN_comparisons :
  Number.leb Number.NaN Number.zero = false /\
  Number.ltb Number.zero Number.NaN = false /\
  Number.ltb (Number.of_Z 100) Number.NaN = false.
Proof. repeat split; reflexivity. Qed.

Lemma Pos_iter_shift_left p d : Pos.iter xO p d = shift_left (Pos.to_nat d) p.
Proof. apply Pos2Nat.inj_iter. Qed.

Lemma iter_pos_nat (A : Type) (f : A -> A) n :
  forall x, iter_pos f n x = Nat.iter (Pos.to_nat n) f x.
Proof.
  induction n as [n IH | n IH |]; intro x; cbn [iter_pos].
  - rewrite !IH, Pos2Nat.inj_xI.
    replace (S (2 * Pos.to_nat n))%nat
      with (Pos.to_nat n + (Pos.to_nat n + 1))%nat by lia.
    rewrite !Nat.iter_add. reflexivity.
  - rewrite !IH, Pos2Nat.inj_xO.
    replace (2 * Pos.to_nat n)%nat with (Pos.to_nat n + Pos.to_nat n)%nat by lia.
    rewrite Nat.iter_add. reflexivity.
  - reflexivity.
Qed.

Lemma shift_left_value k p : Zpos (shift_left k p) = Zpos p * 2 ^ Z.of_nat k.
Proof.
  induction k as [| k IH].
  - cbn. lia.
  - unfold shift_left in *. rewrite Nat.iter_succ.
    change (Zpos (Nat.iter k xO p)~0) with (2 * Zpos (Nat.iter k xO p)).
    rewrite IH, Nat2Z.inj_succ, Z.pow_succ_r by lia.
    ring.
Qed.

Lemma shift_left_digits k p :
  Zpos (digits2_pos (shift_left k p)) = Zpos (digits2_pos p) + Z.of_nat k.
Proof.
  induction k as [| k IH].
  - cbn. lia.
  - unfold shift_left in *. rewrite Nat.iter_succ. cbn [digits2_pos]. lia.
Qed.

Lemma shift_left_add j k p : shift_left j (shift_left k p) = shift_left (j + k) p.
Proof. unfold shift_left. rewrite Nat.iter_add. reflexivity. Qed.

Lemma digits2_pos_bounds p :
  2 ^ (Zpos (digits2_pos p) - 1) <= Zpos p < 2 ^ Zpos (digits2_pos p).
Proof.
  induction p as [p IH | p IH |]; cbn [digits2_pos].
  - rewrite Pos2Z.inj_succ, Pos2Z.inj_xI.
    replace (Z.succ (Zpos (digits2_pos p)) - 1)
      with (Z.succ (Zpos (digits2_pos p) - 1)) by lia.
    rewrite !Z.pow_succ_r by lia.
    set (A := 2 ^ (Zpos (digits2_pos p) - 1)) in *.
    set (B := 2 ^ Zpos (digits2_pos p)) in *.
    clearbody A B. lia.
  - rewrite Pos2Z.inj_succ. change (Zpos p~0) with (2 * Zpos p).
    replace (Z.succ (Zpos (digits2_pos p)) - 1)
      with (Z.succ (Zpos (digits2_pos p) - 1)) by lia.
    rewrite !Z.pow_succ_r by lia.
    set (A := 2 ^ (Zpos (digits2_pos p) - 1)) in *.
    set (B := 2 ^ Zpos (digits2_pos p)) in *.
    clearbody A B. lia.
  - cbn. lia.
Qed.

Lemma digits2_pos_le p n : 0 <= n -> Zpos p < 2 ^ n -> Zpos (digits2_pos p) <= n.
Proof.
  intros Hn Hp.
  destruct (Z.le_gt_cases (Zpos (digits2_pos p)) n) as [H | H];
    [exact H | exfalso].
  pose proof (digits2_pos_bounds p) as [Hlo _].
  assert (2 ^ n <= 2 ^ (Zpos (digits2_pos p) - 1))
    by (apply Z.pow_le_mono_r; lia).
  lia.
Qed.

Lemma shr_shifted n : forall k p, (n <= k)%nat ->
  Nat.iter n shr_1 (Build_shr_record (Zpos (shift_left k p)) false false) =
  Build_shr_record (Zpos (shift_left (k - n) p)) false false.
Proof.
  induction n as [| n IH]; intros k p Hn.
  - rewrite Nat.sub_0_r. reflexivity.
  - rewrite Nat.iter_succ, IH by lia.
    replace (k - n)%nat with (S (k - S n)) by lia.
    reflexivity.
Qed.

(** Rounding a number of at most 53 binary digits, written with any number
    of zero bits behind it, loses nothing. *)
Lemma binary_round_shifted s p k e :
  let d := Zpos (digits2_pos p) in
  d <= 53 -> -1074 <= e + d - 53 <= 971 ->
  binary_round Number.prec Number.emax s (shift_left k p) (e - Z.of_nat k) =
  S754_finite s (shift_left (Z.to_nat (53 - d)) p) (e + d - 53).
Proof.
  intros d Hd He.
  pose proof (shift_left_digits k p) as Hk. fold d in Hk.
  unfold binary_round.
  assert (Hf : fexp Number.prec Number.emax
                 (Zpos (digits2_pos (shift_left k p)) + (e - Z.of_nat k))
               = e + d - 53).
  { rewrite Hk. unfold fexp, emin, Number.prec, Number.emax. lia. }
  rewrite Hf.
  assert (Hdig : Zpos (digits2_pos (shift_left (Z.to_nat (53 - d)) p)) = 53).
  { rewrite shift_left_digits. fold d. lia. }
  assert (Hfinal : binary_round_aux Number.prec Number.emax s
                     (Zpos (shift_left (Z.to_nat (53 - d)) p)) (e + d - 53)
                     loc_Exact
                   = S754_finite s (shift_left (Z.to_nat (53 - d)) p)
                                 (e + d - 53)).
  { unfold binary_round_aux, shr_fexp. cbn [Zdigits2 shr_record_of_loc].
    rewrite Hdig.
    replace (fexp Number.prec Number.emax (53 + (e + d - 53)) - (e + d - 53))
      with 0 by (unfold fexp, emin, Number.prec, Number.emax; lia).
    cbn [shr shr_m loc_of_shr_record round_nearest_even Zdigits2
         shr_record_of_loc].
    rewrite Hdig.
    replace (fexp Number.prec Number.emax (53 + (e + d - 53)) - (e + d - 53))
      with 0 by (unfold fexp, emin, Number.prec, Number.emax; lia).
    cbn [shr shr_m].
    replace (e + d - 53 <=? Number.emax - Number.prec) with true;
      [reflexivity |].
    symmetry. apply Z.leb_le. unfold Number.prec, Number.emax. lia. }
  unfold shl_align.
  destruct (e + d - 53 - (e - Z.of_nat k)) as [| q | q] eqn:Hdiff.
  - (* already aligned *)
    replace (e - Z.of_nat k) with (e + d - 53) by lia.
    replace k with (Z.to_nat (53 - d)) by lia. exact Hfinal.
  - (* more zero bits than fit: they are shifted out again *)
    unfold binary_round_aux, shr_fexp. cbn [Zdigits2 shr_record_of_loc].
    rewrite Hk.
    replace (fexp Number.prec Number.emax
               (d + Z.of_nat k + (e - Z.of_nat k)) - (e - Z.of_nat k))
      with (Zpos q) by (unfold fexp, emin, Number.prec, Number.emax; lia).
    cbn [shr]. rewrite iter_pos_nat, shr_shifted by lia.
    cbn [shr_m loc_of_shr_record round_nearest_even].
    replace (k - Pos.to_nat q)%nat with (Z.to_nat (53 - d)) by lia.
    replace (e - Z.of_nat k + Zpos q) with (e + d - 53) by lia.
    cbn [Zdigits2 shr_record_of_loc]. rewrite Hdig.
    replace (fexp Number.prec Number.emax (53 + (e + d - 53)) - (e + d - 53))
      with 0 by (unfold fexp, emin, Number.prec, Number.emax; lia).
    cbn [shr shr_m].
    replace (e + d - 53 <=? Number.emax - Number.prec) with true;
      [reflexivity |].
    symmetry. apply Z.leb_le. unfold Number.prec, Number.emax. lia.
  - (* fewer: the mantissa is shifted left *)
    rewrite Pos_iter_shift_left, shift_left_add.
    replace (Pos.to_nat q + k)%nat with (Z.to_nat (53 - d)) by lia.
    exact Hfinal.
Qed.

Lemma binary_round_integer s p :
  Zpos p < 2 ^ 53 ->
  binary_round Number.prec Number.emax s p 0 =
  S754_finite s (shift_left (Z.to_nat (53 - Zpos (digits2_pos p))) p)
              (Zpos (digits2_pos p) - 53).
Proof.
  intro Hp. pose proof (digits2_pos_le p 53 ltac:(lia) Hp) as Hd.
  exact (binary_round_shifted s p 0 0 Hd ltac:(lia)).
Qed.

Lemma shl_align_fst m ex ex' :
  ex' <= ex -> fst (shl_align m ex ex') = shift_left (Z.to_nat (ex - ex')) m.
Proof.
  intro H. unfold shl_align. destruct (ex' - ex) as [| q | q] eqn:Hd; cbn [fst].
  - replace (ex - ex') with 0 by lia. reflexivity.
  - lia.
  - rewrite Pos_iter_shift_left. f_equal. lia.
Qed.

Lemma binary_normalize_scaled c K :
  Z.abs c < 2 ^ 53 ->
  binary_normalize Number.prec Number.emax (c * 2 ^ Z.of_nat K)
                   (- Z.of_nat K) false
  = Number.of_Z c.
Proof.
  intro Hc. unfold Number.of_Z.
  destruct c as [| p | p].
  - reflexivity.
  - replace (Zpos p * 2 ^ Z.of_nat K) with (Zpos (shift_left K p))
      by apply shift_left_value.
    cbn [binary_normalize].
    pose proof (digits2_pos_le p 53 ltac:(lia) ltac:(lia)) as Hd.
    rewrite binary_round_integer by lia.
    pose proof (binary_round_shifted false p K 0 Hd ltac:(lia)) as H.
    cbn zeta in H. rewrite Z.sub_0_l in H. rewrite H. f_equal.
  - replace (Zneg p * 2 ^ Z.of_nat K) with (Zneg (shift_left K p))
      by (rewrite <- !Pos2Z.opp_pos, shift_left_value; ring).
    cbn [binary_normalize].
    pose proof (digits2_pos_le p 53 ltac:(lia) ltac:(lia)) as Hd.
    rewrite binary_round_integer by lia.
    pose proof (binary_round_shifted true p K 0 Hd ltac:(lia)) as H.
    cbn zeta in H. rewrite Z.sub_0_l in H. rewrite H. f_equal.
Qed.

(** The Number a non-zero integer below 2^53 in absolute value is. *)
Lemma of_Z_finite z :
  z <> 0 -> Z.abs z < 2 ^ 53 ->
  let p := Z.to_pos (Z.abs z) in
  let d := Zpos (digits2_pos p) in
  d <= 53 /\
  Number.of_Z z
  = S754_finite (z <? 0) (shift_left (Z.to_nat (53 - d)) p) (d - 53).
Proof.
  intros Hz Hb p d. split.
  - apply digits2_pos_le; [lia |]. subst p. rewrite Z2Pos.id by lia. exact Hb.
  - unfold Number.of_Z. destruct z as [| q | q]; [congruence | |];
      cbn [binary_normalize];
      rewrite binary_round_integer by (cbn in Hb; lia); reflexivity.
Qed.

Lemma signed_mantissa z ez :
  z <> 0 -> Z.abs z < 2 ^ 53 ->
  let p := Z.to_pos (Z.abs z) in
  let d := Zpos (digits2_pos p) in
  ez <= d - 53 ->
  cond_Zopp (z <? 0)
    (Zpos (fst (shl_align (shift_left (Z.to_nat (53 - d)) p) (d - 53) ez)))
  = z * 2 ^ (- ez).
Proof.
  intros Hz Hb p d Hez.
  assert (Hd : d <= 53).
  { apply digits2_pos_le; [lia |]. subst p. rewrite Z2Pos.id by lia. exact Hb. }
  subst d. rewrite shl_align_fst, shift_left_add, shift_left_value by exact Hez.
  replace (Z.of_nat
             (Z.to_nat (Zpos (digits2_pos p) - 53 - ez)
              + Z.to_nat (53 - Zpos (digits2_pos p))))
    with (- ez) by lia.
  subst p. rewrite Z2Pos.id by lia.
  destruct (Z.ltb_spec z 0); cbn [cond_Zopp]; nia.
Qed.

(** [x + y] and [x - y] on integers are the integer sum and difference as
    long as operands and result stay below 2^53 in absolute value. *)
Lemma add_of_Z a b :
  Z.abs a < 2 ^ 53 -> Z.abs b < 2 ^ 53 -> Z.abs (a + b) < 2 ^ 53 ->
  Number.add (Number.of_Z a) (Number.of_Z b) = Number.of_Z (a + b).
Proof.
  intros Ha Hb Hab.
  destruct (Z.eq_dec a 0) as [-> | Hna].
  { rewrite Z.add_0_l. destruct (Z.eq_dec b 0) as [-> | Hnb]; [reflexivity |].
    destruct (of_Z_finite b Hnb Hb) as [_ ->]. reflexivity. }
  destruct (Z.eq_dec b 0) as [-> | Hnb].
  { rewrite Z.add_0_r. destruct (of_Z_finite a Hna Ha) as [_ ->]. reflexivity. }
  destruct (of_Z_finite a Hna Ha) as [Hda ->].
  destruct (of_Z_finite b Hnb Hb) as [Hdb ->].
  unfold Number.add, SFadd.
  set (ez := Z.min _ _).
  rewrite (signed_mantissa a ez Hna Ha), (signed_mantissa b ez Hnb Hb)
    by (subst ez; lia).
  rewrite <- Z.mul_add_distr_r.
  assert (Hez : ez = - Z.of_nat (Z.to_nat (- ez))) by (subst ez; lia).
  clearbody ez. rewrite Hez, Z.opp_involutive.
  apply binary_normalize_scaled. exact Hab.
Qed.

Lemma sub_of_Z a b :
  Z.abs a < 2 ^ 53 -> Z.abs b < 2 ^ 53 -> Z.abs (a - b) < 2 ^ 53 ->
  Number.sub (Number.of_Z a) (Number.of_Z b) = Number.of_Z (a - b).
Proof.
  intros Ha Hb Hab.
  destruct (Z.eq_dec b 0) as [-> | Hnb].
  { rewrite Z.sub_0_r. destruct (Z.eq_dec a 0) as [-> | Hna]; [reflexivity |].
    destruct (of_Z_finite a Hna Ha) as [_ ->]. reflexivity. }
  destruct (Z.eq_dec a 0) as [-> | Hna].
  { assert (Hm : - b <> 0) by lia.
    assert (Hmb : Z.abs (- b) < 2 ^ 53) by lia.
    destruct (of_Z_finite b Hnb Hb) as [_ ->].
    cbn [Z.sub Z.add]. destruct (of_Z_finite (- b) Hm Hmb) as [_ ->].
    rewrite Z.abs_opp. cbn [Number.of_Z binary_normalize Number.sub SFsub].
    f_equal. destruct (Z.ltb_spec b 0), (Z.ltb_spec (- b) 0);
      try reflexivity; lia. }
  destruct (of_Z_finite a Hna Ha) as [Hda ->].
  destruct (of_Z_finite b Hnb Hb) as [Hdb ->].
  unfold Number.sub, SFsub.
  set (ez := Z.min _ _).
  rewrite (signed_mantissa a ez Hna Ha), (signed_mantissa b ez Hnb Hb)
    by (subst ez; lia).
  rewrite <- Z.mul_sub_distr_r.
  assert (Hez : ez = - Z.of_nat (Z.to_nat (- ez))) by (subst ez; lia).
  clearbody ez. rewrite Hez, Z.opp_involutive.
  apply binary_normalize_scaled. exact Hab.
Qed.

Lemma compare_cont_shift_left k p q :
  Pos.compare_cont Eq (shift_left k p) (shift_left k q) = Pos.compare p q.
Proof.
  induction k as [| k IH]; [reflexivity|].
  unfold shift_left in *. rewrite !Nat.iter_succ. exact IH.
Qed.

Lemma digits2_pos_lt p q :
  Zpos (digits2_pos p) < Zpos (digits2_pos q) -> Zpos p < Zpos q.
Proof.
  intros H. pose proof (digits2_pos_bounds p) as [_ Hp].
  pose proof (digits2_pos_bounds q) as [Hq _].
  assert (2 ^ Zpos (digits2_pos p) <= 2 ^ (Zpos (digits2_pos q) - 1))
    by (apply Z.pow_le_mono_r; lia).
  lia.
Qed.

(** Order of two positive integers below 2^53, read off their Numbers. *)
Lemma compare_finite p q :
  let dp := Zpos (digits2_pos p) in
  let dq := Zpos (digits2_pos q) in
  match Z.compare (dp - 53) (dq - 53) with
  | Lt => Lt
  | Gt => Gt
  | Eq => Pos.compare_cont Eq (shift_left (Z.to_nat (53 - dp)) p)
                           (shift_left (Z.to_nat (53 - dq)) q)
  end = Pos.compare p q.
Proof.
  intros dp dq.
  destruct (Z.compare_spec (dp - 53) (dq - 53)) as [He | He | He].
  - replace dq with dp by lia. apply compare_cont_shift_left.
  - symmetry. apply Pos.compare_lt_iff.
    assert (Zpos p < Zpos q) by (apply digits2_pos_lt; subst dp dq; lia). lia.
  - symmetry. apply Pos.compare_gt_iff.
    assert (Zpos q < Zpos p) by (apply digits2_pos_lt; subst dp dq; lia). lia.
Qed.

(** [x <= 0] and [x < y] on integers below 2^53 in absolute value. *)
Lemma leb_of_Z_zero a :
  Z.abs a < 2 ^ 53 -> Number.leb (Number.of_Z a) Number.zero = (a <=? 0).
Proof.
  intros Ha. destruct (Z.eq_dec a 0) as [-> | Hn]; [reflexivity|].
  destruct (of_Z_finite a Hn Ha) as [_ ->].
  unfold Number.leb, Number.zero, SFleb, SFcompare.
  destruct (Z.ltb_spec a 0), (Z.leb_spec a 0); try reflexivity; lia.
Qed.

Lemma ltb_of_Z b a :
  Z.abs b < 2 ^ 53 -> Z.abs a < 2 ^ 53 ->
  Number.ltb (Number.of_Z b) (Number.of_Z a) = (b <? a).
Proof.
  intros Hb Ha.
  destruct (Z.eq_dec b 0) as [-> | Hnb].
  { destruct (Z.eq_dec a 0) as [-> | Hna]; [reflexivity|].
    destruct (of_Z_finite a Hna Ha) as [_ ->].
    unfold Number.ltb, Number.of_Z, SFltb, SFcompare. cbn [binary_normalize].
    destruct (Z.ltb_spec a 0), (Z.ltb_spec 0 a); try reflexivity; lia. }
  destruct (Z.eq_dec a 0) as [-> | Hna].
  { destruct (of_Z_finite b Hnb Hb) as [_ ->].
    unfold Number.ltb, Number.of_Z, SFltb, SFcompare. cbn [binary_normalize].
    destruct (Z.ltb_spec b 0); reflexivity. }
  destruct (of_Z_finite a Hna Ha) as [_ ->].
  destruct (of_Z_finite b Hnb Hb) as [_ ->].
  unfold Number.ltb, SFltb, SFcompare.
  pose proof (compare_finite (Z.to_pos (Z.abs b)) (Z.to_pos (Z.abs a))) as Hba.
  pose proof (compare_finite (Z.to_pos (Z.abs a)) (Z.to_pos (Z.abs b))) as Hab.
  cbn zeta in Hba, Hab.
  destruct (Z.ltb_spec b 0) as [Sb | Sb], (Z.ltb_spec a 0) as [Sa | Sa].
  - (* both negative *)
    match goal with
    | |- context [match ?c with Eq => CompOpp ?x | Lt => Gt | Gt => Lt end] =>
        replace (match c with Eq => CompOpp x | Lt => Gt | Gt => Lt end)
          with (CompOpp (match c with Eq => x | Lt => Lt | Gt => Gt end))
          by (destruct c; reflexivity)
    end.
    rewrite Hba.
    destruct (Pos.compare_spec (Z.to_pos (Z.abs b)) (Z.to_pos (Z.abs a)))
      as [E | E | E]; destruct (Z.ltb_spec b a); try reflexivity; lia.
  - destruct (Z.ltb_spec b a); [reflexivity | lia].
  - destruct (Z.ltb_spec b a); [lia | reflexivity].
  - rewrite Hba.
    destruct (Pos.compare_spec (Z.to_pos (Z.abs b)) (Z.to_pos (Z.abs a)))
      as [E | E | E]; destruct (Z.ltb_spec b a); try reflexivity; lia.
Qed.

(** ** Blockchain: balances *)

Lemma total_app p (l l' : list Transaction.t) :
  total p (l ++ l') = total p l + total p l'.
Proof.
  unfold total. rewrite filter_app, map_app.
  induction (map Transaction.amount (filter p l)) as [|x xs IH];
    cbn [fold_right app]; lia.
Qed.

Lemma total_cons p tx (l : list Transaction.t) :
  total p (tx :: l)
  = (if p tx then Transaction.amount tx else 0) + total p l.
Proof. unfold total. cbn [filter]. destruct (p tx); reflexivity. Qed.

Lemma total_Permutation p (l l' : list Transaction.t) :
  Permutation l l' -> total p l = total p l'.
Proof.
  induction 1 as [|x l l' _ IH|x y l|l l' l'' _ IH1 _ IH2].
  - reflexivity.
  - rewrite !total_cons, IH. reflexivity.
  - rewrite !total_cons. lia.
  - congruence.
Qed.

Lemma total_none p (l : list Transaction.t) :
  (forall tx, In tx l -> p tx = false) -> total p l = 0.
Proof.
  induction l as [|tx l IH]; intros H; [reflexivity|].
  rewrite total_cons, (H tx) by (left; reflexivity).
  rewrite IH; [reflexivity|]. intros tx' Hin. apply H. right. exact Hin.
Qed.

(** The inner loop, started at [balance]. *)
Lemma balance_inner address (txs : list Transaction.t) (balance : Z) :
  fold_left (Blockchain.balance_step address) txs balance
  = balance + credits address txs - debits address txs.
Proof.
  revert balance. induction txs as [|tx txs IH]; intros balance.
  - cbn. lia.
  - cbn [fold_left]. rewrite IH. unfold credits, debits.
    rewrite !total_cons. unfold Blockchain.balance_step.
    destruct (address_eqb (Transaction.fromAddress tx) address),
             (address_eqb (Transaction.toAddress tx) address); lia.
Qed.

(** The outer loop, started at [balance]. *)
Lemma balance_outer address (blocks : list Block.t) (balance : Z) :
  fold_left
    (fun balance block =>
       fold_left (Blockchain.balance_step address)
                 (Block.transactions block) balance)
    blocks balance
  = balance + credits address (flat_map Block.transactions blocks)
    - debits address (flat_map Block.transactions blocks).
Proof.
  revert balance. induction blocks as [|b blocks IH]; intros balance.
  - cbn. lia.
  - cbn [fold_left flat_map]. rewrite IH, balance_inner.
    unfold credits, debits. rewrite !total_app. lia.
Qed.

Lemma getBalanceOfAddress_history address bc :
  Blockchain.getBalanceOfAddress address bc
  = credits address (history bc) - debits address (history bc).
Proof.
  unfold Blockchain.getBalanceOfAddress, history. rewrite balance_outer. lia.
Qed.

Lemma history_Permutation (c1 c2 : list Block.t) :
  Forall2 (fun b1 b2 =>
             Permutation (Block.transactions b1) (Block.transactions b2))
          c1 c2 ->
  Permutation (flat_map Block.transactions c1)
              (flat_map Block.transactions c2).
Proof.
  induction 1 as [|b1 b2 c1 c2 Hb _ IH]; [constructor|].
  cbn [flat_map]. apply Permutation_app; assumption.
Qed.

(** *** The scan on Numbers *)

Lemma volume_cons tx (txs : list Transaction.t) :
  volume (tx :: txs) = Z.abs (Transaction.amount tx) + volume txs.
Proof. reflexivity. Qed.

Lemma volume_app (l l' : list Transaction.t) :
  volume (l ++ l') = volume l + volume l'.
Proof.
  induction l as [|tx l IH]; [reflexivity|].
  cbn [app]. rewrite !volume_cons, IH. lia.
Qed.

Lemma volume_nonneg (txs : list Transaction.t) : 0 <= volume txs.
Proof.
  induction txs as [|tx txs IH]; [cbn; lia|]. rewrite volume_cons. lia.
Qed.

Lemma volume_Permutation (l l' : list Transaction.t) :
  Permutation l l' -> volume l = volume l'.
Proof.
  induction 1 as [|x l l' _ IH|x y l|l l' l'' _ IH1 _ IH2].
  - reflexivity.
  - rewrite !volume_cons, IH. reflexivity.
  - rewrite !volume_cons. lia.
  - congruence.
Qed.

Lemma balance_step_bound address balance (tx : Transaction.t) :
  Z.abs (Blockchain.balance_step address balance tx)
  <= Z.abs balance + Z.abs (Transaction.amount tx).
Proof.
  unfold Blockchain.balance_step.
  destruct (address_eqb (Transaction.fromAddress tx) address),
           (address_eqb (Transaction.toAddress tx) address); lia.
Qed.

Section NumericBalances.
Context {secp : Secp256k1}.

(** One step of the scan on integers is exact. *)
Lemma numeric_balance_step address balance (tx : Transaction.t) :
  Z.abs balance + Z.abs (Transaction.amount tx) < 2 ^ 53 ->
  Numeric.balance_step address (Number.of_Z balance)
                       (Numeric.of_transaction tx)
  = Number.of_Z (Blockchain.balance_step address balance tx).
Proof.
  intros Hb.
  unfold Numeric.balance_step, Blockchain.balance_step, Numeric.of_transaction.
  cbn [Numeric.fromAddress Numeric.toAddress Numeric.amount].
  destruct (address_eqb (Transaction.fromAddress tx) address),
           (address_eqb (Transaction.toAddress tx) address);
    try reflexivity.
  - rewrite sub_of_Z, add_of_Z by lia. reflexivity.
  - apply sub_of_Z; lia.
  - apply add_of_Z; lia.
Qed.

Lemma numeric_balance_inner address (txs : list Transaction.t) :
  forall balance,
    Z.abs balance + volume txs < 2 ^ 53 ->
    fold_left (Numeric.balance_step address)
              (map Numeric.of_transaction txs) (Number.of_Z balance)
    = Number.of_Z (fold_left (Blockchain.balance_step address) txs balance).
Proof.
  induction txs as [|tx txs IH]; intros balance Hb; [reflexivity|].
  rewrite volume_cons in Hb. pose proof (volume_nonneg txs) as Hv.
  pose proof (balance_step_bound address balance tx) as Hs.
  cbn [map fold_left]. rewrite numeric_balance_step by lia.
  apply IH. lia.
Qed.

Lemma balance_inner_bound address (txs : list Transaction.t) :
  forall balance,
    Z.abs (fold_left (Blockchain.balance_step address) txs balance)
    <= Z.abs balance + volume txs.
Proof.
  induction txs as [|tx txs IH]; intros balance; [cbn; lia|].
  cbn [fold_left]. rewrite volume_cons.
  pose proof (balance_step_bound address balance tx) as Hs.
  specialize (IH (Blockchain.balance_step address balance tx)). lia.
Qed.

Lemma numeric_balance_outer address (blocks : list Block.t) :
  forall balance,
    Z.abs balance + volume (flat_map Block.transactions blocks) < 2 ^ 53 ->
    fold_left
      (fun balance block =>
         fold_left (Numeric.balance_step address) block balance)
      (map (fun block => map Numeric.of_transaction (Block.transactions block))
           blocks)
      (Number.of_Z balance)
    = Number.of_Z
        (fold_left
           (fun balance block =>
              fold_left (Blockchain.balance_step address)
                        (Block.transactions block) balance)
           blocks balance).
Proof.
  induction blocks as [|b blocks IH]; intros balance Hb; [reflexivity|].
  cbn [flat_map] in Hb. rewrite volume_app in Hb.
  pose proof (volume_nonneg (flat_map Block.transactions blocks)) as Hv.
  pose proof (balance_inner_bound address (Block.transactions b) balance) as Hs.
  cbn [map fold_left]. rewrite numeric_balance_inner by lia.
  apply IH. lia.
Qed.

Lemma balance_outer_bound address (blocks : list Block.t) :
  forall balance,
    Z.abs (fold_left
             (fun balance block =>
                fold_left (Blockchain.balance_step address)
                          (Block.transactions block) balance)
             blocks balance)
    <= Z.abs balance + volume (flat_map Block.transactions blocks).
Proof.
  induction blocks as [|b blocks IH]; intros balance; [cbn; lia|].
  cbn [fold_left flat_map]. rewrite volume_app.
  pose proof (balance_inner_bound address (Block.transactions b) balance) as Hs.
  specialize (IH (fold_left (Blockchain.balance_step address)
                            (Block.transactions b) balance)).
  lia.
Qed.

Lemma getBalanceOfAddress_bound address (bc : Blockchain.t) :
  Z.abs (Blockchain.getBalanceOfAddress address bc) <= volume (history bc).
Proof.
  unfold Blockchain.getBalanceOfAddress, history.
  pose proof (balance_outer_bound address (Blockchain.chain bc) 0). lia.
Qed.

(** On a ledger of integer amounts whose absolute values sum to less than
    2^53, the scan on Numbers returns the integer the scan on integers
    returns. *)
Lemma numeric_getBalanceOfAddress address (bc : Blockchain.t) :
  volume (history bc) < 2 ^ 53 ->
  Numeric.getBalanceOfAddress address (Numeric.of_ledger bc)
  = Number.of_Z (Blockchain.getBalanceOfAddress address bc).
Proof.
  intros Hv. unfold Numeric.getBalanceOfAddress, Numeric.of_ledger.
  cbn [Numeric.chain]. change Number.zero with (Number.of_Z 0).
  apply numeric_balance_outer. unfold history in Hv. cbn. exact Hv.
Qed.

(** Transactions that do not mention the address leave the balance alone,
    whatever their amounts. *)
Lemma numeric_balance_unmentioned address (txs : list Numeric.transaction) :
  (forall trans, In trans txs ->
                 address_eqb (Numeric.fromAddress trans) address = false /\
                 address_eqb (Numeric.toAddress trans) address = false) ->
  forall balance,
    fold_left (Numeric.balance_step address) txs balance = balance.
Proof.
  induction txs as [|trans txs IH]; intros H balance; [reflexivity|].
  cbn [fold_left]. unfold Numeric.balance_step at 2.
  destruct (H trans (or_introl eq_refl)) as [-> ->].
  apply IH. intros t Hin. apply H. right. exact Hin.
Qed.

(** C4.  On every chain whose amounts are integers with absolute values
    summing to less than 2^53, the balance of an address, computed on
    Numbers as the code does, is the sum of the amounts it receives minus
    the sum of the amounts it sends, over all transactions of all blocks,
    and two such chains whose blocks hold the same transactions in a
    different order give the same balance.  On every chain, whatever the
    amounts, a coinbase transaction never debits a queried address, it
    adds its amount when the address is its recipient, and an address
    that occurs in no transaction has balance 0. *)
Theorem getBalanceOfAddress_exact_on_integers :
  (forall address bc,
      volume (history bc) < 2 ^ 53 ->
      Numeric.getBalanceOfAddress address (Numeric.of_ledger bc)
      = Number.of_Z (credits address (history bc)
                     - debits address (history bc))) /\
  (forall (address : string) balance trans,
      Numeric.fromAddress trans = None ->
      Numeric.balance_step (Some address) balance trans
      = if address_eqb (Numeric.toAddress trans) (Some address)
        then Number.add balance (Numeric.amount trans) else balance) /\
  (forall address bc1 bc2,
      volume (history bc1) < 2 ^ 53 ->
      Forall2 (fun b1 b2 =>
                 Permutation (Block.transactions b1) (Block.transactions b2))
              (Blockchain.chain bc1) (Blockchain.chain bc2) ->
      Numeric.getBalanceOfAddress address (Numeric.of_ledger bc1)
      = Numeric.getBalanceOfAddress address (Numeric.of_ledger bc2)) /\
  (forall address nc,
      (forall trans,
          In trans (List.concat (Numeric.chain nc)) ->
          address_eqb (Numeric.fromAddress trans) address = false /\
          address_eqb (Numeric.toAddress trans) address = false) ->
      Numeric.getBalanceOfAddress address nc = Number.zero).
Proof.
  split; [|split; [|split]].
  - intros address bc Hv.
    rewrite numeric_getBalanceOfAddress, getBalanceOfAddress_history by exact Hv.
    reflexivity.
  - intros address balance trans Hc. unfold Numeric.balance_step.
    rewrite Hc. reflexivity.
  - intros address bc1 bc2 Hv H. apply history_Permutation in H.
    fold (history bc1) in H. fold (history bc2) in H.
    assert (Hv2 : volume (history bc2) < 2 ^ 53)
      by (rewrite <- (volume_Permutation _ _ H); exact Hv).
    rewrite !numeric_getBalanceOfAddress, !getBalanceOfAddress_history
      by assumption.
    unfold credits, debits.
    rewrite (total_Permutation _ _ _ H), (total_Permutation _ _ _ H).
    reflexivity.
  - intros address [chain pending] H. unfold Numeric.getBalanceOfAddress.
    cbn [Numeric.chain] in *. generalize Number.zero.
    induction chain as [|block chain IH]; intros balance; [reflexivity|].
    cbn [fold_left List.concat] in *.
    rewrite numeric_balance_unmentioned
      by (intros t Hin; apply H, in_or_app; left; exact Hin).
    apply IH. intros t Hin. apply H, in_or_app. right. exact Hin.
Qed.

End NumericBalances.

Lemma getBalanceOfAddress_exact_on_integers_witness :
  Numeric.getBalanceOfAddress (Some "alice")
    (@Numeric.of_ledger demo_secp (ledger_of sample_txs))
  = Number.of_Z 75 /\
  Numeric.getBalanceOfAddress (Some "alice")
    (@Numeric.of_ledger demo_secp (ledger_of sample_txs))
  = Numeric.getBalanceOfAddress (Some "alice")
      (@Numeric.of_ledger demo_secp (ledger_of (rev sample_txs))) /\
  Numeric.getBalanceOfAddress (Some "carol") (numeric_ledger_of fractional_txs)
  = Number.zero /\
  Numeric.balance_step (Some "alice") (Number.of_Z 7)
    (Numeric.mkTransaction None (Some "alice") (Number.of_Z 100) (Ok true))
  = Number.add (Number.of_Z 7) (Number.of_Z 100).
Proof.
  destruct (@getBalanceOfAddress_exact_on_integers demo_secp)
    as (H1 & H2 & H3 & H4).
  split; [|split; [|split]].
  - rewrite H1; [reflexivity | vm_compute; reflexivity].
  - apply H3; [vm_compute; reflexivity|].
    cbn. repeat constructor. apply Permutation_rev.
  - apply H4. cbn. intros trans [<-|[<-|[<-|[]]]]; split; reflexivity.
  - rewrite H2; reflexivity.
Defined.

(** With amounts that are not integers the order of the transactions in a
    block shows in the balance: 0.1, 0.2 and 0.3 received in this order
    add up to 0.6000000000000001, in the opposite order to 0.6. *)
Lemma getBalanceOfAddress_order_of_fractions :
  Permutation fractional_txs (rev fractional_txs) /\
  Numeric.getBalanceOfAddress (Some "alice") (numeric_ledger_of fractional_txs)
  = S754_finite false 5404319552844596 (-53) /\
  Numeric.getBalanceOfAddress (Some "alice")
    (numeric_ledger_of (rev fractional_txs))
  = S754_finite false 5404319552844595 (-53) /\
  Numeric.getBalanceOfAddress (Some "alice") (numeric_ledger_of fractional_txs)
  <> Numeric.getBalanceOfAddress (Some "alice")
       (numeric_ledger_of (rev fractional_txs)).
Proof.
  split; [apply Permutation_rev|].
  split; [vm_compute; reflexivity|].
  split; [vm_compute; reflexivity|].
  vm_compute. discriminate.
Qed.

(** ** Transaction validity and admission (second revision) *)

Lemma bytes_eqb_refl (a : bytes) : bytes_eqb a a = true.
Proof.
  induction a as [|x a IH]; [reflexivity|]. cbn [bytes_eqb].
  rewrite IH, andb_true_r. apply Byte.byte_dec_lb. reflexivity.
Qed.

Lemma firstn_length_app (A : Type) (l l' : list A) :
  firstn (List.length l) (l ++ l') = l.
Proof.
  induction l as [|x l IH]; [reflexivity|]. cbn. rewrite IH. reflexivity.
Qed.

Lemma demo_secp_sound : ecdsa_sound demo_secp.
Proof.
  intros sk pk msg Hsk Hpk Hmsg.
  cbn [privateKeyVerify publicKeyCreate demo_secp] in Hsk, Hpk.
  rewrite Hsk in Hpk. injection Hpk as <-.
  exists (sk ++ msg), 0.
  cbn [ecdsaSign ecdsaRecover ecdsaVerify demo_secp].
  rewrite Hsk. apply Nat.eqb_eq in Hsk.
  rewrite length_app, Hsk, Hmsg.
  cbn [List.length tl]. rewrite Hsk.
  replace (firstn 32 (sk ++ msg)) with sk
    by (rewrite <- Hsk; symmetry; apply firstn_length_app).
  rewrite bytes_eqb_refl. repeat split.
Qed.

Arguments sha256_hex_bytes : simpl never.
Arguments sha256_hex : simpl never.
Arguments from_hex : simpl never.
Arguments to_hex : simpl never.
Arguments String.eqb : simpl never.

Section Validity.
Context {secp : Secp256k1}.

(** With a sender, the hashed text is the sender followed by the printed
    recipient, amount and timestamp; [calculateHash] does not throw. *)
Lemma calculateHash_sender (tx : Transaction.t) (sender : string) :
  Transaction.fromAddress tx = Some sender ->
  Transaction.calculateHash tx
  = Ok (sha256_hex
          (((sender ++ js_to_string (js_of_address (Transaction.toAddress tx)))
            ++ Z_to_string (Transaction.amount tx))
           ++ Z_to_string (Transaction.timestamp tx))%string).
Proof.
  intros H. unfold Transaction.calculateHash. rewrite H.
  destruct (Transaction.toAddress tx); reflexivity.
Qed.

Lemma signature_absent_cases (s : Transaction.sigfield) :
  Transaction.signature_absent s = false <->
  exists c sg recovery, s = Transaction.SigObj (String c sg) recovery.
Proof.
  split.
  - destruct s as [|h|[|c sg] r]; try discriminate. eauto.
  - intros (c & sg & r & ->). reflexivity.
Qed.

(** When [isValid] answers true on a transaction with a sender. *)
Lemma isValid_true_iff (tx : Transaction.t) (sender : string) :
  Transaction.fromAddress tx = Some sender ->
  (Transaction.isValid tx = Ok true <->
   exists sg recovery txHash recoveredPubKey,
     Transaction.signature tx = Transaction.SigObj sg recovery /\
     sg <> ""%string /\
     Transaction.calculateHash tx = Ok txHash /\
     ecdsaRecover (from_hex sg) recovery (from_hex txHash)
     = Ok recoveredPubKey /\
     sha256_hex_bytes recoveredPubKey = sender /\
     ecdsaVerify (from_hex sg) (from_hex txHash) recoveredPubKey = Ok true).
Proof.
  intros Hs. unfold Transaction.isValid. rewrite Hs.
  rewrite (calculateHash_sender _ _ Hs).
  set (txHash := sha256_hex _).
  destruct (Transaction.signature tx) as [|h|[|c sg] r] eqn:Hsig; cbn.
  1-3: (split;
        [discriminate | intros (sg' & r' & h' & pk & E & Hne & _);
                        try discriminate E; injection E as <- <-;
                        congruence]).
  split.
  - intros H. exists (String c sg), r, txHash.
    destruct (ecdsaRecover _ r _) as [pk|e]; cbn in H; [|discriminate].
    destruct (String.eqb (sha256_hex_bytes pk) sender) eqn:Heq; cbn in H;
      [|discriminate].
    destruct (ecdsaVerify _ _ pk) as [v|e] eqn:Hv; cbn in H;
      [|discriminate].
    injection H as ->. exists pk. apply String.eqb_eq in Heq.
    repeat split; auto. discriminate.
  - intros (sg' & r' & h' & pk & E & _ & Hh & Hr & Ha & Hv).
    injection E as <- <-. injection Hh as <-.
    rewrite Hr. cbn. rewrite Ha, String.eqb_refl. cbn. rewrite Hv.
    reflexivity.
Qed.

(** [isValid] of the second revision never throws. *)
Lemma isValid_total (tx : Transaction.t) :
  exists b, Transaction.isValid tx = Ok b.
Proof.
  unfold Transaction.isValid, try_catch.
  destruct (Transaction.fromAddress tx); [|eauto].
  destruct (Transaction.signature_absent _); [eauto|].
  destruct (rbind _ _); eauto.
Qed.

(** C5.  For a transaction with a sender, [isValid] always returns a
    boolean (nothing propagates); it returns false when the signature is
    absent; and it returns true exactly when the public key recovered from
    (signature, recovery id, hash) hashes to the sender address and the
    signature verifies against that key and the hash.  A throwing recovery
    or verification therefore yields false. *)
Theorem isValid_fail_closed (tx : Transaction.t) (sender : string) :
  Transaction.fromAddress tx = Some sender ->
  (exists b, Transaction.isValid tx = Ok b) /\
  (Transaction.signature_absent (Transaction.signature tx) = true ->
   Transaction.isValid tx = Ok false) /\
  (Transaction.isValid tx = Ok true <->
   exists sg recovery txHash recoveredPubKey,
     Transaction.signature tx = Transaction.SigObj sg recovery /\
     sg <> ""%string /\
     Transaction.calculateHash tx = Ok txHash /\
     ecdsaRecover (from_hex sg) recovery (from_hex txHash)
     = Ok recoveredPubKey /\
     sha256_hex_bytes recoveredPubKey = sender /\
     ecdsaVerify (from_hex sg) (from_hex txHash) recoveredPubKey = Ok true) /\
  (forall sg recovery txHash e,
     Transaction.signature tx = Transaction.SigObj sg recovery ->
     Transaction.calculateHash tx = Ok txHash ->
     ecdsaRecover (from_hex sg) recovery (from_hex txHash) = Throw e \/
     (exists recoveredPubKey,
         ecdsaRecover (from_hex sg) recovery (from_hex txHash)
         = Ok recoveredPubKey /\
         ecdsaVerify (from_hex sg) (from_hex txHash) recoveredPubKey
         = Throw e) ->
     Transaction.isValid tx = Ok false).
Proof.
  intros Hs. split; [apply isValid_total|]. split; [|split].
  - intros Ha. unfold Transaction.isValid. rewrite Hs, Ha. reflexivity.
  - apply isValid_true_iff. exact Hs.
  - intros sg recovery txHash e Hsig Hh Hthrow.
    destruct (isValid_total tx) as [[|] Hb]; [|exact Hb]. exfalso.
    apply (isValid_true_iff tx sender Hs) in Hb.
    destruct Hb as (sg' & r' & h' & pk & E & _ & Hh' & Hr & _ & Hv).
    rewrite Hsig in E. injection E as <- <-.
    rewrite Hh in Hh'. injection Hh' as <-.
    destruct Hthrow as [Ht|(pk' & Hr' & Hv')]; [congruence|].
    rewrite Hr in Hr'. injection Hr' as <-. congruence.
Qed.

End Validity.

Lemma isValid_fail_closed_witness :
  Transaction.isValid (Transaction.new (Some "alice") (Some "bob") 5 7)
  = Ok false.
Proof.
  apply (@isValid_fail_closed demo_secp
           (Transaction.new (Some "alice") (Some "bob") 5 7) "alice"
           eq_refl).
  reflexivity.
Defined.

Section Admission.
Context {secp : Secp256k1}.

(** [addTransaction] as the sequence of its tests. *)
Lemma addTransaction_unfold (tx : Transaction.t) (bc : Blockchain.t) :
  Blockchain.addTransaction tx bc
  = if negb (truthy (Transaction.fromAddress tx))
       || negb (truthy (Transaction.toAddress tx))
    then (Throw MissingAddress, bc)
    else if Transaction.amount tx <=? 0 then (Throw InvalidAmount, bc)
    else if negb (address_eqb (Transaction.fromAddress tx) None)
    then
      match Transaction.isValid tx with
      | Throw e => (Throw e, bc)
      | Ok valid =>
          if negb valid then (Throw InvalidSignature, bc)
          else if Blockchain.getBalanceOfAddress
                    (Transaction.fromAddress tx) bc
                  <? Transaction.amount tx
          then (Throw InsufficientBalance, bc)
          else (Ok true,
                Blockchain.set_pendingTransactions bc
                  (Blockchain.pendingTransactions bc ++ [tx]))
      end
    else (Ok true,
          Blockchain.set_pendingTransactions bc
            (Blockchain.pendingTransactions bc ++ [tx])).
Proof.
  unfold Blockchain.addTransaction, bind, when, throw, ret, lift, gets, modify.
  destruct (negb (truthy (Transaction.fromAddress tx))
            || negb (truthy (Transaction.toAddress tx))); [reflexivity|].
  destruct (Transaction.amount tx <=? 0); [reflexivity|].
  destruct (negb (address_eqb (Transaction.fromAddress tx) None));
    [|reflexivity].
  destruct (Transaction.isValid tx) as [[|]|e]; cbn [negb]; try reflexivity.
  destruct (_ <? _); reflexivity.
Qed.

(** A rejected transaction leaves the ledger as it was. *)
Lemma addTransaction_failure (tx : Transaction.t) (bc bc' : Blockchain.t) e :
  Blockchain.addTransaction tx bc = (Throw e, bc') -> bc' = bc.
Proof.
  rewrite addTransaction_unfold.
  repeat match goal with
         | |- context [if ?c then _ else _] => destruct c
         | |- context [match ?r with Ok _ => _ | Throw _ => _ end] =>
             destruct r
         end; intros H; inversion H; reflexivity.
Qed.

(** What an admitted transaction has passed. *)
Lemma addTransaction_success (tx : Transaction.t) (bc bc' : Blockchain.t) v :
  Blockchain.addTransaction tx bc = (Ok v, bc') ->
  v = true /\
  bc' = Blockchain.set_pendingTransactions bc
          (Blockchain.pendingTransactions bc ++ [tx]) /\
  truthy (Transaction.fromAddress tx) = true /\
  truthy (Transaction.toAddress tx) = true /\
  0 < Transaction.amount tx /\
  Transaction.isValid tx = Ok true /\
  Transaction.amount tx
  <= Blockchain.getBalanceOfAddress (Transaction.fromAddress tx) bc.
Proof.
  rewrite addTransaction_unfold.
  destruct (truthy (Transaction.fromAddress tx)) eqn:Hf; [|discriminate].
  destruct (truthy (Transaction.toAddress tx)) eqn:Ht; [|discriminate].
  cbn [negb orb].
  destruct (Transaction.amount tx <=? 0) eqn:Ha; [discriminate|].
  apply Z.leb_gt in Ha.
  destruct (Transaction.fromAddress tx) as [sender|] eqn:Hs;
    [|discriminate Hf].
  cbn [address_eqb negb].
  destruct (Transaction.isValid tx) as [[|]|e]; cbn [negb]; try discriminate.
  destruct (_ <? _) eqn:Hb; [discriminate|]. apply Z.ltb_ge in Hb.
  intros H. injection H as <- <-. auto 10.
Qed.

(** C6 as the code has it: a transaction whose amount is not positive is
    rejected and the ledger (hence the pending queue) is unchanged; the
    error is InvalidAmount when sender and recipient are both present and
    MissingAddress when one of them is absent, since that test comes
    first. *)
Theorem addTransaction_rejects_nonpositive_amount
        (tx : Transaction.t) (bc : Blockchain.t) :
  Transaction.amount tx <= 0 ->
  Blockchain.addTransaction tx bc
  = (Throw (if truthy (Transaction.fromAddress tx)
               && truthy (Transaction.toAddress tx)
            then InvalidAmount else MissingAddress),
     bc).
Proof.
  intros Ha. rewrite addTransaction_unfold.
  destruct (truthy (Transaction.fromAddress tx)),
           (truthy (Transaction.toAddress tx)); cbn [negb orb andb];
    try reflexivity.
  apply Z.leb_le in Ha. rewrite Ha. reflexivity.
Qed.

(** C9.  A transaction whose sender is null is rejected with
    MissingAddress and the ledger is unchanged; every call that gets past
    the presence test has a sender other than null, so the
    [fromAddress !== null] test further down is never false when it is
    evaluated; no admitted transaction is a coinbase transaction.  The
    same holds for [addTransaction] of the first revision. *)
Theorem addTransaction_rejects_null_sender :
  (forall tx bc,
      Transaction.fromAddress tx = None ->
      Blockchain.addTransaction tx bc = (Throw MissingAddress, bc) /\
      V1.addTransaction tx bc = (Throw MissingAddress, bc)) /\
  (forall tx bc r bc',
      Blockchain.addTransaction tx bc = (r, bc') \/
      V1.addTransaction tx bc = (r, bc') ->
      r <> Throw MissingAddress ->
      address_eqb (Transaction.fromAddress tx) None = false) /\
  (forall tx bc v bc',
      Blockchain.addTransaction tx bc = (Ok v, bc') \/
      V1.addTransaction tx bc = (Ok v, bc') ->
      is_coinbase tx = false).
Proof.
  assert (Hpast : forall tx bc r bc',
             Blockchain.addTransaction tx bc = (r, bc') \/
             V1.addTransaction tx bc = (r, bc') ->
             r <> Throw MissingAddress ->
             address_eqb (Transaction.fromAddress tx) None = false).
  { intros tx bc r bc' H Hr.
    destruct (Transaction.fromAddress tx) as [sender|] eqn:Hs;
      [reflexivity|].
    exfalso. apply Hr. destruct H as [H|H].
    - rewrite addTransaction_unfold, Hs in H. cbn in H. congruence.
    - unfold V1.addTransaction, bind, when, throw in H. rewrite Hs in H.
      cbn in H. congruence. }
  split; [|split].
  - intros tx bc Hs. split.
    + rewrite addTransaction_unfold, Hs. reflexivity.
    + unfold V1.addTransaction, bind, when, throw. rewrite Hs. reflexivity.
  - exact Hpast.
  - intros tx bc v bc' H. unfold is_coinbase.
    apply (Hpast tx bc (Ok v) bc' H). discriminate.
Qed.

End Admission.

Lemma addTransaction_rejects_nonpositive_amount_witness :
  Blockchain.addTransaction
    (Transaction.new (Some "alice") (Some "bob") (-5) 7) sample_ledger
  = (Throw InvalidAmount, sample_ledger).
Proof.
  apply (@addTransaction_rejects_nonpositive_amount demo_secp
           (Transaction.new (Some "alice") (Some "bob") (-5) 7)
           sample_ledger).
  cbn. lia.
Defined.

(** C6 as stated fails: with amount -5 and no sender the call fails with
    MissingAddress, not InvalidAmount. *)
Lemma addTransaction_nonpositive_amount_missing_address :
  let tx := Transaction.new None (Some "bob") (-5) 7 in
  Transaction.amount tx <= 0 /\
  Blockchain.addTransaction tx sample_ledger
  = (Throw MissingAddress, sample_ledger) /\
  fst (Blockchain.addTransaction tx sample_ledger) <> Throw InvalidAmount.
Proof.
  cbn zeta. split; [cbn; lia|].
  split; [reflexivity | discriminate].
Qed.

Lemma addTransaction_rejects_null_sender_witness :
  Blockchain.addTransaction
    (Transaction.new None (Some "bob") 5 7) sample_ledger
  = (Throw MissingAddress, sample_ledger) /\
  is_coinbase (Transaction.new (Some "alice") (Some "bob") 0 7) = false.
Proof.
  destruct (@addTransaction_rejects_null_sender demo_secp) as (H1 & H2 & _).
  split.
  - apply H1. reflexivity.
  - apply (H2 (Transaction.new (Some "alice") (Some "bob") 0 7)
              sample_ledger (Throw InvalidAmount) sample_ledger).
    + left. reflexivity.
    + discriminate.
Defined.

(** ** Reachable ledgers *)

Lemma history_set_pending bc p :
  history (Blockchain.set_pendingTransactions bc p) = history bc.
Proof. reflexivity. Qed.

Lemma history_snoc c b d p m :
  history (Blockchain.mk (c ++ [b]) d p m)
  = flat_map Block.transactions c ++ Block.transactions b.
Proof.
  unfold history. cbn [Blockchain.chain]. rewrite flat_map_app. cbn.
  rewrite app_nil_r. reflexivity.
Qed.

Lemma linked_snoc (c : list Block.t) (latest b : Block.t) :
  linked c ->
  nth_error c (List.length c - 1) = Some latest ->
  Block.previousHash b = Block.hash latest ->
  linked (c ++ [b]).
Proof.
  intros Hl Hlast Hb i x p Hx Hp.
  assert (Hi : (S i < List.length (c ++ [b]))%nat)
    by (apply nth_error_Some; congruence).
  rewrite length_app in Hi. cbn in Hi.
  destruct (Nat.eq_dec (S i) (List.length c)) as [E|E].
  - rewrite nth_error_app2 in Hx by lia. rewrite E, Nat.sub_diag in Hx.
    injection Hx as <-.
    rewrite nth_error_app1 in Hp by lia.
    replace (List.length c - 1)%nat with i in Hlast by lia. congruence.
  - rewrite nth_error_app1 in Hx by lia. rewrite nth_error_app1 in Hp by lia.
    eapply Hl; eauto.
Qed.

(** A search that made at least one step leaves the hash of the content;
    a search that made none leaves the block as constructed. *)
Lemma mineBlock_hash fuel d b b' :
  Block.mineBlock fuel d b = Some b' ->
  b' = b \/ hash_current b' = true.
Proof.
  revert b. induction fuel as [|fuel IH]; intros b; cbn [Block.mineBlock];
    destruct (Block.meets d b); intros H; try discriminate;
    try (injection H as <-; left; reflexivity).
  right. destruct fuel as [|fuel'].
  - cbn [Block.mineBlock] in H.
    destruct (Block.meets d (Block.next_nonce b)); [|discriminate].
    injection H as <-. unfold hash_current. cbn. apply String.eqb_refl.
  - destruct (IH _ H) as [->|Hc]; [|exact Hc].
    unfold hash_current. cbn. apply String.eqb_refl.
Qed.

Section Reachability.
Context {secp : Secp256k1}.

Lemma truthy_not_null (a : option string) : truthy a = true -> a <> None.
Proof. destruct a; [discriminate|discriminate]. Qed.

Lemma total_admitted (txs : list Transaction.t) :
  Forall (fun tx => truthy (Transaction.fromAddress tx) = true /\
                    truthy (Transaction.toAddress tx) = true /\
                    0 < Transaction.amount tx /\
                    Transaction.isValid tx = Ok true) txs ->
  total is_coinbase txs = 0.
Proof.
  intros H. apply total_none. intros tx Hin.
  rewrite Forall_forall in H. destruct (H tx Hin) as (Hf & _).
  unfold is_coinbase. destruct (Transaction.fromAddress tx);
    [reflexivity|discriminate Hf].
Qed.

Lemma invariant_new now : invariant 0 (Blockchain.new now).
Proof.
  constructor; cbn; try reflexivity; try constructor; try discriminate.
  intros [|i] b p Hb Hp; cbn in Hb; [|destruct i]; discriminate.
Qed.

Lemma invariant_add n bc tx r bc' :
  invariant n bc -> Blockchain.addTransaction tx bc = (r, bc') ->
  invariant n bc'.
Proof.
  intros Hinv H. destruct r as [v|e].
  - apply addTransaction_success in H.
    destruct H as (_ & -> & Hf & Ht & Ha & Hv & _).
    destruct Hinv. constructor; cbn; auto.
    apply Forall_app. split; [assumption|]. repeat constructor; assumption.
  - apply addTransaction_failure in H. subst bc'. exact Hinv.
Qed.

Lemma invariant_mine n bc fuel now_tx now_block rewardAddress r bc' :
  invariant n bc ->
  Blockchain.minePendingTransactions fuel now_tx now_block rewardAddress bc
  = Some (r, bc') ->
  invariant (S n) bc'.
Proof.
  intros Hinv H. destruct Hinv.
  destruct (getLatestBlock_some _ inv_genesis0) as [latest Hl].
  rewrite (minePendingTransactions_unfold _ _ _ _ _ _ Hl) in H.
  destruct (Block.mineBlock _ _ _) as [block|] eqn:Hm; [|discriminate].
  injection H as <- <-.
  pose proof (mineBlock_hash _ _ _ _ Hm) as Hh.
  apply mineBlock_fields in Hm. destruct Hm as (_ & _ & Htx & Hprev).
  cbn in Htx, Hprev.
  constructor; cbn [Blockchain.miningReward Blockchain.chain
                    Blockchain.pendingTransactions]; auto.
  - intros E. apply app_eq_nil in E. destruct E; discriminate.
  - rewrite length_app. cbn. lia.
  - rewrite history_snoc, Htx. apply Forall_app. split; [exact inv_history0|].
    apply Forall_app. split.
    + eapply Forall_impl; [|exact inv_pending0].
      intros tx (Hf & Ht & Ha & Hv). split; [|split]; auto.
      apply truthy_not_null. exact Ht.
    + constructor; [|constructor]. cbn. rewrite inv_reward0.
      split; [discriminate|]. split; [lia|reflexivity].
  - rewrite history_snoc, Htx, !total_app.
    change (flat_map Block.transactions (Blockchain.chain bc))
      with (history bc). rewrite inv_coinbase0.
    rewrite (total_admitted _ inv_pending0), inv_reward0.
    unfold total. cbn. lia.
  - eapply linked_snoc; eauto.
  - destruct (Blockchain.chain bc) as [|g rest]; [congruence|].
    cbn [tl app] in *. apply Forall_app. split; [exact inv_blocks0|].
    constructor; [|constructor].
    destruct Hh as [->|Hh]; [right; reflexivity | left; exact Hh].
Qed.

Lemma reachable_invariant n bc : Blockchain.reachable n bc -> invariant n bc.
Proof.
  induction 1 as [now|n bc tx r bc' _ IH H|n bc fuel t1 t2 a r bc' _ IH H].
  - apply invariant_new.
  - eapply invariant_add; eauto.
  - eapply invariant_mine; eauto.
Qed.


End Reachability.



(** Called with a string, the method taking any argument is
    [minePendingTransactions]. *)
Lemma minePendingTransactions_any_address fuel now_tx now_block rewardAddress
      bc :
  Blockchain.minePendingTransactions_any fuel now_tx now_block
    (Some rewardAddress) bc
  = Blockchain.minePendingTransactions fuel now_tx now_block rewardAddress bc.
Proof. reflexivity. Qed.


(** ** Chain validity *)

Section ChainValidity.
Context {secp : Secp256k1}.

Lemma transactions_valid_all (txs : list Transaction.t) :
  Forall (fun tx => Transaction.isValid tx = Ok true) txs ->
  Blockchain.transactions_valid Transaction.isValid txs = Ok true.
Proof.
  induction 1 as [|tx txs Hv _ IH]; [reflexivity|].
  cbn [Blockchain.transactions_valid]. rewrite Hv. cbn. exact IH.
Qed.

Lemma linked_tail (p b : Block.t) (rest : list Block.t) :
  linked (p :: b :: rest) ->
  Block.previousHash b = Block.hash p /\ linked (b :: rest).
Proof.
  intros H. split.
  - apply (H 0%nat b p); reflexivity.
  - intros i x y Hx Hy. apply (H (S i) x y); assumption.
Qed.

(** On a linked chain of valid transactions the validity loop only
    depends on the stored hashes. *)
Lemma blocks_valid_linked (previousBlock : Block.t) (rest : list Block.t) :
  linked (previousBlock :: rest) ->
  Forall (fun tx => Transaction.isValid tx = Ok true)
         (flat_map Block.transactions rest) ->
  Blockchain.blocks_valid Transaction.isValid previousBlock rest
  = Ok (forallb hash_current rest).
Proof.
  revert previousBlock.
  induction rest as [|b rest IH]; intros p Hl Hv; [reflexivity|].
  cbn [flat_map] in Hv. apply Forall_app in Hv. destruct Hv as [Hb Hrest].
  apply linked_tail in Hl. destruct Hl as [Hp Hl].
  cbn [Blockchain.blocks_valid forallb]. fold (hash_current b).
  destruct (hash_current b); [|reflexivity].
  rewrite Hp, String.eqb_refl. cbn [negb andb].
  rewrite (transactions_valid_all _ Hb). cbn. apply IH; assumption.
Qed.

(** On a reachable ledger consecutive blocks are linked, and
    [isChainValid] answers whether every block after the genesis block
    stores the hash of its content. *)
Lemma reachable_isChainValid n bc :
  Blockchain.reachable n bc ->
  linked (Blockchain.chain bc) /\
  Blockchain.isChainValid bc
  = Ok (forallb hash_current (tl (Blockchain.chain bc))).
Proof.
  intros H. apply reachable_invariant in H. destruct H.
  split; [assumption|].
  unfold Blockchain.isChainValid, Blockchain.isChainValid_with.
  unfold history in inv_history0.
  destruct (Blockchain.chain bc) as [|g rest]; [congruence|].
  cbn [tl]. apply blocks_valid_linked; [assumption|].
  cbn [flat_map] in inv_history0. apply Forall_app in inv_history0.
  eapply Forall_impl; [|apply inv_history0]. cbn. tauto.
Qed.

(** Unless the search accepted some block without a single step,
    [isChainValid] answers true. *)
Lemma reachable_valid_when_searched n bc :
  Blockchain.reachable n bc ->
  (forall b, In b (tl (Blockchain.chain bc)) -> Block.nonce b <> NNum 0) ->
  Blockchain.isChainValid bc = Ok true.
Proof.
  intros H Hn. destruct (reachable_isChainValid n bc H) as [_ ->].
  apply reachable_invariant in H. destruct H as [_ _ _ _ _ _ _ Hb].
  f_equal. apply forallb_forall. intros b Hin.
  rewrite Forall_forall in Hb. destruct (Hb b Hin) as [Hc|Hu]; [exact Hc|].
  exfalso. apply (Hn b Hin). rewrite Hu. reflexivity.
Qed.

(** C2, evaluated on [stale_ledger]: the ledger is reached by one mining
    call on a fresh blockchain, its block 1 is linked to the genesis block,
    but the block's stored hash is not the hash of its content, and
    [isChainValid] answers false. *)
Theorem isChainValid_false_after_mining :
  Blockchain.reachable 1 stale_ledger /\
  Blockchain.isChainValid stale_ledger = Ok false /\
  exists genesis block,
    Blockchain.chain stale_ledger = [genesis; block] /\
    Block.previousHash block = Block.hash genesis /\
    Block.nonce block = NNum 0 /\
    Block.hash block
    = "0015d399a863dc03ff13dd9cba26c9b715f989e67475b76863357dc4bbe9a46e" /\
    Block.calculateHash block
    = "e811f6f19cd8c7ee1317eafe8dd4e18097104468ac781dcb637406916e48e5ef".
Proof.
  assert (Hr : Blockchain.reachable 1 stale_ledger).
  { refine (@Blockchain.reach_mine secp 0 (Blockchain.new 1700000000000)
              0 1700000000029 1700000000029 "alice" _ _
              (Blockchain.reach_new 1700000000000) _).
    vm_compute. reflexivity. }
  split; [exact Hr|]. split.
  - destruct (reachable_isChainValid _ _ Hr) as [_ ->].
    vm_compute. reflexivity.
  - eexists. eexists. split; [vm_compute; reflexivity|].
    vm_compute. repeat split.
Qed.

End ChainValidity.

(** ** Signing and verifying *)

Section SignVerify.
Context {secp : Secp256k1}.
Hypothesis sound : ecdsa_sound secp.

Lemma from_hex_nonempty (s : string) :
  from_hex s <> [] -> truthy (Some s) = true.
Proof. destruct s; [intros H; exfalso; apply H|]; reflexivity. Qed.

Lemma length_32_nonempty (A : Type) (l : list A) :
  List.length l = 32%nat -> l <> [].
Proof. destruct l; [discriminate|discriminate]. Qed.

Lemma length_32_nonempty_64 (l : bytes) : List.length l = 64%nat -> l <> [].
Proof. destruct l; [discriminate|discriminate]. Qed.

(** Signing with a key that decodes to a valid 32-byte private key, for
    the sender address derived from its public key, succeeds and the
    signed transaction is valid. *)
Lemma sign_then_verify_key (keyHex : string) (publicKey : bytes)
      (toAddress : option string) (amount now : Z) :
  List.length (from_hex keyHex) = 32%nat ->
  privateKeyVerify (from_hex keyHex) = true ->
  publicKeyCreate (from_hex keyHex) = Ok publicKey ->
  exists signed,
    Transaction.signTransaction (Some keyHex)
      (Transaction.new (Some (sha256_hex_bytes publicKey)) toAddress amount now)
    = Ok signed /\
    Transaction.isValid signed = Ok true.
Proof.
  intros Hlen Hver Hpub.
  set (tx := Transaction.new _ toAddress amount now).
  pose proof (calculateHash_sender tx _ eq_refl) as Hh.
  set (txHash := sha256_hex _) in Hh.
  destruct (sound _ _ (from_hex txHash) Hver Hpub (sha256_hex_decodes _))
    as (sig & recid & Hsign & Hsig & Hrec & Hverify).
  exists (Transaction.set_signature tx (Transaction.SigObj (to_hex sig) recid)).
  split.
  - unfold Transaction.signTransaction.
    rewrite (from_hex_nonempty _ (length_32_nonempty _ _ Hlen)).
    cbn [negb]. rewrite Hlen, Hver, Hh. cbn. rewrite Hsign. reflexivity.
  - apply (isValid_true_iff
             (Transaction.set_signature tx
                (Transaction.SigObj (to_hex sig) recid))
             (sha256_hex_bytes publicKey) eq_refl).
    exists (to_hex sig), recid, txHash, publicKey.
    rewrite from_hex_to_hex. repeat split; auto.
    destruct (to_hex_nonempty sig (length_32_nonempty_64 sig Hsig))
      as (c & s & ->). discriminate.
Qed.

Lemma draw_key_some (draws : list bytes) (sk : bytes) :
  Wallet.draw_key draws = Some sk ->
  In sk draws /\ privateKeyVerify sk = true.
Proof.
  induction draws as [|d draws IH]; [discriminate|].
  cbn [Wallet.draw_key]. destruct (privateKeyVerify d) eqn:Hd.
  - intros H. injection H as <-. split; [left; reflexivity | exact Hd].
  - intros H. destruct (IH H). split; [right|]; assumption.
Qed.

Lemma derive_ok (privateKeyHex : string) (sk : bytes) (kp : Wallet.keypair) :
  Wallet.derive privateKeyHex sk = Ok kp ->
  exists pk,
    publicKeyCreate sk = Ok pk /\
    kp = Wallet.mk privateKeyHex (to_hex pk) (sha256_hex_bytes pk).
Proof.
  unfold Wallet.derive. destruct (publicKeyCreate sk) as [pk|e];
    [|discriminate].
  cbn. intros H. injection H as <-. eauto.
Qed.

(** The private key of a wallet key pair decodes to a valid 32-byte key
    whose public key hashes to the wallet address. *)
Lemma wallet_keypair_key (kp : Wallet.keypair) :
  wallet_keypair kp ->
  exists pk,
    List.length (from_hex (Wallet.privateKey kp)) = 32%nat /\
    privateKeyVerify (from_hex (Wallet.privateKey kp)) = true /\
    publicKeyCreate (from_hex (Wallet.privateKey kp)) = Ok pk /\
    Wallet.address kp = sha256_hex_bytes pk.
Proof.
  intros [(draws & Hlen & Hgen)|(hex & Himp)].
  - unfold Wallet.generate in Hgen.
    destruct (Wallet.draw_key draws) as [sk|] eqn:Hd; [|discriminate].
    apply draw_key_some in Hd. destruct Hd as [Hin Hver].
    rewrite Forall_forall in Hlen. specialize (Hlen sk Hin).
    injection Hgen as Hgen. unfold try_catch in Hgen.
    destruct (Wallet.derive (to_hex sk) sk) as [kp'|e] eqn:Hder;
      [|discriminate].
    injection Hgen as ->. apply derive_ok in Hder.
    destruct Hder as (pk & Hpk & ->). exists pk. cbn.
    rewrite from_hex_to_hex. auto.
  - unfold Wallet.fromPrivateKey, try_catch in Himp.
    destruct (Nat.eqb (List.length (from_hex hex)) 32) eqn:Hlen;
      cbn [negb] in Himp; [|discriminate].
    destruct (privateKeyVerify (from_hex hex)) eqn:Hver;
      cbn [negb] in Himp; [|discriminate].
    destruct (Wallet.derive hex (from_hex hex)) as [kp'|e] eqn:Hder;
      [|discriminate].
    injection Himp as ->. apply derive_ok in Hder.
    destruct Hder as (pk & Hpk & ->). exists pk. cbn.
    apply Nat.eqb_eq in Hlen. auto.
Qed.

(** C1.  Provided the library signs soundly, for every key pair returned by
    [Wallet.generate] or [Wallet.fromPrivateKey], every recipient and every
    amount, the transaction from the wallet address, signed with the
    wallet's private key, is signed without error and [isValid] returns
    true on it. *)
Theorem sign_then_verify (kp : Wallet.keypair) (toAddress : option string)
        (amount now : Z) :
  wallet_keypair kp ->
  exists signed,
    Transaction.signTransaction (Some (Wallet.privateKey kp))
      (Transaction.new (Some (Wallet.address kp)) toAddress amount now)
    = Ok signed /\
    Transaction.isValid signed = Ok true.
Proof.
  intros Hkp. destruct (wallet_keypair_key kp Hkp)
    as (pk & Hlen & Hver & Hpub & ->).
  apply sign_then_verify_key; assumption.
Qed.

End SignVerify.

Lemma sign_then_verify_witness :
  exists signed,
    Transaction.signTransaction (Some demo_key)
      (Transaction.new (Some demo_address) (Some "bob") 5 7)
    = Ok signed /\
    Transaction.isValid signed = Ok true.
Proof.
  apply (@sign_then_verify demo_secp demo_secp_sound
           (Wallet.mk demo_key (to_hex (x02 :: repeat x01 32)) demo_address)
           (Some "bob") 5 7).
  right. exists demo_key. vm_compute. reflexivity.
Defined.

(** ** The first revision *)

Section FirstRevision.
Context {secp : Secp256k1}.

(** Without a signature [isValid] of the first revision throws. *)
Lemma V1_isValid_throws_without_signature (tx : Transaction.t) sender :
  Transaction.fromAddress tx = Some sender ->
  Transaction.signature tx = Transaction.SigNull ->
  V1.isValid tx = Throw NoSignature.
Proof. intros Hs Hsig. unfold V1.isValid. rewrite Hs, Hsig. reflexivity. Qed.

(** The only exception of the first revision's [isValid]. *)
Lemma V1_isValid_throw (tx : Transaction.t) e :
  V1.isValid tx = Throw e -> e = NoSignature.
Proof.
  unfold V1.isValid, try_catch.
  destruct (Transaction.fromAddress tx); [|discriminate].
  destruct (Transaction.signature tx) as [|[|c sg]|sg r]; try congruence.
  destruct (rbind _ _); discriminate.
Qed.

(** [addTransaction] of the first revision has no amount test. *)
Lemma V1_addTransaction_no_amount_test tx bc r bc' :
  V1.addTransaction tx bc = (r, bc') -> r <> Throw InvalidAmount.
Proof.
  unfold V1.addTransaction, bind, when, throw, ret, lift, gets, modify.
  destruct (negb (truthy (Transaction.fromAddress tx))
            || negb (truthy (Transaction.toAddress tx)));
    [intros H; inversion H; discriminate|].
  destruct (V1.isValid tx) as [valid|e] eqn:Hv.
  - destruct (negb valid
              && negb (address_eqb (Transaction.fromAddress tx) None));
      [intros H; inversion H; discriminate|].
    destruct (negb (address_eqb (Transaction.fromAddress tx) None));
      [destruct (_ <? _)|]; intros H; inversion H; discriminate.
  - apply V1_isValid_throw in Hv. subst e.
    intros H; inversion H; discriminate.
Qed.

(** The first revision verifies against the 32 bytes of the sender
    address; a library that only takes 33-byte or 65-byte public keys
    throws there, and [isValid] answers false however the transaction was
    signed. *)
Lemma V1_isValid_false_for_addresses (tx : Transaction.t) (pk : bytes) :
  (forall sig msg key,
      List.length key <> 33%nat -> List.length key <> 65%nat ->
      exists e, ecdsaVerify sig msg key = Throw e) ->
  Transaction.fromAddress tx = Some (sha256_hex_bytes pk) ->
  Transaction.signature tx <> Transaction.SigNull ->
  Transaction.signature tx <> Transaction.SigHex "" ->
  V1.isValid tx = Ok false.
Proof.
  intros Hlib Hs Hn He. unfold V1.isValid. rewrite Hs.
  destruct (Transaction.signature tx) as [|[|c sg]|sg r]; try congruence.
  rewrite (calculateHash_sender tx _ Hs). cbn.
  change (from_hex (sha256_hex_bytes pk))
    with (from_hex (to_hex (SHA256.digest pk))).
  rewrite from_hex_to_hex.
  match goal with
  | |- context [ecdsaVerify ?sig ?msg ?key] =>
      destruct (Hlib sig msg key) as [e ->];
        try (rewrite digest_length; discriminate)
  end.
  reflexivity.
Qed.

End FirstRevision.

(** With the stand-in library: a transaction signed by the first
    revision's [signTransaction] is not valid for the first revision's
    [isValid]. *)
Example V1_sign_then_verify_fails :
  match V1.signTransaction (Some demo_key)
          (Transaction.new (Some demo_address) (Some "bob") 5 7) with
  | Ok signed => V1.isValid signed
  | Throw e => Throw e
  end = Ok false.
Proof. vm_compute. reflexivity. Qed.

(** * Further properties of the code *)

(** ** Wallet *)

Lemma to_hex_length (bs : bytes) :
  String.length (to_hex bs) = (2 * List.length bs)%nat.
Proof.
  induction bs as [|b rest IH]; [reflexivity|].
  change (to_hex (b :: rest))
    with (String (hex_digit (byte_to_Z b / 16))
            (String (hex_digit (byte_to_Z b mod 16)) (to_hex rest))).
  cbn [String.length List.length]. rewrite IH. lia.
Qed.

Lemma sha256_hex_bytes_length (data : bytes) :
  String.length (sha256_hex_bytes data) = 64%nat.
Proof.
  unfold sha256_hex_bytes. rewrite to_hex_length, digest_length. reflexivity.
Qed.

Lemma sha256_hex_length (s : string) : String.length (sha256_hex s) = 64%nat.
Proof. apply sha256_hex_bytes_length. Qed.

Section WalletFacts.
Context {secp : Secp256k1}.

(** Importing the private key of a generated wallet gives the generated
    key pair back: same private key text, public key and address. *)
Theorem fromPrivateKey_generate (draws : list bytes) (kp : Wallet.keypair) :
  Forall (fun d => List.length d = 32%nat) draws ->
  Wallet.generate draws = Some (Ok kp) ->
  Wallet.fromPrivateKey (Wallet.privateKey kp) = Ok kp.
Proof.
  intros Hlen Hgen. unfold Wallet.generate in Hgen.
  destruct (Wallet.draw_key draws) as [sk|] eqn:Hd; [|discriminate].
  apply draw_key_some in Hd. destruct Hd as [Hin Hver].
  rewrite Forall_forall in Hlen. specialize (Hlen sk Hin).
  injection Hgen as Hgen. unfold try_catch in Hgen.
  destruct (Wallet.derive (to_hex sk) sk) as [kp'|e] eqn:Hder;
    [|discriminate].
  injection Hgen as ->. pose proof Hder as Hder'. apply derive_ok in Hder'.
  destruct Hder' as (pk & Hpk & ->).
  unfold Wallet.fromPrivateKey. cbn [Wallet.privateKey].
  rewrite from_hex_to_hex, Hlen, Hver. cbn [Nat.eqb negb].
  rewrite Hder. reflexivity.
Qed.

(** [fromPrivateKey]: a text that does not decode to 32 bytes is refused
    with the key-length error and a 32-byte key the library rejects with
    the invalid-key error, both wrapped by the import error, as is every
    other failure; a returned key pair keeps the text as given, and its
    public key and address are those the library derives from a valid
    32-byte key, the address being 64 hexadecimal characters. *)
Theorem fromPrivateKey_outcome (privateKeyHex : string) :
  (List.length (from_hex privateKeyHex) <> 32%nat ->
   Wallet.fromPrivateKey privateKeyHex = Throw (ImportFailed KeyLength)) /\
  (List.length (from_hex privateKeyHex) = 32%nat ->
   privateKeyVerify (from_hex privateKeyHex) = false ->
   Wallet.fromPrivateKey privateKeyHex = Throw (ImportFailed KeyInvalid)) /\
  (forall e, Wallet.fromPrivateKey privateKeyHex = Throw e ->
             exists cause, e = ImportFailed cause) /\
  (forall kp,
      Wallet.fromPrivateKey privateKeyHex = Ok kp ->
      List.length (from_hex privateKeyHex) = 32%nat /\
      privateKeyVerify (from_hex privateKeyHex) = true /\
      Wallet.privateKey kp = privateKeyHex /\
      String.length (Wallet.address kp) = 64%nat /\
      exists pk,
        publicKeyCreate (from_hex privateKeyHex) = Ok pk /\
        Wallet.publicKey kp = to_hex pk /\
        Wallet.address kp = sha256_hex_bytes pk).
Proof.
  unfold Wallet.fromPrivateKey, try_catch.
  destruct (Nat.eqb (List.length (from_hex privateKeyHex)) 32) eqn:Hlen;
    cbn [negb].
  - apply Nat.eqb_eq in Hlen.
    destruct (privateKeyVerify (from_hex privateKeyHex)) eqn:Hver; cbn [negb].
    + destruct (Wallet.derive privateKeyHex (from_hex privateKeyHex))
        as [kp'|e'] eqn:Hder.
      * apply derive_ok in Hder. destruct Hder as (pk & Hpk & ->).
        split; [congruence|]. split; [congruence|]. split; [congruence|].
        intros kp H. injection H as <-. cbn.
        split; [assumption|]. split; [reflexivity|]. split; [reflexivity|].
        split; [apply sha256_hex_bytes_length|]. eauto.
      * split; [congruence|]. split; [congruence|]. split; [|congruence].
        intros e H. injection H as <-. eauto.
    + split; [congruence|]. split; [reflexivity|]. split; [|congruence].
      intros e H. injection H as <-. eauto.
  - apply Nat.eqb_neq in Hlen.
    split; [reflexivity|]. split; [congruence|]. split; [|congruence].
    intros e H. injection H as <-. eauto.
Qed.

End WalletFacts.

Lemma fromPrivateKey_generate_witness :
  Wallet.fromPrivateKey demo_key
  = Ok (Wallet.mk demo_key (to_hex (x02 :: repeat x01 32)) demo_address).
Proof.
  apply (@fromPrivateKey_generate demo_secp
           [repeat x01 32]
           (Wallet.mk demo_key (to_hex (x02 :: repeat x01 32)) demo_address)).
  - repeat constructor.
  - vm_compute. reflexivity.
Defined.

Lemma fromPrivateKey_outcome_witness :
  Wallet.fromPrivateKey "abcd" = Throw (ImportFailed KeyLength).
Proof.
  apply (proj1 (@fromPrivateKey_outcome demo_secp "abcd")).
  vm_compute. discriminate.
Defined.

(** ** Signing *)

Lemma string_app_assoc (a b c : string) :
  ((a ++ b) ++ c)%string = (a ++ (b ++ c))%string.
Proof.
  induction a as [|x a IH]; [reflexivity|]. cbn. rewrite IH. reflexivity.
Qed.

Section SigningFacts.
Context {secp : Secp256k1}.

(** [signTransaction]: without a key (null or the empty string) it throws
    the missing-key error, not wrapped; a key that does not decode to 32
    bytes and a key the library rejects make it throw the key-length and
    invalid-key errors wrapped by the signing error, as every other failure
    after the first test is; and when it succeeds it has only replaced the
    signature slot, by the hex text of the library's signature over the
    transaction hash and its recovery id, so that the transaction hash is
    the same before and after. *)
Theorem signTransaction_outcome (signingKey : option string)
        (tx : Transaction.t) :
  (truthy signingKey = false ->
   Transaction.signTransaction signingKey tx = Throw MissingKey) /\
  (forall key,
      signingKey = Some key -> truthy signingKey = true ->
      List.length (from_hex key) <> 32%nat ->
      Transaction.signTransaction signingKey tx
      = Throw (SigningFailed KeyLength)) /\
  (forall key,
      signingKey = Some key ->
      List.length (from_hex key) = 32%nat ->
      privateKeyVerify (from_hex key) = false ->
      Transaction.signTransaction signingKey tx
      = Throw (SigningFailed KeyInvalid)) /\
  (forall e,
      Transaction.signTransaction signingKey tx = Throw e ->
      e = MissingKey \/ exists cause, e = SigningFailed cause) /\
  (forall signed,
      Transaction.signTransaction signingKey tx = Ok signed ->
      Transaction.fromAddress signed = Transaction.fromAddress tx /\
      Transaction.toAddress signed = Transaction.toAddress tx /\
      Transaction.amount signed = Transaction.amount tx /\
      Transaction.timestamp signed = Transaction.timestamp tx /\
      Transaction.calculateHash signed = Transaction.calculateHash tx /\
      exists key txHash sig recid,
        signingKey = Some key /\
        List.length (from_hex key) = 32%nat /\
        privateKeyVerify (from_hex key) = true /\
        Transaction.calculateHash tx = Ok txHash /\
        ecdsaSign (from_hex txHash) (from_hex key) = Ok (sig, recid) /\
        Transaction.signature signed
        = Transaction.SigObj (to_hex sig) recid).
Proof.
  unfold Transaction.signTransaction.
  destruct (truthy signingKey) eqn:Htr; cbn [negb].
  2:{ split; [reflexivity|]. split; [discriminate|].
      split; [intros key ->; cbn in Htr; destruct key; cbn;
              [discriminate | discriminate Htr]|].
      split; [intros e H; injection H as <-; auto | discriminate]. }
  destruct signingKey as [key|]; [|discriminate Htr].
  unfold try_catch.
  destruct (Nat.eqb (List.length (from_hex key)) 32) eqn:Hlen; cbn [negb].
  2:{ apply Nat.eqb_neq in Hlen.
      split; [discriminate|]. split; [intros k Hk; injection Hk as <-; auto|].
      split; [intros k Hk; injection Hk as <-; congruence|].
      split; [intros e H; injection H as <-; eauto | discriminate]. }
  apply Nat.eqb_eq in Hlen.
  destruct (privateKeyVerify (from_hex key)) eqn:Hver; cbn [negb].
  2:{ split; [discriminate|].
      split; [intros k Hk; injection Hk as <-; congruence|].
      split; [intros k Hk; injection Hk as <-; auto|].
      split; [intros e H; injection H as <-; eauto | discriminate]. }
  split; [discriminate|].
  split; [intros k Hk; injection Hk as <-; congruence|].
  split; [intros k Hk; injection Hk as <-; congruence|].
  destruct (Transaction.calculateHash tx) as [txHash|e0] eqn:Hh; cbn.
  2:{ split; [intros e H; injection H as <-; eauto | discriminate]. }
  destruct (ecdsaSign (from_hex txHash) (from_hex key)) as [[sig recid]|e0]
    eqn:Hsign; cbn.
  2:{ split; [intros e H; injection H as <-; eauto | discriminate]. }
  split; [discriminate|].
  intros signed H. injection H as <-. cbn.
  repeat (split; [reflexivity|]).
  split; [exact Hh|].
  exists key, txHash, sig, recid. auto 10.
Qed.

(** The signed text is the plain concatenation of sender, recipient,
    amount and timestamp, so [isValid] cannot tell apart two transactions
    of one sender and recipient that carry the same signature and whose
    amount and timestamp print to the same digits when put side by side. *)
Theorem isValid_blind_to_digit_shift (sender : string)
        (toAddress : option string) (amount timestamp amount' timestamp' : Z)
        (signature : Transaction.sigfield) :
  (Z_to_string amount ++ Z_to_string timestamp)%string
  = (Z_to_string amount' ++ Z_to_string timestamp')%string ->
  Transaction.isValid
    (Transaction.mk (Some sender) toAddress amount timestamp signature)
  = Transaction.isValid
      (Transaction.mk (Some sender) toAddress amount' timestamp' signature).
Proof.
  intros Htext.
  assert (Hh : Transaction.calculateHash
                 (Transaction.mk (Some sender) toAddress amount timestamp
                                 signature)
               = Transaction.calculateHash
                   (Transaction.mk (Some sender) toAddress amount' timestamp'
                                   signature)).
  { rewrite (calculateHash_sender
               (Transaction.mk (Some sender) toAddress amount timestamp
                               signature) sender eq_refl).
    rewrite (calculateHash_sender
               (Transaction.mk (Some sender) toAddress amount' timestamp'
                               signature) sender eq_refl).
    cbn [Transaction.toAddress Transaction.amount Transaction.timestamp].
    rewrite !string_app_assoc, Htext. reflexivity. }
  unfold Transaction.isValid. cbn [Transaction.fromAddress
                                    Transaction.signature].
  rewrite Hh. reflexivity.
Qed.

End SigningFacts.

Lemma signTransaction_outcome_witness :
  Transaction.signTransaction (Some "abcd")
    (Transaction.new (Some demo_address) (Some "bob") 5 7)
  = Throw (SigningFailed KeyLength).
Proof.
  apply (proj1 (proj2 (@signTransaction_outcome demo_secp (Some "abcd")
                         (Transaction.new (Some demo_address) (Some "bob")
                                          5 7))) "abcd").
  - reflexivity.
  - reflexivity.
  - vm_compute. discriminate.
Defined.

(** The transaction of 5 signed at 1700000000000 and the transaction of 51
    at 700000000000 with the same signature are both valid. *)
Lemma isValid_blind_to_digit_shift_witness :
  match Transaction.signTransaction (Some demo_key)
          (Transaction.new (Some demo_address) (Some "bob") 5 1700000000000)
  with
  | Ok signed =>
      Transaction.isValid signed = Ok true /\
      Transaction.isValid
        (Transaction.mk (Some demo_address) (Some "bob") 51 700000000000
                        (Transaction.signature signed))
      = Ok true
  | Throw _ => False
  end.
Proof.
  destruct (Transaction.signTransaction (Some demo_key)
              (Transaction.new (Some demo_address) (Some "bob") 5
                               1700000000000)) as [signed|e] eqn:Hs.
  - assert (Hf : signed
                 = Transaction.mk (Some demo_address) (Some "bob") 5
                     1700000000000 (Transaction.signature signed)).
    { vm_compute in Hs. injection Hs as <-. reflexivity. }
    assert (Hv : Transaction.isValid signed = Ok true).
    { vm_compute in Hs. injection Hs as <-. vm_compute. reflexivity. }
    split; [exact Hv|]. rewrite <- Hv. rewrite Hf at 2.
    symmetry.
    apply (@isValid_blind_to_digit_shift demo_secp demo_address (Some "bob")
             5 1700000000000 51 700000000000).
    vm_compute. reflexivity.
  - vm_compute in Hs. discriminate Hs.
Defined.

(** ** Admission *)

Section AdmissionFacts.
Context {secp : Secp256k1}.

Lemma numeric_addTransaction_unfold (tx : Numeric.transaction)
      (bc : Numeric.t) :
  Numeric.addTransaction tx bc
  = if negb (truthy (Numeric.fromAddress tx))
       || negb (truthy (Numeric.toAddress tx))
    then (Throw MissingAddress, bc)
    else if Number.leb (Numeric.amount tx) Number.zero
    then (Throw InvalidAmount, bc)
    else if negb (address_eqb (Numeric.fromAddress tx) None)
    then
      match Numeric.isValid tx with
      | Throw e => (Throw e, bc)
      | Ok valid =>
          if negb valid then (Throw InvalidSignature, bc)
          else if Number.ltb
                    (Numeric.getBalanceOfAddress (Numeric.fromAddress tx) bc)
                    (Numeric.amount tx)
          then (Throw InsufficientBalance, bc)
          else (Ok true,
                Numeric.mk (Numeric.chain bc)
                           (Numeric.pendingTransactions bc ++ [tx]))
      end
    else (Ok true,
          Numeric.mk (Numeric.chain bc)
                     (Numeric.pendingTransactions bc ++ [tx])).
Proof.
  unfold Numeric.addTransaction, bind, when, throw, ret, lift, gets, modify.
  destruct (negb (truthy (Numeric.fromAddress tx))
            || negb (truthy (Numeric.toAddress tx))); [reflexivity|].
  destruct (Number.leb (Numeric.amount tx) Number.zero); [reflexivity|].
  destruct (negb (address_eqb (Numeric.fromAddress tx) None));
    [|reflexivity].
  destruct (Numeric.isValid tx) as [[|]|e]; cbn [negb]; try reflexivity.
  destruct (Number.ltb _ _); reflexivity.
Qed.

(** [addTransaction], the amounts being Numbers.  It either throws and
    leaves the ledger as it was, the error being one of its four or the
    one the [isValid] method of the transaction threw, or returns true
    having appended the transaction at the end of the queue and changed
    nothing else.  It succeeds exactly when sender and recipient are
    present, the test [amount <= 0] is false, [isValid] answers true and
    the test [balance < amount] is false.  Both tests are false for
    [NaN]: a transaction of amount [NaN] with both addresses on which
    [isValid] answers true is queued whatever the sender's balance. *)
Theorem addTransaction_outcome (tx : Numeric.transaction) (bc : Numeric.t) :
  (forall e bc',
      Numeric.addTransaction tx bc = (Throw e, bc') ->
      bc' = bc /\
      (e = MissingAddress \/ e = InvalidAmount \/ e = InvalidSignature \/
       e = InsufficientBalance \/ Numeric.isValid tx = Throw e)) /\
  (forall v bc',
      Numeric.addTransaction tx bc = (Ok v, bc') ->
      v = true /\
      Numeric.chain bc' = Numeric.chain bc /\
      Numeric.pendingTransactions bc'
      = Numeric.pendingTransactions bc ++ [tx]) /\
  ((exists bc', Numeric.addTransaction tx bc = (Ok true, bc')) <->
   truthy (Numeric.fromAddress tx) = true /\
   truthy (Numeric.toAddress tx) = true /\
   Number.leb (Numeric.amount tx) Number.zero = false /\
   Numeric.isValid tx = Ok true /\
   Number.ltb (Numeric.getBalanceOfAddress (Numeric.fromAddress tx) bc)
              (Numeric.amount tx) = false) /\
  (Numeric.amount tx = Number.NaN ->
   truthy (Numeric.fromAddress tx) = true ->
   truthy (Numeric.toAddress tx) = true ->
   Numeric.isValid tx = Ok true ->
   Numeric.addTransaction tx bc
   = (Ok true,
      Numeric.mk (Numeric.chain bc) (Numeric.pendingTransactions bc ++ [tx]))).
Proof.
  assert (Hiff : (exists bc', Numeric.addTransaction tx bc = (Ok true, bc')) <->
                 truthy (Numeric.fromAddress tx) = true /\
                 truthy (Numeric.toAddress tx) = true /\
                 Number.leb (Numeric.amount tx) Number.zero = false /\
                 Numeric.isValid tx = Ok true /\
                 Number.ltb
                   (Numeric.getBalanceOfAddress (Numeric.fromAddress tx) bc)
                   (Numeric.amount tx) = false).
  { rewrite numeric_addTransaction_unfold. split.
    - intros [bc' H].
      destruct (truthy (Numeric.fromAddress tx)) eqn:Hf;
        [|discriminate H].
      destruct (truthy (Numeric.toAddress tx)) eqn:Ht; [|discriminate H].
      cbn [negb orb] in H.
      destruct (Number.leb (Numeric.amount tx) Number.zero);
        [discriminate H|].
      destruct (Numeric.fromAddress tx) as [sender|]; [|discriminate Hf].
      cbn [address_eqb negb] in H.
      destruct (Numeric.isValid tx) as [[|]|e]; try discriminate H.
      cbn [negb] in H.
      destruct (Number.ltb _ _); [discriminate H|]. auto.
    - intros (Hf & Ht & Ha & Hv & Hb). rewrite Hf, Ht, Ha, Hv, Hb.
      cbn [negb orb].
      destruct (Numeric.fromAddress tx); [|discriminate Hf].
      cbn [address_eqb negb]. eauto. }
  split; [|split; [|split]].
  - intros e bc' H. rewrite numeric_addTransaction_unfold in H.
    destruct (Numeric.isValid tx) as [[|]|e'] eqn:Hv; cbn [negb] in H;
      repeat match type of H with
             | context [if ?c then _ else _] => destruct c
             end; inversion H; subst; auto 6.
  - intros v bc' H. rewrite numeric_addTransaction_unfold in H.
    destruct (Numeric.isValid tx) as [[|]|e'] eqn:Hv; cbn [negb] in H;
      repeat match type of H with
             | context [if ?c then _ else _] => destruct c
             end; inversion H; subst; auto.
  - exact Hiff.
  - intros Ha Hf Ht Hv. rewrite numeric_addTransaction_unfold.
    rewrite Hf, Ht, Hv, Ha. cbn [negb orb].
    destruct (Numeric.fromAddress tx); [|discriminate Hf].
    cbn [address_eqb negb].
    change (Number.leb Number.NaN Number.zero) with false.
    replace (Number.ltb _ Number.NaN) with false;
      [reflexivity|].
    unfold Number.ltb, Number.NaN, SFltb, SFcompare.
    destruct (Numeric.getBalanceOfAddress _ _); reflexivity.
Qed.

(** On integers the two embeddings of [addTransaction] agree: for a
    ledger whose amounts have absolute values summing to less than 2^53
    and a transaction whose amount is an integer below 2^53 in absolute
    value, the method on Numbers throws or returns what the method on
    integers does and leaves the same ledger. *)
Theorem addTransaction_on_integers (tx : Transaction.t) (bc : Blockchain.t) :
  volume (history bc) < 2 ^ 53 ->
  Z.abs (Transaction.amount tx) < 2 ^ 53 ->
  Numeric.addTransaction (Numeric.of_transaction tx) (Numeric.of_ledger bc)
  = (fst (Blockchain.addTransaction tx bc),
     Numeric.of_ledger (snd (Blockchain.addTransaction tx bc))).
Proof.
  intros Hv Ha.
  pose proof (getBalanceOfAddress_bound (Transaction.fromAddress tx) bc) as Hb.
  assert (Hq : Numeric.mk (Numeric.chain (Numeric.of_ledger bc))
                 (Numeric.pendingTransactions (Numeric.of_ledger bc)
                  ++ [Numeric.of_transaction tx])
               = Numeric.of_ledger
                   (Blockchain.set_pendingTransactions bc
                      (Blockchain.pendingTransactions bc ++ [tx]))).
  { unfold Numeric.of_ledger. cbn. rewrite map_app. reflexivity. }
  rewrite numeric_addTransaction_unfold, addTransaction_unfold, Hq.
  change (Numeric.fromAddress (Numeric.of_transaction tx))
    with (Transaction.fromAddress tx).
  change (Numeric.toAddress (Numeric.of_transaction tx))
    with (Transaction.toAddress tx).
  change (Numeric.amount (Numeric.of_transaction tx))
    with (Number.of_Z (Transaction.amount tx)).
  change (Numeric.isValid (Numeric.of_transaction tx))
    with (Transaction.isValid tx).
  rewrite leb_of_Z_zero by exact Ha.
  rewrite numeric_getBalanceOfAddress by exact Hv.
  rewrite ltb_of_Z by lia.
  destruct (negb (truthy (Transaction.fromAddress tx))
            || negb (truthy (Transaction.toAddress tx))); [reflexivity|].
  destruct (Transaction.amount tx <=? 0); [reflexivity|].
  destruct (negb (address_eqb (Transaction.fromAddress tx) None));
    [|reflexivity].
  destruct (Transaction.isValid tx) as [[|]|e]; cbn [negb]; try reflexivity.
  destruct (_ <? _); reflexivity.
Qed.

(** Balances are computed from the mined blocks alone, so queueing a
    transaction changes no balance, and a transaction that was admitted is
    admitted again on the ledger that already holds it in its queue. *)
Theorem addTransaction_ignores_queue (tx : Transaction.t)
        (bc bc' : Blockchain.t) (v : bool) :
  Blockchain.addTransaction tx bc = (Ok v, bc') ->
  (forall address,
      Blockchain.getBalanceOfAddress address bc'
      = Blockchain.getBalanceOfAddress address bc) /\
  Blockchain.addTransaction tx bc'
  = (Ok true,
     Blockchain.set_pendingTransactions bc'
       (Blockchain.pendingTransactions bc ++ [tx; tx])).
Proof.
  intros H. apply addTransaction_success in H.
  destruct H as (_ & -> & Hf & Ht & Ha & Hv & Hb).
  split; [reflexivity|].
  rewrite addTransaction_unfold. rewrite Hf, Ht, Hv. cbn [negb orb].
  apply Z.leb_gt in Ha. rewrite Ha.
  destruct (Transaction.fromAddress tx) as [sender|] eqn:Hs;
    [|discriminate Hf].
  cbn [address_eqb negb].
  change (Blockchain.getBalanceOfAddress (Some sender)
            (Blockchain.set_pendingTransactions bc
               (Blockchain.pendingTransactions bc ++ [tx])))
    with (Blockchain.getBalanceOfAddress (Some sender) bc).
  apply Z.ltb_ge in Hb. rewrite Hb. cbn.
  rewrite <- app_assoc. reflexivity.
Qed.

End AdmissionFacts.

Lemma addTransaction_outcome_witness :
  (exists bc',
      Numeric.addTransaction (@Numeric.of_transaction demo_secp demo_transfer)
        (@Numeric.of_ledger demo_secp funded_ledger)
      = (Ok true, bc')) /\
  Numeric.addTransaction
    (Numeric.mkTransaction (Some "bob") (Some "alice") Number.NaN (Ok true))
    (numeric_ledger_of [])
  = (Ok true,
     Numeric.mk [[]; []]
       [Numeric.mkTransaction (Some "bob") (Some "alice") Number.NaN
                              (Ok true)]).
Proof.
  split.
  - apply (proj1 (proj2 (proj2 (addTransaction_outcome
                                  (@Numeric.of_transaction demo_secp
                                     demo_transfer)
                                  (@Numeric.of_ledger demo_secp
                                     funded_ledger))))).
    vm_compute. repeat split; congruence.
  - apply (proj2 (proj2 (proj2 (addTransaction_outcome
                                  (Numeric.mkTransaction (Some "bob")
                                     (Some "alice") Number.NaN (Ok true))
                                  (numeric_ledger_of []))))); reflexivity.
Defined.

Lemma addTransaction_on_integers_witness :
  Numeric.addTransaction (@Numeric.of_transaction demo_secp demo_transfer)
    (@Numeric.of_ledger demo_secp funded_ledger)
  = (Ok true, @Numeric.of_ledger demo_secp transfer_queued).
Proof.
  assert (E : Blockchain.addTransaction demo_transfer funded_ledger
              = (Ok true, transfer_queued)) by (vm_compute; reflexivity).
  pose proof (@addTransaction_on_integers demo_secp demo_transfer
                funded_ledger) as H.
  rewrite E in H. apply H; vm_compute; reflexivity.
Defined.

Lemma addTransaction_ignores_queue_witness :
  Blockchain.addTransaction demo_transfer transfer_queued
  = (Ok true,
     Blockchain.set_pendingTransactions transfer_queued
       [demo_transfer; demo_transfer]).
Proof.
  apply (@addTransaction_ignores_queue demo_secp demo_transfer funded_ledger
           transfer_queued true).
  vm_compute. reflexivity.
Defined.

(** ** Mining and balances *)

Lemma address_eqb_eq (a b : option string) : address_eqb a b = true <-> a = b.
Proof.
  destruct a as [x|], b as [y|]; cbn; try (split; congruence).
  rewrite String.eqb_eq. split; congruence.
Qed.

(** What a returning mining call returns and leaves behind. *)
Lemma minePendingTransactions_result fuel now_tx now_block rewardAddress bc
      latest r bc' :
  Blockchain.getLatestBlock bc = Some latest ->
  Blockchain.minePendingTransactions fuel now_tx now_block rewardAddress bc
  = Some (r, bc') ->
  exists block,
    Block.mineBlock fuel (Blockchain.difficulty bc)
      (candidate now_tx now_block rewardAddress bc latest) = Some block /\
    r = Ok block /\
    bc' = Blockchain.mk (Blockchain.chain bc ++ [block])
            (Blockchain.difficulty bc) [] (Blockchain.miningReward bc).
Proof.
  intros Hl H.
  rewrite (minePendingTransactions_unfold _ _ _ _ _ _ Hl) in H.
  destruct (Block.mineBlock _ _ _) as [block|] eqn:Hm; [|discriminate].
  injection H as <- <-. eauto.
Qed.

(** The transactions of the chain after a returning mining call. *)
Lemma history_mined fuel now_tx now_block rewardAddress bc latest r bc' :
  Blockchain.getLatestBlock bc = Some latest ->
  Blockchain.minePendingTransactions fuel now_tx now_block rewardAddress bc
  = Some (r, bc') ->
  history bc'
  = history bc ++ Blockchain.pendingTransactions bc
    ++ [Transaction.new None (Some rewardAddress)
          (Blockchain.miningReward bc) now_tx].
Proof.
  intros Hl H.
  destruct (minePendingTransactions_result _ _ _ _ _ _ _ _ Hl H)
    as (block & Hm & _ & ->).
  apply mineBlock_fields in Hm. destruct Hm as (_ & _ & Htx & _).
  cbn in Htx. rewrite history_snoc, Htx. reflexivity.
Qed.

Lemma balance_mined fuel now_tx now_block rewardAddress bc latest r bc'
      address :
  Blockchain.getLatestBlock bc = Some latest ->
  Blockchain.minePendingTransactions fuel now_tx now_block rewardAddress bc
  = Some (r, bc') ->
  Blockchain.getBalanceOfAddress address bc'
  = Blockchain.getBalanceOfAddress address bc
    + credits address (Blockchain.pendingTransactions bc)
    - debits address (Blockchain.pendingTransactions bc)
    + (if address_eqb (Some rewardAddress) address
       then Blockchain.miningReward bc else 0)
    - (if address_eqb None address then Blockchain.miningReward bc else 0).
Proof.
  intros Hl H. rewrite !getBalanceOfAddress_history.
  rewrite (history_mined _ _ _ _ _ _ _ _ Hl H).
  unfold credits, debits. rewrite !total_app, !total_cons.
  cbn [Transaction.new Transaction.fromAddress Transaction.toAddress
       Transaction.amount].
  unfold total at 3 6. cbn [filter map fold_right].
  destruct (address_eqb (Some rewardAddress) address),
           (address_eqb None address); lia.
Qed.

(** Mining moves the queue into the chain.  When the amounts of the
    chain after the call (integers) have absolute values summing to less
    than 2^53, the balances the scan on Numbers returns before and after
    the call are integers, and the one after is the one before plus what
    the queued transactions credit the address, minus what they debit it,
    plus the mining reward for the reward address and minus the mining
    reward for the null sentinel. *)
Theorem balance_after_mining (secp : Secp256k1) fuel now_tx now_block
        rewardAddress bc latest r bc' address :
  Blockchain.getLatestBlock bc = Some latest ->
  Blockchain.minePendingTransactions fuel now_tx now_block rewardAddress bc
  = Some (r, bc') ->
  volume (history bc') < 2 ^ 53 ->
  Numeric.getBalanceOfAddress address (Numeric.of_ledger bc)
  = Number.of_Z (Blockchain.getBalanceOfAddress address bc) /\
  Numeric.getBalanceOfAddress address (Numeric.of_ledger bc')
  = Number.of_Z
      (Blockchain.getBalanceOfAddress address bc
       + credits address (Blockchain.pendingTransactions bc)
       - debits address (Blockchain.pendingTransactions bc)
       + (if address_eqb (Some rewardAddress) address
          then Blockchain.miningReward bc else 0)
       - (if address_eqb None address then Blockchain.miningReward bc else 0)).
Proof.
  intros Hl H Hv.
  pose proof (history_mined _ _ _ _ _ _ _ _ Hl H) as Hh.
  assert (Hv0 : volume (history bc) < 2 ^ 53).
  { rewrite Hh, volume_app in Hv.
    pose proof (volume_nonneg
                  (Blockchain.pendingTransactions bc
                   ++ [Transaction.new None (Some rewardAddress)
                         (Blockchain.miningReward bc) now_tx])).
    lia. }
  split; [apply numeric_getBalanceOfAddress; exact Hv0|].
  rewrite numeric_getBalanceOfAddress by exact Hv. f_equal.
  rewrite !getBalanceOfAddress_history, Hh.
  unfold credits, debits. rewrite !total_app, !total_cons.
  cbn [Transaction.new Transaction.fromAddress Transaction.toAddress
       Transaction.amount].
  unfold total at 3 6. cbn [filter map fold_right].
  destruct (address_eqb (Some rewardAddress) address),
           (address_eqb None address); lia.
Qed.

Lemma balance_after_mining_witness :
  Numeric.getBalanceOfAddress (Some "alice")
    (@Numeric.of_ledger demo_secp sample_ledger)
  = Number.of_Z
      (Blockchain.getBalanceOfAddress (Some "alice")
         (Blockchain.new 1700000000000)
       + 0 - 0 + 100 - 0).
Proof.
  apply (balance_after_mining demo_secp 3 1700000000090 1700000000090 "alice"
           (Blockchain.new 1700000000000)
           (Blockchain.createGenesisBlock 1700000000000)
           (Ok (Nat.iter 3 Block.next_nonce
                         (candidate 1700000000090 1700000000090 "alice"
                            (Blockchain.new 1700000000000)
                            (Blockchain.createGenesisBlock 1700000000000))))
           sample_ledger (Some "alice")).
  - reflexivity.
  - vm_compute. reflexivity.
  - vm_compute. reflexivity.
Defined.

(** ** Conservation *)

Lemma pick_sum (addresses : list (option string)) (x : option string) (v : Z) :
  NoDup addresses -> In x addresses ->
  fold_right Z.add 0
    (map (fun a => if address_eqb x a then v else 0) addresses) = v.
Proof.
  induction 1 as [|a l Hnotin Hnd IH]; intros Hin; [destruct Hin|].
  cbn [map fold_right]. destruct Hin as [<-|Hin].
  - assert (Ha : address_eqb a a = true) by (apply address_eqb_eq; reflexivity).
    rewrite Ha.
    assert (Hz : fold_right Z.add 0
                   (map (fun b => if address_eqb a b then v else 0) l) = 0).
    { clear IH Hnd. induction l as [|b l IHl]; [reflexivity|].
      cbn [map fold_right].
      destruct (address_eqb a b) eqn:E.
      - apply address_eqb_eq in E. subst b. exfalso. apply Hnotin. left.
        reflexivity.
      - rewrite IHl; [reflexivity|]. intros Hc. apply Hnotin. right. exact Hc. }
    rewrite Hz. lia.
  - destruct (address_eqb x a) eqn:E.
    + apply address_eqb_eq in E. subst a. contradiction.
    + rewrite (IH Hin). lia.
Qed.

Lemma sum_add (A : Type) (f g : A -> Z) (l : list A) :
  fold_right Z.add 0 (map (fun a => f a + g a) l)
  = fold_right Z.add 0 (map f l) + fold_right Z.add 0 (map g l).
Proof. induction l as [|a l IH]; cbn [map fold_right]; lia. Qed.

Lemma sum_ext (A : Type) (f g : A -> Z) (l : list A) :
  (forall a, f a = g a) ->
  fold_right Z.add 0 (map f l) = fold_right Z.add 0 (map g l).
Proof.
  intros H. induction l as [|a l IH]; cbn [map fold_right];
    [reflexivity | rewrite H, IH; reflexivity].
Qed.

(** Summed over address slots that cover the transactions, what is
    selected by one end of the transactions is all the amounts. *)
Lemma total_over_addresses (addresses : list (option string))
      (slot : Transaction.t -> option string) (txs : list Transaction.t) :
  NoDup addresses ->
  (forall tx, In tx txs -> In (slot tx) addresses) ->
  fold_right Z.add 0
    (map (fun a => total (fun tx => address_eqb (slot tx) a) txs) addresses)
  = fold_right Z.add 0 (map Transaction.amount txs).
Proof.
  intros Hnd. induction txs as [|tx txs IH]; intros Hcov.
  - clear Hnd Hcov. induction addresses as [|a l IHl]; [reflexivity|].
    cbn [map fold_right]. rewrite IHl. reflexivity.
  - rewrite (sum_ext _
               (fun a => total (fun tx0 => address_eqb (slot tx0) a) (tx :: txs))
               (fun a => (if address_eqb (slot tx) a
                          then Transaction.amount tx else 0)
                         + total (fun tx0 => address_eqb (slot tx0) a) txs))
      by (intros a; apply total_cons).
    rewrite sum_add, (pick_sum _ _ _ Hnd (Hcov tx (or_introl eq_refl))).
    rewrite IH by (intros tx' Hin; apply Hcov; right; exact Hin).
    reflexivity.
Qed.

(** Value is neither created nor lost by the balance computation.  On a
    chain whose amounts are integers with absolute values summing to less
    than 2^53, the balances the scan on Numbers returns are integers, and
    over any duplicate-free list of address slots (null included) that
    contains the sender and the recipient of every transaction of the
    chain these integers sum to zero. *)
Theorem balances_sum_to_zero (secp : Secp256k1)
        (addresses : list (option string)) (bc : Blockchain.t) :
  NoDup addresses ->
  (forall tx, In tx (history bc) ->
              In (Transaction.fromAddress tx) addresses /\
              In (Transaction.toAddress tx) addresses) ->
  volume (history bc) < 2 ^ 53 ->
  (forall address,
      Numeric.getBalanceOfAddress address (Numeric.of_ledger bc)
      = Number.of_Z (Blockchain.getBalanceOfAddress address bc)) /\
  balance_sum addresses bc = 0.
Proof.
  intros Hnd Hcov Hv.
  split; [intros address; apply numeric_getBalanceOfAddress; exact Hv|].
  unfold balance_sum.
  rewrite (sum_ext _ (fun a => Blockchain.getBalanceOfAddress a bc)
             (fun a => credits a (history bc) + - debits a (history bc)))
    by (intros a; rewrite getBalanceOfAddress_history; lia).
  rewrite sum_add.
  rewrite (sum_ext _ (fun a => - debits a (history bc))
             (fun a => (-1) * debits a (history bc))) by (intros; lia).
  assert (Hscale : forall (f : option string -> Z) l,
             fold_right Z.add 0 (map (fun a => (-1) * f a) l)
             = - fold_right Z.add 0 (map f l)).
  { intros f l. induction l as [|a l IH]; cbn [map fold_right]; lia. }
  rewrite Hscale. unfold credits, debits.
  rewrite (total_over_addresses addresses Transaction.toAddress)
    by (auto; intros tx Hin; apply Hcov; exact Hin).
  rewrite (total_over_addresses addresses Transaction.fromAddress)
    by (auto; intros tx Hin; apply Hcov; exact Hin).
  lia.
Qed.

Lemma balances_sum_to_zero_witness :
  (forall address,
      Numeric.getBalanceOfAddress address
        (@Numeric.of_ledger demo_secp (ledger_of sample_txs))
      = Number.of_Z
          (Blockchain.getBalanceOfAddress address (ledger_of sample_txs))) /\
  balance_sum [None; Some "alice"; Some "bob"] (ledger_of sample_txs) = 0.
Proof.
  apply (balances_sum_to_zero demo_secp).
  - repeat constructor; cbn; intuition discriminate.
  - cbn. intros tx [<-|[<-|[<-|[]]]]; cbn; auto 10.
  - vm_compute. reflexivity.
Defined.

(** ** Shape of reachable ledgers *)

Section StructureFacts.
Context {secp : Secp256k1}.

Lemma structure_new now : structure (Blockchain.new now).
Proof.
  constructor; cbn; try reflexivity; try constructor.
  - exists now, []. reflexivity.
  - intros [|[|i]] b H; cbn in H; try discriminate.
    injection H as <-. reflexivity.
Qed.

Lemma structure_add tx bc r bc' :
  structure bc -> Blockchain.addTransaction tx bc = (r, bc') -> structure bc'.
Proof.
  intros Hst H. destruct r as [v|e].
  - apply addTransaction_success in H. destruct H as (_ & -> & _).
    destruct Hst. constructor; cbn; assumption.
  - apply addTransaction_failure in H. subst bc'. exact Hst.
Qed.

Lemma structure_mine n bc fuel now_tx now_block rewardAddress r bc' :
  invariant n bc -> structure bc ->
  Blockchain.minePendingTransactions fuel now_tx now_block rewardAddress bc
  = Some (r, bc') ->
  structure bc'.
Proof.
  intros Hinv Hst H. destruct Hinv, Hst.
  destruct (getLatestBlock_some _ inv_genesis0) as [latest Hl].
  destruct (minePendingTransactions_result _ _ _ _ _ _ _ _ Hl H)
    as (block & Hm & -> & ->).
  pose proof (mineBlock_meets _ _ _ _ Hm) as Hmeets.
  apply mineBlock_fields in Hm. destruct Hm as (Hi & _ & Htx & _).
  cbn in Hi, Htx.
  destruct st_genesis0 as (now & rest & Hc).
  constructor; cbn [Blockchain.difficulty Blockchain.chain]; auto.
  - exists now, (rest ++ [block]). rewrite Hc. reflexivity.
  - intros i b Hb.
    destruct (Nat.lt_ge_cases i (List.length (Blockchain.chain bc)))
      as [Hlt|Hge].
    + rewrite nth_error_app1 in Hb by exact Hlt. apply st_index0. exact Hb.
    + rewrite nth_error_app2 in Hb by exact Hge.
      destruct (i - List.length (Blockchain.chain bc))%nat as [|k] eqn:E.
      * cbn in Hb. injection Hb as <-. rewrite Hi. f_equal. lia.
      * cbn in Hb. destruct k; discriminate.
  - rewrite Hc in *. cbn [tl app] in *. apply Forall_app. split; [assumption|].
    constructor; [|constructor]. rewrite <- st_difficulty0. exact Hmeets.
  - rewrite Hc in *. cbn [tl app] in *. apply Forall_app. split; [assumption|].
    constructor; [|constructor].
    exists (Blockchain.pendingTransactions bc), rewardAddress, now_tx.
    rewrite Htx, inv_reward0. split; [reflexivity|exact inv_pending0].
Qed.

Lemma reachable_structure n bc : Blockchain.reachable n bc -> structure bc.
Proof.
  induction 1 as [now|n bc tx r bc' Hr IH H|n bc fuel t1 t2 a r bc' Hr IH H].
  - apply structure_new.
  - eapply structure_add; eauto.
  - eapply structure_mine; eauto. apply reachable_invariant. exact Hr.
Qed.

(** After [n] mining calls the chain has [n + 1] blocks, the first of which
    is the genesis block the constructor made (index 0, no transactions,
    previousHash "0"); every block's index is its position in the chain;
    difficulty and mining reward are still 2 and 100. *)
Theorem reachable_chain_shape n bc :
  Blockchain.reachable n bc ->
  List.length (Blockchain.chain bc) = S n /\
  (exists now rest,
      Blockchain.chain bc = Blockchain.createGenesisBlock now :: rest /\
      Block.index (Blockchain.createGenesisBlock now) = 0 /\
      Block.transactions (Blockchain.createGenesisBlock now) = [] /\
      Block.previousHash (Blockchain.createGenesisBlock now) = "0"%string) /\
  (forall i b, nth_error (Blockchain.chain bc) i = Some b ->
               Block.index b = Z.of_nat i) /\
  Blockchain.difficulty bc = 2%nat /\
  Blockchain.miningReward bc = 100.
Proof.
  intros H. pose proof (reachable_invariant _ _ H) as Hinv.
  apply reachable_structure in H. destruct Hinv, H.
  split; [assumption|]. split.
  - destruct st_genesis0 as (now & rest & Hc). exists now, rest. auto.
  - auto.
Qed.

(** Every block after the genesis block of a reachable ledger carries its
    proof of work: its stored hash starts with two zeros. *)
Theorem reachable_proof_of_work n bc b :
  Blockchain.reachable n bc ->
  In b (tl (Blockchain.chain bc)) ->
  substring 0 2 (Block.hash b) = "00"%string /\
  (2 <= leading_zeros (Block.hash b))%nat.
Proof.
  intros H Hin. apply reachable_structure in H. destruct H.
  rewrite Forall_forall in st_work0. specialize (st_work0 b Hin).
  unfold Block.meets in st_work0. apply String.eqb_eq in st_work0.
  split; [exact st_work0|]. apply substring_zeros_leading. exact st_work0.
Qed.

(** In a reachable ledger every block after the genesis block holds
    transactions that passed [addTransaction] (sender and recipient
    present, the test [amount <= 0] false, [isValid] true) followed by
    exactly one coinbase transaction of 100, its last; the queue holds
    only transactions that passed [addTransaction]. *)
Theorem reachable_contents n bc :
  Blockchain.reachable n bc ->
  Forall passed (Blockchain.pendingTransactions bc) /\
  (forall b, In b (tl (Blockchain.chain bc)) ->
     exists txs rewardAddress now,
       Block.transactions b
       = txs ++ [Transaction.new None (Some rewardAddress) 100 now] /\
       Forall passed txs /\
       Forall (fun tx => is_coinbase tx = false) txs).
Proof.
  intros H. pose proof (reachable_invariant _ _ H) as Hinv.
  apply reachable_structure in H. destruct Hinv, H.
  assert (Hpassed : forall tx, admitted tx -> passed tx).
  { intros tx (Hf & Ht & Ha & Hv). repeat split; try assumption.
    apply Z.leb_gt. exact Ha. }
  split; [eapply Forall_impl; [exact Hpassed|exact inv_pending0]|].
  intros b Hin. rewrite Forall_forall in st_contents0.
  destruct (st_contents0 b Hin) as (txs & a & now & Htx & Hadm).
  exists txs, a, now. split; [exact Htx|].
  split; [eapply Forall_impl; [exact Hpassed|exact Hadm]|].
  eapply Forall_impl; [|exact Hadm]. intros tx (Hf & _).
  unfold is_coinbase. destruct (Transaction.fromAddress tx);
    [reflexivity|discriminate Hf].
Qed.

End StructureFacts.

Lemma funded_ledger_reachable (secp : Secp256k1) :
  Blockchain.reachable 2 funded_ledger.
Proof.
  refine (@Blockchain.reach_mine secp 1
            (mined 3 1700000001029 demo_address (Blockchain.new 1700000000000))
            4 1700000002058 1700000002058 demo_address _ _ _ _).
  - refine (@Blockchain.reach_mine secp 0 (Blockchain.new 1700000000000)
              3 1700000001029 1700000001029 demo_address _ _
              (Blockchain.reach_new 1700000000000) _).
    vm_compute. reflexivity.
  - vm_compute. reflexivity.
Qed.

Lemma reachable_chain_shape_witness :
  List.length (Blockchain.chain funded_ledger) = 3%nat.
Proof.
  apply (@reachable_chain_shape demo_secp 2 funded_ledger).
  apply funded_ledger_reachable.
Defined.

Lemma reachable_proof_of_work_witness :
  (2 <= leading_zeros
          (Block.hash (last (Blockchain.chain funded_ledger)
                            (Blockchain.createGenesisBlock 0))))%nat.
Proof.
  apply (@reachable_proof_of_work demo_secp 2 funded_ledger
           (last (Blockchain.chain funded_ledger)
                 (Blockchain.createGenesisBlock 0))
           (funded_ledger_reachable demo_secp)).
  vm_compute. right. left. reflexivity.
Defined.

Lemma transfer_queued_reachable :
  @Blockchain.reachable demo_secp 2 transfer_queued.
Proof.
  refine (@Blockchain.reach_add demo_secp 2 funded_ledger demo_transfer
            (Ok true) transfer_queued (funded_ledger_reachable demo_secp) _).
  vm_compute. reflexivity.
Qed.

Lemma transfer_mined_reachable :
  @Blockchain.reachable demo_secp 3 transfer_mined.
Proof.
  refine (@Blockchain.reach_mine demo_secp 2 transfer_queued
            3 1700000003195 1700000003195 demo_address2 _ _
            transfer_queued_reachable _).
  vm_compute. reflexivity.
Qed.

Lemma reachable_contents_witness :
  @passed demo_secp demo_transfer /\
  exists txs rewardAddress now,
    Block.transactions
      (nth 3 (Blockchain.chain transfer_mined)
           (Blockchain.createGenesisBlock 0))
    = txs ++ [Transaction.new None (Some rewardAddress) 100 now] /\
    Forall (@passed demo_secp) txs /\
    Forall (fun tx => is_coinbase tx = false) txs.
Proof.
  split.
  - assert (E : Blockchain.pendingTransactions transfer_queued
                = [demo_transfer]) by (vm_compute; reflexivity).
    pose proof (proj1 (@reachable_contents demo_secp 2 transfer_queued
                         transfer_queued_reachable)) as H.
    rewrite E in H. exact (Forall_inv H).
  - assert (Hin : In (nth 3 (Blockchain.chain transfer_mined)
                          (Blockchain.createGenesisBlock 0))
                     (tl (Blockchain.chain transfer_mined)))
      by (vm_compute; auto).
    exact (proj2 (@reachable_contents demo_secp 3 transfer_mined
                    transfer_mined_reachable) _ Hin).
Defined.

(** ** What [isChainValid] checks *)

Lemma linked_cons (p b : Block.t) (rest : list Block.t) :
  Block.previousHash b = Block.hash p -> linked (b :: rest) ->
  linked (p :: b :: rest).
Proof.
  intros Hp Hl [|i] x y Hx Hy.
  - cbn in Hx, Hy. congruence.
  - apply (Hl i x y); assumption.
Qed.

Lemma linked_single (p : Block.t) : linked [p].
Proof. intros [|i] x y Hx Hy; cbn in Hx; [|destruct i]; discriminate. Qed.

Section ChainCheck.
Context {secp : Secp256k1}.

Lemma transactions_valid_spec (txs : list Transaction.t) :
  exists ok,
    Blockchain.transactions_valid Transaction.isValid txs = Ok ok /\
    (ok = true <-> Forall (fun tx => Transaction.isValid tx = Ok true) txs).
Proof.
  induction txs as [|tx txs (ok & Hok & Hiff)].
  - exists true. split; [reflexivity|]. split; auto.
  - cbn [Blockchain.transactions_valid].
    destruct (isValid_total tx) as [valid Hv]. rewrite Hv. cbn [rbind].
    destruct valid; cbn [negb andb].
    + exists ok. split; [exact Hok|]. rewrite Hiff. split.
      * intros H. constructor; assumption.
      * intros H. inversion H; assumption.
    + destruct (Transaction.fromAddress tx) as [sender|] eqn:Hs.
      * cbn [address_eqb negb]. exists false. split; [reflexivity|].
        split; [discriminate|]. intros H. inversion H; congruence.
      * unfold Transaction.isValid in Hv. rewrite Hs in Hv. discriminate Hv.
Qed.

Lemma blocks_valid_spec (previousBlock : Block.t) (rest : list Block.t) :
  exists ok,
    Blockchain.blocks_valid Transaction.isValid previousBlock rest = Ok ok /\
    (ok = true <->
     linked (previousBlock :: rest) /\
     Forall (fun b => hash_current b = true) rest /\
     Forall (fun tx => Transaction.isValid tx = Ok true)
            (flat_map Block.transactions rest)).
Proof.
  revert previousBlock. induction rest as [|b rest IH]; intros p.
  - exists true. split; [reflexivity|]. split; [|reflexivity].
    intros _. split; [apply linked_single|]. split; constructor.
  - cbn [Blockchain.blocks_valid flat_map]. fold (hash_current b).
    destruct (hash_current b) eqn:Hc; cbn [negb].
    2:{ exists false. split; [reflexivity|]. split; [discriminate|].
        intros (_ & Hh & _). inversion Hh; congruence. }
    destruct (String.eqb (Block.previousHash b) (Block.hash p)) eqn:Hp;
      cbn [negb].
    2:{ exists false. split; [reflexivity|]. split; [discriminate|].
        intros (Hl & _). apply linked_tail in Hl. destruct Hl as [Hl _].
        apply String.eqb_neq in Hp. contradiction. }
    apply String.eqb_eq in Hp.
    destruct (transactions_valid_spec (Block.transactions b))
      as (ok & Hok & Hiff).
    rewrite Hok. cbn [rbind]. destruct ok; cbn [negb].
    2:{ exists false. split; [reflexivity|]. split; [discriminate|].
        intros (_ & _ & Hv). apply Forall_app in Hv. destruct Hv as [Hv _].
        apply Hiff in Hv. discriminate Hv. }
    destruct (IH b) as (ok' & Hok' & Hiff'). exists ok'.
    split; [exact Hok'|]. rewrite Hiff'. split.
    + intros (Hl & Hh & Hv). split; [apply linked_cons; assumption|].
      split; [constructor; assumption|].
      apply Forall_app. split; [apply Hiff; reflexivity | exact Hv].
    + intros (Hl & Hh & Hv). apply linked_tail in Hl.
      apply Forall_app in Hv. inversion Hh; subst. tauto.
Qed.

Lemma isChainValid_spec (bc : Blockchain.t) :
  exists ok,
    Blockchain.isChainValid bc = Ok ok /\
    (ok = true <->
     linked (Blockchain.chain bc) /\
     Forall (fun b => hash_current b = true) (tl (Blockchain.chain bc)) /\
     Forall (fun tx => Transaction.isValid tx = Ok true)
            (flat_map Block.transactions (tl (Blockchain.chain bc)))).
Proof.
  unfold Blockchain.isChainValid, Blockchain.isChainValid_with.
  destruct (Blockchain.chain bc) as [|g rest].
  - exists true. split; [reflexivity|]. split; [|reflexivity].
    intros _. split; [|split; constructor].
    intros i b p Hb. destruct i; discriminate Hb.
  - cbn [tl]. apply blocks_valid_spec.
Qed.

(** [isChainValid] never throws and answers true exactly when, from the
    second block on, every block stores the hash of its content, every
    block's previousHash is the stored hash of the block before it, and
    [isValid] is true of every transaction; nothing of the first block but
    its stored hash is looked at. *)
Theorem isChainValid_checks (bc : Blockchain.t) :
  (exists ok, Blockchain.isChainValid bc = Ok ok) /\
  (Blockchain.isChainValid bc = Ok true <->
   linked (Blockchain.chain bc) /\
   Forall (fun b => hash_current b = true) (tl (Blockchain.chain bc)) /\
   Forall (fun tx => Transaction.isValid tx = Ok true)
          (flat_map Block.transactions (tl (Blockchain.chain bc)))).
Proof.
  destruct (isChainValid_spec bc) as (ok & Hok & Hiff).
  split; [eauto|]. rewrite Hok. rewrite <- Hiff.
  split; [intros H; injection H; auto | intros ->; reflexivity].
Qed.

(** The first block is not validated: replacing it by any block with the
    same stored hash leaves the answer of [isChainValid] as it was.  The
    balances follow the replacement: when the amounts of both chains
    (integers) have absolute values summing to less than 2^53, the balance
    the scan on Numbers returns moves by what the transactions of the
    replacement credit and debit, less what those of the replaced block
    did. *)
Theorem isChainValid_blind_to_first_block (first first' : Block.t)
        (rest : list Block.t) (d : nat) (p : list Transaction.t) (m : Z) :
  Block.hash first' = Block.hash first ->
  Blockchain.isChainValid (Blockchain.mk (first' :: rest) d p m)
  = Blockchain.isChainValid (Blockchain.mk (first :: rest) d p m) /\
  forall address,
    volume (history (Blockchain.mk (first :: rest) d p m)) < 2 ^ 53 ->
    volume (history (Blockchain.mk (first' :: rest) d p m)) < 2 ^ 53 ->
    Numeric.getBalanceOfAddress address
      (Numeric.of_ledger (Blockchain.mk (first :: rest) d p m))
    = Number.of_Z
        (Blockchain.getBalanceOfAddress address
           (Blockchain.mk (first :: rest) d p m)) /\
    Numeric.getBalanceOfAddress address
      (Numeric.of_ledger (Blockchain.mk (first' :: rest) d p m))
    = Number.of_Z
        (Blockchain.getBalanceOfAddress address
           (Blockchain.mk (first :: rest) d p m)
         + (credits address (Block.transactions first')
            - debits address (Block.transactions first'))
         - (credits address (Block.transactions first)
            - debits address (Block.transactions first))).
Proof.
  intros Hh. split.
  - unfold Blockchain.isChainValid, Blockchain.isChainValid_with.
    cbn [Blockchain.chain]. destruct rest as [|b rest]; [reflexivity|].
    cbn [Blockchain.blocks_valid]. rewrite Hh. reflexivity.
  - intros address Hv Hv'.
    split; [apply numeric_getBalanceOfAddress; exact Hv|].
    rewrite numeric_getBalanceOfAddress by exact Hv'. f_equal.
    rewrite !getBalanceOfAddress_history.
    unfold history, credits, debits. cbn [Blockchain.chain flat_map].
    rewrite !total_app. lia.
Qed.

End ChainCheck.

Lemma isChainValid_checks_witness :
  linked (Blockchain.chain funded_ledger) /\
  Forall (fun b => hash_current b = true)
         (tl (Blockchain.chain funded_ledger)) /\
  Forall (fun tx => Transaction.isValid tx = Ok true)
         (flat_map Block.transactions (tl (Blockchain.chain funded_ledger))).
Proof.
  apply (proj1 (proj2 (@isChainValid_checks demo_secp funded_ledger))).
  vm_compute. reflexivity.
Defined.

(** A first block that pays 1000 to "mallory" but keeps the stored hash of
    the genesis block: the chain is as valid as before and "mallory" owns
    1000. *)
Lemma isChainValid_blind_to_first_block_witness :
  let genesis := Blockchain.createGenesisBlock 1700000000000 in
  let forged :=
    Block.mk 0 1700000000000
      [Transaction.new None (Some "mallory") 1000 0] "0"
      (Block.hash genesis) (NNum 0) in
  Blockchain.isChainValid (Blockchain.mk [forged] 2 [] 100)
  = Blockchain.isChainValid (Blockchain.mk [genesis] 2 [] 100) /\
  Numeric.getBalanceOfAddress (Some "mallory")
    (@Numeric.of_ledger demo_secp (Blockchain.mk [forged] 2 [] 100))
  = Number.of_Z 1000.
Proof.
  cbn zeta.
  destruct (@isChainValid_blind_to_first_block demo_secp
              (Blockchain.createGenesisBlock 1700000000000)
              (Block.mk 0 1700000000000
                 [Transaction.new None (Some "mallory") 1000 0] "0"
                 (Block.hash (Blockchain.createGenesisBlock 1700000000000))
                 (NNum 0))
              [] 2%nat [] 100 eq_refl) as [Hv Hb].
  split; [exact Hv|].
  destruct (Hb (Some "mallory")) as [_ ->];
    [vm_compute; reflexivity | vm_compute; reflexivity | reflexivity].
Defined.

(** ** Tampering with a mined block *)

Lemma replace_block_nth (i : nat) (b' b : Block.t) (c : list Block.t) :
  nth_error c i = Some b -> nth_error (replace_block i b' c) i = Some b'.
Proof.
  intros H. unfold replace_block.
  assert (Hi : (i < List.length c)%nat) by (apply nth_error_Some; congruence).
  rewrite nth_error_app2 by (rewrite length_firstn; lia).
  rewrite length_firstn, Nat.min_l by lia. rewrite Nat.sub_diag. reflexivity.
Qed.

Lemma replace_block_before (i j : nat) (b' : Block.t) (c : list Block.t) :
  (j < i)%nat -> (i < List.length c)%nat ->
  nth_error (replace_block i b' c) j = nth_error c j.
Proof.
  intros Hj Hi. unfold replace_block.
  rewrite nth_error_app1 by (rewrite length_firstn; lia).
  rewrite nth_error_firstn.
  destruct (Nat.ltb_spec j i); [reflexivity|lia].
Qed.

Lemma replace_block_tl (j : nat) (b' b : Block.t) (c : list Block.t) :
  nth_error c (S j) = Some b -> In b' (tl (replace_block (S j) b' c)).
Proof.
  intros H. destruct c as [|g rest]; [discriminate H|].
  unfold replace_block. cbn [firstn app tl]. apply in_or_app. right. left.
  reflexivity.
Qed.

Section Tampering.
Context {secp : Secp256k1}.

(** On a chain [isChainValid] accepts, overwriting the stored hash of any
    block after the first with another text, or its previousHash with
    another text, makes [isChainValid] answer false. *)
Theorem isChainValid_detects_hash_tampering (bc : Blockchain.t) (j : nat)
        (b : Block.t) :
  Blockchain.isChainValid bc = Ok true ->
  nth_error (Blockchain.chain bc) (S j) = Some b ->
  (forall h',
      h' <> Block.hash b ->
      Blockchain.isChainValid
        (Blockchain.set_chain bc
           (replace_block (S j) (Block.set_hash b h') (Blockchain.chain bc)))
      = Ok false) /\
  (forall p',
      p' <> Block.previousHash b ->
      Blockchain.isChainValid
        (Blockchain.set_chain bc
           (replace_block (S j) (set_previousHash b p') (Blockchain.chain bc)))
      = Ok false).
Proof.
  intros Hvalid Hb.
  destruct (isChainValid_spec bc) as (ok & Hok & Hiff).
  rewrite Hok in Hvalid. injection Hvalid as ->.
  destruct (proj1 Hiff eq_refl) as (Hl & Hh & _).
  assert (Hj : (S j < List.length (Blockchain.chain bc))%nat)
    by (apply nth_error_Some; congruence).
  assert (Hcur : hash_current b = true).
  { rewrite Forall_forall in Hh. apply Hh.
    destruct (Blockchain.chain bc) as [|g rest]; [discriminate Hb|].
    cbn [tl]. cbn in Hb. eapply nth_error_In; exact Hb. }
  split.
  - intros h' Hne.
    destruct (isChainValid_spec
                (Blockchain.set_chain bc
                   (replace_block (S j) (Block.set_hash b h')
                                  (Blockchain.chain bc))))
      as ([|] & Hok' & Hiff'); [|exact Hok'].
    exfalso. destruct (proj1 Hiff' eq_refl) as (_ & Hh' & _).
    cbn [Blockchain.chain Blockchain.set_chain] in Hh'.
    rewrite Forall_forall in Hh'.
    specialize (Hh' _ (replace_block_tl j (Block.set_hash b h') b _ Hb)).
    unfold hash_current in Hh', Hcur.
    apply String.eqb_eq in Hh'. apply String.eqb_eq in Hcur.
    apply Hne. cbn in Hh'. rewrite Hh'. symmetry. exact Hcur.
  - intros p' Hne.
    destruct (isChainValid_spec
                (Blockchain.set_chain bc
                   (replace_block (S j) (set_previousHash b p')
                                  (Blockchain.chain bc))))
      as ([|] & Hok' & Hiff'); [|exact Hok'].
    exfalso. destruct (proj1 Hiff' eq_refl) as (Hl' & _).
    cbn [Blockchain.chain Blockchain.set_chain] in Hl'.
    destruct (nth_error (Blockchain.chain bc) j) as [prev|] eqn:Hprev.
    2:{ apply nth_error_None in Hprev. lia. }
    apply Hne.
    rewrite (Hl j b prev Hb Hprev).
    apply (Hl' j (set_previousHash b p') prev).
    + apply (replace_block_nth _ _ b). exact Hb.
    + rewrite replace_block_before by lia. exact Hprev.
Qed.

End Tampering.

Lemma isChainValid_detects_hash_tampering_witness :
  Blockchain.isChainValid
    (Blockchain.set_chain funded_ledger
       (replace_block 1 (Block.set_hash funded_block "00")
                      (Blockchain.chain funded_ledger)))
  = Ok false.
Proof.
  assert (H1 : Blockchain.isChainValid funded_ledger = Ok true)
    by (vm_compute; reflexivity).
  assert (H2 : nth_error (Blockchain.chain funded_ledger) 1
               = Some funded_block) by (vm_compute; reflexivity).
  assert (H3 : "00"%string <> Block.hash funded_block)
    by (vm_compute; discriminate).
  exact (proj1 (@isChainValid_detects_hash_tampering demo_secp funded_ledger
                  0%nat funded_block H1 H2) "00"%string H3).
Defined.

(** ** The proof-of-work search *)

Lemma iter_next_nonce_succ (k : nat) (b : Block.t) :
  Nat.iter k Block.next_nonce (Block.next_nonce b)
  = Nat.iter (S k) Block.next_nonce b.
Proof. symmetry. apply Nat.iter_succ_r. Qed.

Lemma iter_next_nonce_nonce (k : nat) (b : Block.t) (n : Z) :
  Block.nonce b = NNum n ->
  Block.nonce (Nat.iter k Block.next_nonce b) = NNum (n + Z.of_nat k).
Proof.
  intros H. induction k as [|k IH].
  - cbn. rewrite H. f_equal. lia.
  - rewrite Nat.iter_succ.
    change (Block.nonce (Block.next_nonce (Nat.iter k Block.next_nonce b)))
      with (jsnum_incr (Block.nonce (Nat.iter k Block.next_nonce b))).
    rewrite IH. cbn [jsnum_incr]. f_equal. lia.
Qed.

(** [mineBlock] returns the block after the least number of nonce
    increments whose hash is accepted, provided the fuel reaches that far:
    no earlier candidate was acceptable, and on a block fresh from the
    constructor the final nonce is that number of increments (nonce 0 is
    never hashed: the first candidate is the constructor's hash, the second
    has nonce 1). *)
Theorem mineBlock_first_accepted (fuel d : nat) (b b' : Block.t) :
  (Block.mineBlock fuel d b = Some b' <->
   exists k,
     (k <= fuel)%nat /\
     b' = Nat.iter k Block.next_nonce b /\
     Block.meets d b' = true /\
     forall j, (j < k)%nat ->
               Block.meets d (Nat.iter j Block.next_nonce b) = false) /\
  (forall index timestamp transactions previousHash,
      b = Block.new index timestamp transactions previousHash ->
      Block.mineBlock fuel d b = Some b' ->
      exists k, Block.nonce b' = NNum (Z.of_nat k) /\
                b' = Nat.iter k Block.next_nonce b).
Proof.
  assert (Hiff : forall fuel b,
             Block.mineBlock fuel d b = Some b' <->
             exists k,
               (k <= fuel)%nat /\
               b' = Nat.iter k Block.next_nonce b /\
               Block.meets d b' = true /\
               forall j, (j < k)%nat ->
                         Block.meets d (Nat.iter j Block.next_nonce b) = false).
  { clear fuel b. induction fuel as [|fuel IH]; intros b.
    - cbn [Block.mineBlock]. destruct (Block.meets d b) eqn:Hm.
      + split.
        * intros H. injection H as <-. exists 0%nat.
          repeat split; auto. intros j Hj. lia.
        * intros (k & Hk & -> & _). replace k with 0%nat by lia. reflexivity.
      + split; [discriminate|].
        intros (k & Hk & -> & Hmeets & _). replace k with 0%nat in Hmeets by lia.
        cbn in Hmeets. congruence.
    - cbn [Block.mineBlock]. destruct (Block.meets d b) eqn:Hm.
      + split.
        * intros H. injection H as <-. exists 0%nat.
          repeat split; auto; [lia|]. intros j Hj. lia.
        * intros (k & Hk & -> & _ & Hleast). destruct k as [|k];
            [reflexivity|].
          specialize (Hleast 0%nat ltac:(lia)). cbn in Hleast. congruence.
      + rewrite IH. split.
        * intros (k & Hk & -> & Hmeets & Hleast). exists (S k).
          rewrite <- iter_next_nonce_succ.
          repeat split; auto; [lia|]. intros [|j] Hj; [exact Hm|].
          rewrite <- iter_next_nonce_succ. apply Hleast. lia.
        * intros (k & Hk & -> & Hmeets & Hleast). destruct k as [|k].
          { cbn in Hmeets. congruence. }
          exists k. rewrite iter_next_nonce_succ.
          repeat split; auto; [lia|]. intros j Hj.
          rewrite iter_next_nonce_succ. apply Hleast. lia. }
  split; [apply Hiff|].
  intros index timestamp transactions previousHash -> H.
  apply Hiff in H. destruct H as (k & _ & -> & _). exists k.
  split; [|reflexivity].
  rewrite (iter_next_nonce_nonce k _ 0) by reflexivity. f_equal.
Qed.

Lemma mineBlock_first_accepted_witness :
  exists k,
    (k <= 10)%nat /\
    Nat.iter 6 Block.next_nonce (sample_block 1700000000069)
    = Nat.iter k Block.next_nonce (sample_block 1700000000069) /\
    Block.meets 2 (Nat.iter 6 Block.next_nonce (sample_block 1700000000069))
    = true /\
    forall j, (j < k)%nat ->
              Block.meets 2
                (Nat.iter j Block.next_nonce (sample_block 1700000000069))
              = false.
Proof.
  apply (proj1 (proj1 (mineBlock_first_accepted 10 2
                         (sample_block 1700000000069)
                         (Nat.iter 6 Block.next_nonce
                                   (sample_block 1700000000069))))).
  vm_compute. reflexivity.
Defined.

Lemma substring_length_le (n : nat) (s : string) :
  (String.length (substring 0 n s) <= String.length s)%nat.
Proof.
  revert s. induction n as [|n IH]; intros [|c s]; cbn; try lia.
  specialize (IH s). lia.
Qed.

Lemma zeros_length (d : nat) : String.length (Block.zeros d) = d.
Proof.
  unfold Block.zeros. induction d as [|d IH]; [reflexivity|].
  cbn. rewrite IH. reflexivity.
Qed.

Lemma meets_needs_length (d : nat) (b : Block.t) :
  (String.length (Block.hash b) < d)%nat -> Block.meets d b = false.
Proof.
  intros H. unfold Block.meets. apply String.eqb_neq. intros E.
  pose proof (substring_length_le d (Block.hash b)) as Hle.
  rewrite E, zeros_length in Hle. lia.
Qed.

(** A difficulty above 64 can never be met, a SHA-256 digest having 64
    hexadecimal characters: on a block fresh from the constructor
    [mineBlock] does not return, whatever the fuel. *)
Theorem mineBlock_difficulty_above_64 (fuel d : nat) (index timestamp : Z)
        (transactions : list Transaction.t) (previousHash : string) :
  (64 < d)%nat ->
  Block.mineBlock fuel d (Block.new index timestamp transactions previousHash)
  = None.
Proof.
  intros Hd.
  assert (Hgen : forall fuel b,
             String.length (Block.hash b) = 64%nat ->
             Block.mineBlock fuel d b = None).
  { clear fuel. induction fuel as [|fuel IH]; intros b Hlen;
      cbn [Block.mineBlock]; rewrite meets_needs_length by lia;
      [reflexivity|].
    apply IH. cbn. apply sha256_hex_length. }
  apply Hgen. cbn. apply sha256_hex_length.
Qed.

Lemma mineBlock_difficulty_above_64_witness :
  Block.mineBlock 1000 65 (Block.new 1 1700000000090 [] "0") = None.
Proof. apply mineBlock_difficulty_above_64. lia. Defined.

(** ** Wallet.createTransaction and the transfer scenario *)

Lemma truthy_digest (data : bytes) :
  truthy (Some (sha256_hex_bytes data)) = true.
Proof.
  pose proof (sha256_hex_bytes_length data) as H.
  destruct (sha256_hex_bytes data); [discriminate H | reflexivity].
Qed.

Section Transfers.
Context {secp : Secp256k1}.

Lemma addTransaction_admits (tx : Transaction.t) (bc : Blockchain.t) :
  truthy (Transaction.fromAddress tx) = true ->
  truthy (Transaction.toAddress tx) = true ->
  0 < Transaction.amount tx ->
  Transaction.isValid tx = Ok true ->
  Transaction.amount tx
  <= Blockchain.getBalanceOfAddress (Transaction.fromAddress tx) bc ->
  Blockchain.addTransaction tx bc
  = (Ok true,
     Blockchain.set_pendingTransactions bc
       (Blockchain.pendingTransactions bc ++ [tx])).
Proof.
  intros Hf Ht Ha Hv Hb. rewrite addTransaction_unfold.
  rewrite Hf, Ht, Hv. cbn [negb orb].
  apply Z.leb_gt in Ha. rewrite Ha.
  destruct (Transaction.fromAddress tx); [|discriminate Hf].
  cbn [address_eqb negb]. apply Z.ltb_ge in Hb. rewrite Hb. reflexivity.
Qed.

Lemma signTransaction_fields (signingKey : option string)
      (tx signed : Transaction.t) :
  Transaction.signTransaction signingKey tx = Ok signed ->
  Transaction.fromAddress signed = Transaction.fromAddress tx /\
  Transaction.toAddress signed = Transaction.toAddress tx /\
  Transaction.amount signed = Transaction.amount tx /\
  Transaction.timestamp signed = Transaction.timestamp tx.
Proof.
  unfold Transaction.signTransaction, try_catch.
  destruct (negb (truthy signingKey)); [discriminate|].
  destruct (negb (Nat.eqb _ 32)); [discriminate|].
  destruct (negb (privateKeyVerify _)); [discriminate|].
  destruct (Transaction.calculateHash tx) as [h|e]; [|discriminate].
  cbn [rbind]. destruct (ecdsaSign _ _) as [sg|e]; [|discriminate].
  cbn [rbind]. intros H. injection H as <-. cbn. auto.
Qed.

Lemma signTransaction_errors (signingKey : option string)
      (tx : Transaction.t) :
  (truthy signingKey = false ->
   Transaction.signTransaction signingKey tx = Throw MissingKey) /\
  (truthy signingKey = true ->
   forall e, Transaction.signTransaction signingKey tx = Throw e ->
             exists cause, e = SigningFailed cause).
Proof.
  unfold Transaction.signTransaction. split.
  - intros ->. reflexivity.
  - intros -> e. cbn [negb]. unfold try_catch.
    destruct (if negb (Nat.eqb _ 32) then _ else _) as [signed|cause];
      [discriminate|].
    intros H. injection H as <-. eauto.
Qed.

(** A wallet on which neither [generate] nor [fromPrivateKey] has succeeded
    creates no transaction: [createTransaction] throws the
    insufficient-balance error (the balance tested is that of null) or the
    missing-key error.  Any wallet is refused with the insufficient-balance
    error when its balance is below the amount; there is no other test of
    the amount, and none of the recipient. *)
Theorem createTransaction_refusals (wallet : option Wallet.keypair)
        (toAddress : option string) (amount now : Z) (bc : Blockchain.t) :
  (Blockchain.getBalanceOfAddress (option_map Wallet.address wallet) bc
   < amount ->
   Wallet.createTransaction wallet toAddress amount now bc
   = Throw InsufficientBalance) /\
  (wallet = None ->
   Wallet.createTransaction wallet toAddress amount now bc
   = Throw (if Blockchain.getBalanceOfAddress None bc <? amount
            then InsufficientBalance else MissingKey)).
Proof.
  unfold Wallet.createTransaction. split.
  - intros H. apply Z.ltb_lt in H. rewrite H. reflexivity.
  - intros ->. cbn [option_map].
    destruct (Blockchain.getBalanceOfAddress None bc <? amount); reflexivity.
Qed.

Hypothesis sound : ecdsa_sound secp.

(** With a library that signs soundly, a wallet filled in by [generate] or
    [fromPrivateKey] whose balance covers the amount creates a transaction
    from its own address to the given recipient, carrying the given amount
    and timestamp, on which [isValid] is true; when moreover the recipient
    is present and the amount positive, [addTransaction] admits it. *)
Theorem createTransaction_admitted (kp : Wallet.keypair)
        (toAddress : option string) (amount now : Z) (bc : Blockchain.t) :
  wallet_keypair kp ->
  amount <= Blockchain.getBalanceOfAddress (Some (Wallet.address kp)) bc ->
  exists tx,
    Wallet.createTransaction (Some kp) toAddress amount now bc = Ok tx /\
    Transaction.fromAddress tx = Some (Wallet.address kp) /\
    Transaction.toAddress tx = toAddress /\
    Transaction.amount tx = amount /\
    Transaction.timestamp tx = now /\
    Transaction.isValid tx = Ok true /\
    (truthy toAddress = true -> 0 < amount ->
     Blockchain.addTransaction tx bc
     = (Ok true,
        Blockchain.set_pendingTransactions bc
          (Blockchain.pendingTransactions bc ++ [tx]))).
Proof.
  intros Hkp Hbal.
  destruct (wallet_keypair_key kp Hkp) as (pk & Hlen & Hver & Hpub & Haddr).
  destruct (sign_then_verify_key sound (Wallet.privateKey kp) pk toAddress
              amount now Hlen Hver Hpub) as (tx & Hsign & Hvalid).
  rewrite <- Haddr in Hsign.
  destruct (signTransaction_fields _ _ _ Hsign) as (Hf & Ht & Ha & Hts).
  cbn in Hf, Ht, Ha, Hts.
  exists tx. unfold Wallet.createTransaction. cbn [option_map].
  apply Z.ltb_ge in Hbal. rewrite Hbal. apply Z.ltb_ge in Hbal.
  repeat (split; [assumption|]).
  intros Hto Hpos. apply addTransaction_admits.
  - rewrite Hf, Haddr. apply truthy_digest.
  - rewrite Ht. exact Hto.
  - rewrite Ha. exact Hpos.
  - exact Hvalid.
  - rewrite Hf, Ha. exact Hbal.
Qed.

(** The scenario of the signature test script, for any two wallets with
    different addresses: after two mining calls for the first wallet its
    balance is 200; a transfer of 50 to the second wallet, signed with the
    first wallet's key, is valid and admitted; after a further mining call
    for the second wallet both balances are 150, the chain has four blocks,
    and [isChainValid] is true provided no mined block was accepted without
    a nonce step. *)
Theorem transfer_scenario (kp1 kp2 : Wallet.keypair) (now0 now_transfer : Z)
        fuel1 now1 now1' r1 bc1 fuel2 now2 now2' r2 bc2 :
  wallet_keypair kp1 -> wallet_keypair kp2 ->
  Wallet.address kp1 <> Wallet.address kp2 ->
  Blockchain.minePendingTransactions fuel1 now1 now1' (Wallet.address kp1)
    (Blockchain.new now0) = Some (r1, bc1) ->
  Blockchain.minePendingTransactions fuel2 now2 now2' (Wallet.address kp1) bc1
  = Some (r2, bc2) ->
  Blockchain.getBalanceOfAddress (Some (Wallet.address kp1)) bc2 = 200 /\
  exists tx,
    Transaction.signTransaction (Some (Wallet.privateKey kp1))
      (Transaction.new (Some (Wallet.address kp1))
                       (Some (Wallet.address kp2)) 50 now_transfer)
    = Ok tx /\
    Transaction.isValid tx = Ok true /\
    Blockchain.addTransaction tx bc2
    = (Ok true, Blockchain.set_pendingTransactions bc2 [tx]) /\
    forall fuel3 now3 now3' r3 bc3,
      Blockchain.minePendingTransactions fuel3 now3 now3'
        (Wallet.address kp2) (Blockchain.set_pendingTransactions bc2 [tx])
      = Some (r3, bc3) ->
      Blockchain.getBalanceOfAddress (Some (Wallet.address kp1)) bc3 = 150 /\
      Blockchain.getBalanceOfAddress (Some (Wallet.address kp2)) bc3 = 150 /\
      List.length (Blockchain.chain bc3) = 4%nat /\
      ((forall b, In b (tl (Blockchain.chain bc3)) ->
                  Block.nonce b <> NNum 0) ->
       Blockchain.isChainValid bc3 = Ok true).
Proof.
  intros Hkp1 Hkp2 Hne Hm1 Hm2.
  set (a1 := Wallet.address kp1) in *. set (a2 := Wallet.address kp2) in *.
  assert (E11 : address_eqb (Some a1) (Some a1) = true)
    by (apply address_eqb_eq; reflexivity).
  assert (E22 : address_eqb (Some a2) (Some a2) = true)
    by (apply address_eqb_eq; reflexivity).
  assert (E12 : address_eqb (Some a1) (Some a2) = false).
  { destruct (address_eqb (Some a1) (Some a2)) eqn:E; [|reflexivity].
    apply address_eqb_eq in E. congruence. }
  assert (E21 : address_eqb (Some a2) (Some a1) = false).
  { destruct (address_eqb (Some a2) (Some a1)) eqn:E; [|reflexivity].
    apply address_eqb_eq in E. congruence. }
  (* the two mining calls for the first wallet *)
  assert (Hr1 : Blockchain.reachable 1 bc1)
    by (eapply Blockchain.reach_mine; [apply Blockchain.reach_new|exact Hm1]).
  assert (Hr2 : Blockchain.reachable 2 bc2)
    by (eapply Blockchain.reach_mine; [exact Hr1|exact Hm2]).
  pose proof (balance_mined _ _ _ _ (Blockchain.new now0)
                (Blockchain.createGenesisBlock now0)
                _ _ (Some a1) eq_refl Hm1) as B11.
  pose proof (balance_mined _ _ _ _ (Blockchain.new now0)
                (Blockchain.createGenesisBlock now0)
                _ _ (Some a2) eq_refl Hm1) as B12.
  destruct (minePendingTransactions_result _ _ _ _ (Blockchain.new now0)
              (Blockchain.createGenesisBlock now0) _ _ eq_refl Hm1)
    as (b1 & _ & _ & Hbc1).
  cbn [Blockchain.new Blockchain.chain Blockchain.difficulty
       Blockchain.miningReward Blockchain.pendingTransactions] in Hbc1.
  assert (Hl1 : Blockchain.getLatestBlock bc1 = Some b1)
    by (rewrite Hbc1; apply (getLatestBlock_last [_])).
  pose proof (balance_mined _ _ _ _ _ _ _ _ (Some a1) Hl1 Hm2) as B21.
  pose proof (balance_mined _ _ _ _ _ _ _ _ (Some a2) Hl1 Hm2) as B22.
  destruct (minePendingTransactions_result _ _ _ _ _ _ _ _ Hl1 Hm2)
    as (b2 & _ & _ & Hbc2).
  assert (P1 : Blockchain.pendingTransactions bc1 = [])
    by (rewrite Hbc1; reflexivity).
  assert (M1 : Blockchain.miningReward bc1 = 100)
    by (rewrite Hbc1; reflexivity).
  rewrite P1, M1 in B21, B22. rewrite E11 in B11, B21. rewrite E12 in B12, B22.
  change (Blockchain.getBalanceOfAddress (Some a1) (Blockchain.new now0))
    with 0 in B11.
  change (Blockchain.getBalanceOfAddress (Some a2) (Blockchain.new now0))
    with 0 in B12.
  cbn in B11, B12, B21, B22.
  assert (Bal1 : Blockchain.getBalanceOfAddress (Some a1) bc2 = 200) by lia.
  assert (Bal2 : Blockchain.getBalanceOfAddress (Some a2) bc2 = 0) by lia.
  split; [exact Bal1|].
  (* signing and admission *)
  destruct (wallet_keypair_key kp1 Hkp1) as (pk1 & Hlen & Hver & Hpub & Ha1).
  destruct (wallet_keypair_key kp2 Hkp2) as (pk2 & _ & _ & _ & Ha2).
  fold a1 in Ha1. fold a2 in Ha2.
  destruct (sign_then_verify_key sound (Wallet.privateKey kp1) pk1 (Some a2)
              50 now_transfer Hlen Hver Hpub) as (tx & Hsign & Hvalid).
  rewrite <- Ha1 in Hsign.
  destruct (signTransaction_fields _ _ _ Hsign) as (Hf & Ht & Ha & _).
  cbn in Hf, Ht, Ha.
  exists tx. split; [exact Hsign|]. split; [exact Hvalid|].
  assert (P2 : Blockchain.pendingTransactions bc2 = [])
    by (rewrite Hbc2; reflexivity).
  assert (Hadd : Blockchain.addTransaction tx bc2
                 = (Ok true, Blockchain.set_pendingTransactions bc2 [tx])).
  { rewrite (addTransaction_admits tx bc2).
    - rewrite P2. reflexivity.
    - rewrite Hf, Ha1. apply truthy_digest.
    - rewrite Ht, Ha2. apply truthy_digest.
    - rewrite Ha. lia.
    - exact Hvalid.
    - rewrite Hf, Ha, Bal1. lia. }
  split; [exact Hadd|].
  (* the mining call for the second wallet *)
  intros fuel3 now3 now3' r3 bc3 Hm3.
  assert (Hl2 : Blockchain.getLatestBlock
                  (Blockchain.set_pendingTransactions bc2 [tx]) = Some b2)
    by (rewrite Hbc2; apply getLatestBlock_last).
  pose proof (balance_mined _ _ _ _ _ _ _ _ (Some a1) Hl2 Hm3) as B31.
  pose proof (balance_mined _ _ _ _ _ _ _ _ (Some a2) Hl2 Hm3) as B32.
  assert (Hr3 : Blockchain.reachable 3 bc3).
  { eapply Blockchain.reach_mine; [|exact Hm3].
    eapply Blockchain.reach_add; [exact Hr2|exact Hadd]. }
  change (Blockchain.getBalanceOfAddress (Some a1)
            (Blockchain.set_pendingTransactions bc2 [tx]))
    with (Blockchain.getBalanceOfAddress (Some a1) bc2) in B31.
  change (Blockchain.getBalanceOfAddress (Some a2)
            (Blockchain.set_pendingTransactions bc2 [tx]))
    with (Blockchain.getBalanceOfAddress (Some a2) bc2) in B32.
  cbn [Blockchain.pendingTransactions Blockchain.set_pendingTransactions
       Blockchain.miningReward] in B31, B32.
  assert (M2 : Blockchain.miningReward bc2 = 100)
    by (rewrite Hbc2; cbn; exact M1).
  unfold credits, debits in B31, B32. rewrite !total_cons in B31, B32.
  rewrite Hf, Ht, Ha, M2 in B31, B32.
  rewrite ?E11, ?E12, ?E21, ?E22 in B31, B32.
  cbn in B31, B32.
  change (String.eqb a2 a1) with (address_eqb (Some a2) (Some a1)) in B31.
  change (String.eqb a1 a1) with (address_eqb (Some a1) (Some a1)) in B31.
  change (String.eqb a2 a2) with (address_eqb (Some a2) (Some a2)) in B32.
  change (String.eqb a1 a2) with (address_eqb (Some a1) (Some a2)) in B32.
  rewrite E21, E11 in B31. rewrite E22, E12 in B32.
  split; [lia|]. split; [lia|]. split.
  - pose proof (reachable_invariant _ _ Hr3) as Hinv. destruct Hinv.
    assumption.
  - apply (reachable_valid_when_searched 3 bc3 Hr3).
Qed.

End Transfers.

Lemma createTransaction_refusals_witness :
  Wallet.createTransaction None (Some "bob") 5 7 funded_ledger
  = Throw InsufficientBalance.
Proof.
  apply (proj1 (@createTransaction_refusals demo_secp None (Some "bob") 5 7
                  funded_ledger)).
  vm_compute. reflexivity.
Defined.

Lemma demo_wallet_keypair : @wallet_keypair demo_secp demo_wallet.
Proof. right. exists demo_key. vm_compute. reflexivity. Qed.

Lemma demo_wallet2_keypair : @wallet_keypair demo_secp demo_wallet2.
Proof. right. exists demo_key2. vm_compute. reflexivity. Qed.

Lemma createTransaction_admitted_witness :
  exists tx,
    Wallet.createTransaction (Some demo_wallet) (Some demo_address2) 50
      1700000002558 funded_ledger = Ok tx /\
    Transaction.fromAddress tx = Some demo_address /\
    Transaction.toAddress tx = Some demo_address2 /\
    Transaction.amount tx = 50 /\
    Transaction.timestamp tx = 1700000002558 /\
    Transaction.isValid tx = Ok true /\
    (truthy (Some demo_address2) = true -> 0 < 50 ->
     Blockchain.addTransaction tx funded_ledger
     = (Ok true,
        Blockchain.set_pendingTransactions funded_ledger
          (Blockchain.pendingTransactions funded_ledger ++ [tx]))).
Proof.
  assert (Hb : 50 <= Blockchain.getBalanceOfAddress
                       (Some (Wallet.address demo_wallet)) funded_ledger)
    by (vm_compute; discriminate).
  exact (@createTransaction_admitted demo_secp demo_secp_sound demo_wallet
           (Some demo_address2) 50 1700000002558 funded_ledger
           demo_wallet_keypair Hb).
Defined.

Lemma transfer_scenario_witness :
  Blockchain.getBalanceOfAddress (Some demo_address) funded_ledger = 200.
Proof.
  assert (Hne : Wallet.address demo_wallet <> Wallet.address demo_wallet2)
    by (vm_compute; discriminate).
  assert (H1 : Blockchain.minePendingTransactions 3 1700000001029
                 1700000001029 (Wallet.address demo_wallet)
                 (Blockchain.new 1700000000000)
               = Some (mined_result 3 1700000001029 demo_address
                         (Blockchain.new 1700000000000),
                       mined 3 1700000001029 demo_address
                         (Blockchain.new 1700000000000)))
    by (vm_compute; reflexivity).
  assert (H2 : Blockchain.minePendingTransactions 4 1700000002058
                 1700000002058 (Wallet.address demo_wallet)
                 (mined 3 1700000001029 demo_address
                    (Blockchain.new 1700000000000))
               = Some (mined_result 4 1700000002058 demo_address
                         (mined 3 1700000001029 demo_address
                            (Blockchain.new 1700000000000)),
                       funded_ledger))
    by (vm_compute; reflexivity).
  exact (proj1 (@transfer_scenario demo_secp demo_secp_sound demo_wallet
                  demo_wallet2 1700000000000 1700000002558
                  _ _ _ _ _ _ _ _ _ _
                  demo_wallet_keypair demo_wallet2_keypair Hne H1 H2)).
Defined.

(** ** The first revision: nothing can be queued *)

Section FirstRevisionAdmission.
Context {secp : Secp256k1}.

(** In the first revision, with a library that only takes 33-byte or
    65-byte public keys, [addTransaction] rejects every transaction whose
    sender is a wallet address and leaves the ledger unchanged: without a
    signature [isValid] throws and the exception escapes [addTransaction];
    with any signature [isValid] is false. *)
Theorem V1_addTransaction_rejects_wallet_senders (tx : Transaction.t)
        (pk : bytes) (bc : Blockchain.t) :
  (forall sig msg key,
      List.length key <> 33%nat -> List.length key <> 65%nat ->
      exists e, ecdsaVerify sig msg key = Throw e) ->
  Transaction.fromAddress tx = Some (sha256_hex_bytes pk) ->
  exists e,
    V1.addTransaction tx bc = (Throw e, bc) /\
    (e = MissingAddress \/ e = NoSignature \/ e = InvalidSignature) /\
    (truthy (Transaction.toAddress tx) = true ->
     Transaction.signature tx = Transaction.SigNull ->
     e = NoSignature).
Proof.
  intros Hlib Hs.
  unfold V1.addTransaction, bind, when, throw, ret, lift, gets, modify.
  rewrite Hs, truthy_digest. cbn [negb orb].
  destruct (truthy (Transaction.toAddress tx)) eqn:Ht; cbn [negb].
  2:{ exists MissingAddress. split; [reflexivity|]. split; [auto|].
      discriminate. }
  destruct (Transaction.signature tx) as [|[|c sg]|sg r] eqn:Hsig.
  - rewrite (V1_isValid_throws_without_signature tx _ Hs Hsig).
    exists NoSignature. auto.
  - assert (Hv : V1.isValid tx = Throw NoSignature)
      by (unfold V1.isValid; rewrite Hs, Hsig; reflexivity).
    rewrite Hv. exists NoSignature. split; [reflexivity|]. split; [auto|].
    discriminate.
  - rewrite (V1_isValid_false_for_addresses tx pk Hlib Hs)
      by (rewrite Hsig; discriminate).
    cbn. exists InvalidSignature. split; [reflexivity|]. split; [auto|].
    discriminate.
  - rewrite (V1_isValid_false_for_addresses tx pk Hlib Hs)
      by (rewrite Hsig; discriminate).
    cbn. exists InvalidSignature. split; [reflexivity|]. split; [auto|].
    discriminate.
Qed.

End FirstRevisionAdmission.

Lemma demo_secp_strict :
  forall sig msg key,
    List.length key <> 33%nat -> List.length key <> 65%nat ->
    exists e, @ecdsaVerify demo_secp sig msg key = Throw e.
Proof.
  intros sig msg key H33 _. cbn [ecdsaVerify demo_secp].
  apply Nat.eqb_neq in H33. rewrite H33, !andb_false_r. eauto.
Qed.

Lemma V1_addTransaction_rejects_wallet_senders_witness :
  exists e,
    V1.addTransaction demo_transfer funded_ledger
    = (Throw e, funded_ledger) /\
    (e = MissingAddress \/ e = NoSignature \/ e = InvalidSignature) /\
    (truthy (Transaction.toAddress demo_transfer) = true ->
     Transaction.signature demo_transfer = Transaction.SigNull ->
     e = NoSignature).
Proof.
  assert (Hs : Transaction.fromAddress demo_transfer
               = Some (sha256_hex_bytes (x02 :: repeat x01 32)))
    by (vm_compute; reflexivity).
  exact (@V1_addTransaction_rejects_wallet_senders demo_secp demo_transfer
           (x02 :: repeat x01 32) funded_ledger demo_secp_strict Hs).
Defined.
